(** * ETR client scripts: offline receipt queue, receipt form, live dashboard

    A shallow embedding of [static/js/offline.js], [static/js/create_receipt.js]
    and the dashboard script, with the parts of the browser platform they call
    ([JSON], [localStorage], [fetch], the DOM) modelled next to them. *)

From Stdlib Require Import ZArith NArith List Bool String Ascii Lia DecimalN.
From stdpp Require Import gmap list.

Local Open Scope N_scope.

(** ** JavaScript strings

    A JavaScript string is a sequence of UTF-16 code units; [js] injects an
    ASCII literal. *)

Module Text.

Definition jstring : Type := list N.

Definition js (s : string) : jstring := map N_of_ascii (list_ascii_of_string s).

Definition is_digit (c : N) : bool := (48 <=? c) && (c <=? 57).

Definition digit_char (d : N) : N := 48 + d.

Definition digit_chars (ds : list N) : jstring := map digit_char ds.

(** Longest prefix of decimal digits, as digit values, and what follows. *)
Fixpoint span_digits (s : jstring) : list N * jstring :=
  match s with
  | c :: r =>
      if is_digit c
      then let (ds, r') := span_digits r in (c - 48 :: ds, r')
      else ([], s)
  | [] => ([], [])
  end.

(** [String.prototype.startsWith] on code units: the rest after the prefix. *)
Fixpoint strip_prefix (p s : jstring) : option jstring :=
  match p, s with
  | [], _ => Some s
  | a :: p', b :: s' => if a =? b then strip_prefix p' s' else None
  | _ :: _, [] => None
  end.

(** Decimal digits of a natural number, most significant first. *)
Fixpoint uint_digits (u : Decimal.uint) : list N :=
  match u with
  | Decimal.Nil => []
  | Decimal.D0 u => 0 :: uint_digits u
  | Decimal.D1 u => 1 :: uint_digits u
  | Decimal.D2 u => 2 :: uint_digits u
  | Decimal.D3 u => 3 :: uint_digits u
  | Decimal.D4 u => 4 :: uint_digits u
  | Decimal.D5 u => 5 :: uint_digits u
  | Decimal.D6 u => 6 :: uint_digits u
  | Decimal.D7 u => 7 :: uint_digits u
  | Decimal.D8 u => 8 :: uint_digits u
  | Decimal.D9 u => 9 :: uint_digits u
  end.

Fixpoint digits_uint (ds : list N) : Decimal.uint :=
  match ds with
  | [] => Decimal.Nil
  | d :: r =>
      let u := digits_uint r in
      match d with
      | 0 => Decimal.D0 u | 1 => Decimal.D1 u | 2 => Decimal.D2 u
      | 3 => Decimal.D3 u | 4 => Decimal.D4 u | 5 => Decimal.D5 u
      | 6 => Decimal.D6 u | 7 => Decimal.D7 u | 8 => Decimal.D8 u
      | _ => Decimal.D9 u
      end
  end.

Definition digits_of_N (n : N) : list N := uint_digits (N.to_uint n).
Definition N_of_digits (ds : list N) : N := N.of_uint (digits_uint ds).

End Text.
Import Text.

(** ** JavaScript numbers

    A finite non-zero Number is represented by what [Number::toString] prints
    of it: the sign, the digits [s] of its shortest decimal form (no leading
    and no trailing zero) and the exponent [n], the value being
    [0.s * 10^n].  Zero has no digits; [+0] and [-0], which [===] does not
    tell apart, are one value.  A numeral is read by taking its exact
    decimal value and rounding it to binary64 ([round64]); the Numbers of
    the language are the values that [round64] leaves alone. *)

Module Num.

Inductive number : Type :=
| NaN
| Infinity (negative : bool)
| Finite (negative : bool) (digits : list N) (point : Z).

Definition zero : number := Finite false [] 0.

Definition isNaN (x : number) : bool :=
  match x with NaN => true | _ => false end.

Definition isFinite (x : number) : bool :=
  match x with Finite _ _ _ => true | _ => false end.

(** [x <= 0] and [x < 0]; both are false on NaN. *)
Definition le0 (x : number) : bool :=
  match x with
  | NaN => false
  | Infinity neg => neg
  | Finite neg s _ => match s with [] => true | _ => neg end
  end.

Definition lt0 (x : number) : bool :=
  match x with
  | NaN => false
  | Infinity neg => neg
  | Finite neg s _ => match s with [] => false | _ => neg end
  end.

(** [0 < x] *)
Definition gt0 (x : number) : bool :=
  match x with
  | NaN => false
  | Infinity neg => negb neg
  | Finite neg s _ => match s with [] => false | _ => negb neg end
  end.

(** [0 <= x] *)
Definition ge0 (x : number) : bool :=
  match x with
  | NaN => false
  | Infinity neg => negb neg
  | Finite neg s _ => match s with [] => true | _ => negb neg end
  end.

Fixpoint drop_zeros (ds : list N) : list N :=
  match ds with
  | 0 :: r => drop_zeros r
  | _ => ds
  end.

Definition strip_trailing_zeros (ds : list N) : list N :=
  rev (drop_zeros (rev ds)).

(** The number denoted by integer digits [ip], fraction digits [fp] and
    exponent [e]. *)
Definition mk_number (neg : bool) (ip fp : list N) (e : Z) : number :=
  let d := drop_zeros (ip ++ fp) in
  match d with
  | [] => zero
  | _ => Finite neg (strip_trailing_zeros d)
           (Z.of_nat (length d) + e - Z.of_nat (length fp))
  end.

Definition head_nonzero (s : list N) : bool :=
  match s with d :: _ => negb (d =? 0) | [] => false end.

(** The representation invariant of a finite number. *)
Definition canonical (x : number) : bool :=
  match x with
  | Finite neg [] n => negb neg && (n =? 0)%Z
  | Finite _ s _ =>
      forallb (fun d => d <? 10) s && head_nonzero s && head_nonzero (rev s)
  | _ => true
  end.

(** *** Rounding to binary64

    The magnitude of a binary64 value: zero, infinity, or [mant * 2^expo]
    with [2^52 <= mant < 2^53] and [expo <= 971], or, for a subnormal,
    [mant < 2^52] and [expo = -1074]. *)
Inductive double : Type :=
| DZero
| DInf
| DFin (mant expo : Z).

#[global] Instance double_eq_dec : EqDecision double.
Proof. solve_decision. Defined.

#[global] Instance number_eq_dec : EqDecision number.
Proof. solve_decision. Defined.

(** The fraction [num / den] divided by [2^e]. *)
Definition scale2 (num den e : Z) : Z * Z :=
  if (0 <=? e)%Z then (num, den * 2 ^ e)%Z else (num * 2 ^ (- e), den)%Z.

(** The fraction [num / den] divided by [10^e]. *)
Definition scale10 (num den e : Z) : Z * Z :=
  if (0 <=? e)%Z then (num, den * 10 ^ e)%Z else (num * 10 ^ (- e), den)%Z.

(** The integer nearest to [n / d], the even one of two that are equally
    near. *)
Definition round_half_even (n d : Z) : Z :=
  let q := (n / d)%Z in
  match (2 * (n mod d) ?= d)%Z with
  | Lt => q
  | Gt => (q + 1)%Z
  | Eq => if Z.even q then q else (q + 1)%Z
  end.

(** The binary64 value nearest to [num / den], for positive [num] and
    [den]: the exponent is chosen so that the quotient has 53 bits, or is
    -1074 where that would be less; the quotient is rounded to nearest,
    ties to even; a result of [2^1024] or more is infinity. *)
Definition nearest (num den : Z) : double :=
  let b := (Z.log2 num - Z.log2 den)%Z in
  let e1 := Z.max (-1074) (b - 52) in
  let '(n1, d1) := scale2 num den e1 in
  let e2 := if ((n1 / d1 <? 2 ^ 52) && (-1074 <? e1))%Z then (e1 - 1)%Z else e1 in
  let '(n2, d2) := scale2 num den e2 in
  let m := round_half_even n2 d2 in
  let '(m', e') := if (m =? 2 ^ 53)%Z then (2 ^ 52, e2 + 1)%Z else (m, e2) in
  if (m' =? 0)%Z then DZero
  else if (971 <? e')%Z then DInf
  else DFin m' e'.

(** The binary64 magnitude of a number given by its digits.  Beyond
    [10^310] everything is infinite and below [10^-330] everything is zero,
    so the powers of ten that are computed stay small. *)
Definition to_double (x : number) : double :=
  match x with
  | NaN => DZero
  | Infinity _ => DInf
  | Finite neg s n =>
      match mk_number neg s [] (n - Z.of_nat (length s)) with
      | Finite _ (d :: s') n' =>
          if (310 <? n')%Z then DInf
          else if (n' <? -330)%Z then DZero
          else
            let k := Z.of_nat (length (d :: s')) in
            let m := Z.of_N (N_of_digits (d :: s')) in
            if (k <=? n')%Z then nearest (m * 10 ^ (n' - k)) 1
            else nearest m (10 ^ (k - n'))
      | _ => DZero
      end
  end.

(** [10^n <= num / den] *)
Definition ge_pow10 (num den n : Z) : bool :=
  let '(a, b) := scale10 num den n in (b <=? a)%Z.

Fixpoint point_up (fuel : nat) (num den n : Z) : Z :=
  match fuel with
  | O => n
  | S f => if ge_pow10 num den n then point_up f num den (n + 1) else n
  end.

Fixpoint point_down (fuel : nat) (num den n : Z) : Z :=
  match fuel with
  | O => n
  | S f => if ge_pow10 num den (n - 1) then n else point_down f num den (n - 1)
  end.

(** The [n] with [10^(n-1) <= num / den < 10^n], found from an estimate by
    the binary logarithm that is off by two at most. *)
Definition decimal_point (num den : Z) : Z :=
  let est := ((Z.log2 num - Z.log2 den) * 30103 / 100000)%Z in
  point_down 4 num den (point_up 4 num den est).

(** The number with the decimal digits of [s], times [10^scale]. *)
Definition candidate (neg : bool) (s scale : Z) : number :=
  mk_number neg (digits_of_N (Z.to_N s)) [] scale.

(** The decimals of [k] digits next to [num / den] on either side; of those
    that round to [mant * 2^expo], the nearer one, the even one if both are
    as near. *)
Definition try_digits (neg : bool) (mant expo num den n k : Z) : option number :=
  let scale := (n - k)%Z in
  let '(a, b) := scale10 num den scale in
  let lo := (a / b)%Z in
  let clo := candidate neg lo scale in
  let chi := candidate neg (lo + 1) scale in
  match bool_decide (to_double clo = DFin mant expo),
        bool_decide (to_double chi = DFin mant expo) with
  | true, true =>
      Some match (2 * (a mod b) ?= b)%Z with
           | Lt => clo
           | Gt => chi
           | Eq => if Z.even lo then clo else chi
           end
  | true, false => Some clo
  | false, true => Some chi
  | false, false => None
  end.

Fixpoint search_digits (fuel : nat) (neg : bool) (mant expo num den n k : Z) : number :=
  match fuel with
  | O => NaN
  | S f =>
      match try_digits neg mant expo num den n k with
      | Some c => c
      | None => search_digits f neg mant expo num den n (k + 1)
      end
  end.

(** The digits that [Number::toString] prints of [mant * 2^expo]: as few as
    identify the value, and of those the nearest.  Seventeen digits always
    identify a binary64 value, so the search ends before its fuel does. *)
Definition shortest (neg : bool) (mant expo : Z) : number :=
  let '(num, den) := scale2 mant 1 (- expo) in
  search_digits 17 neg mant expo num den (decimal_point num den) 1.

(** The Number that a decimal value rounds to. *)
Definition round64 (x : number) : number :=
  match x with
  | Finite neg _ _ =>
      match to_double x with
      | DZero => zero
      | DInf => Infinity neg
      | DFin mant expo => shortest neg mant expo
      end
  | _ => x
  end.

(** [x] is a Number: rounding leaves it alone. *)
Definition is_double (x : number) : bool := bool_decide (round64 x = x).

(** [Number::toString(x, 10)] *)
Definition exponent_part (e : Z) : jstring :=
  101 :: (if (e <? 0)%Z then 45 else 43) :: digit_chars (digits_of_N (Z.abs_N e)).

Definition toString_digits (s : list N) (n : Z) : jstring :=
  let k := Z.of_nat (length s) in
  if ((k <=? n) && (n <=? 21))%Z then
    digit_chars s ++ replicate (Z.to_nat (n - k)) 48
  else if ((0 <? n) && (n <=? 21))%Z then
    digit_chars (take (Z.to_nat n) s) ++ 46 :: digit_chars (drop (Z.to_nat n) s)
  else if ((-6 <? n) && (n <=? 0))%Z then
    48 :: 46 :: replicate (Z.to_nat (- n)) 48 ++ digit_chars s
  else
    match s with
    | [d] => digit_char d :: exponent_part (n - 1)
    | d :: r => digit_char d :: 46 :: digit_chars r ++ exponent_part (n - 1)
    | [] => []
    end.

Definition toString (x : number) : jstring :=
  match x with
  | NaN => js "NaN"
  | Infinity neg => (if neg then [45] else []) ++ js "Infinity"
  | Finite _ [] _ => [48]
  | Finite neg s n => (if neg then [45] else []) ++ toString_digits s n
  end.

(** Exponent part of a literal, [e] or [E], an optional sign and digits. *)
Definition parse_exponent (s : jstring) : option (Z * jstring) :=
  match s with
  | c :: r =>
      if (c =? 101) || (c =? 69) then
        let '(neg, r1) :=
          match r with
          | 45 :: r' => (true, r')
          | 43 :: r' => (false, r')
          | _ => (false, r)
          end in
        match span_digits r1 with
        | ([], _) => None
        | (ds, r2) =>
            let e := Z.of_N (N_of_digits ds) in
            Some (if neg then (- e)%Z else e, r2)
        end
      else None
  | [] => None
  end.

End Num.
Import Num.

(** ** JSON

    [JSON.stringify] and [JSON.parse] on JSON data.  A value that
    [JSON.stringify] would skip or refuse ([undefined], a function, a cycle)
    is not a [json]; an object is the list of its own properties in the
    order in which the object lists them. *)

Module JSON.

Unset Elimination Schemes.
Inductive json : Type :=
| JNull
| JBool (b : bool)
| JNum (x : number)
| JStr (s : jstring)
| JArr (elements : list json)
| JObj (members : list (jstring * json)).
Set Elimination Schemes.

(** *** JSON.stringify *)

Definition hex_char (d : N) : N := if d <? 10 then 48 + d else 87 + d.

(** [UnicodeEscape]: a backslash, [u] and four lowercase hexadecimal digits. *)
Definition uescape (c : N) : jstring :=
  [92; 117; hex_char (c / 4096 mod 16); hex_char (c / 256 mod 16);
   hex_char (c / 16 mod 16); hex_char (c mod 16)].

(** The two-character escapes of [QuoteJSONString]: the second character. *)
Definition short_escape (c : N) : option N :=
  if c =? 8 then Some 98          (* backspace, b *)
  else if c =? 9 then Some 116    (* tab, t *)
  else if c =? 10 then Some 110   (* line feed, n *)
  else if c =? 12 then Some 102   (* form feed, f *)
  else if c =? 13 then Some 114   (* carriage return, r *)
  else if c =? 34 then Some 34    (* double quote *)
  else if c =? 92 then Some 92    (* backslash *)
  else None.

Definition is_high_surrogate (c : N) : bool := (55296 <=? c) && (c <=? 56319).
Definition is_low_surrogate (c : N) : bool := (56320 <=? c) && (c <=? 57343).

Fixpoint quote_body (s : jstring) : jstring :=
  match s with
  | [] => []
  | c :: r =>
      match short_escape c with
      | Some e => 92 :: e :: quote_body r
      | None =>
          if c <? 32 then uescape c ++ quote_body r
          else if is_high_surrogate c then
            match r with
            | d :: r' =>
                if is_low_surrogate d then c :: d :: quote_body r'
                else uescape c ++ quote_body r
            | [] => uescape c
            end
          else if is_low_surrogate c then uescape c ++ quote_body r
          else c :: quote_body r
      end
  end.

(** [QuoteJSONString] *)
Definition quote (s : jstring) : jstring := 34 :: quote_body s ++ [34].

Fixpoint join_comma (parts : list jstring) : jstring :=
  match parts with
  | [] => []
  | [p] => p
  | p :: rest => p ++ 44 :: join_comma rest
  end.

Definition stringify_number (x : number) : jstring :=
  if isFinite x then Num.toString x else js "null".

Fixpoint stringify (v : json) : jstring :=
  match v with
  | JNull => js "null"
  | JBool true => js "true"
  | JBool false => js "false"
  | JNum x => stringify_number x
  | JStr s => quote s
  | JArr xs => 91 :: join_comma (map stringify xs) ++ [93]
  | JObj ms =>
      123 :: join_comma (map (fun m => quote (fst m) ++ 58 :: stringify (snd m)) ms)
          ++ [125]
  end.

(** *** JSON.parse *)

Definition is_ws (c : N) : bool :=
  (c =? 32) || (c =? 9) || (c =? 10) || (c =? 13).

Fixpoint skip_ws (s : jstring) : jstring :=
  match s with
  | c :: r => if is_ws c then skip_ws r else s
  | [] => []
  end.

Definition hex_value (c : N) : option N :=
  if is_digit c then Some (c - 48)
  else if (97 <=? c) && (c <=? 102) then Some (c - 87)
  else if (65 <=? c) && (c <=? 70) then Some (c - 55)
  else None.

Definition hex4_value (a b c d : N) : option N :=
  match hex_value a, hex_value b, hex_value c, hex_value d with
  | Some x, Some y, Some z, Some w => Some (((x * 16 + y) * 16 + z) * 16 + w)
  | _, _, _, _ => None
  end.

Definition unescape (e : N) : option N :=
  if e =? 34 then Some 34
  else if e =? 92 then Some 92
  else if e =? 47 then Some 47
  else if e =? 98 then Some 8
  else if e =? 102 then Some 12
  else if e =? 110 then Some 10
  else if e =? 114 then Some 13
  else if e =? 116 then Some 9
  else None.

Definition prepend (c : N) (o : option (jstring * jstring))
  : option (jstring * jstring) :=
  match o with
  | Some (s, r) => Some (c :: s, r)
  | None => None
  end.

(** The characters of a string literal after its opening quote. *)
Fixpoint parse_string_body (s : jstring) : option (jstring * jstring) :=
  match s with
  | [] => None
  | c :: r =>
      if c =? 34 then Some ([], r)
      else if c =? 92 then
        match r with
        | [] => None
        | e :: r1 =>
            if e =? 117 then
              match r1 with
              | h1 :: h2 :: h3 :: h4 :: r2 =>
                  match hex4_value h1 h2 h3 h4 with
                  | Some v => prepend v (parse_string_body r2)
                  | None => None
                  end
              | _ => None
              end
            else
              match unescape e with
              | Some v => prepend v (parse_string_body r1)
              | None => None
              end
        end
      else if c <? 32 then None
      else prepend c (parse_string_body r)
  end.

(** A number literal: an optional minus sign, the integer part (a single
    zero, or digits that do not start with zero), an optional fraction (a dot
    and at least one digit) and an optional exponent. *)
Definition parse_int_part (s : jstring) : option (list N * jstring) :=
  match s with
  | c :: r =>
      if c =? 48 then Some ([0], r)
      else match span_digits s with
           | ([], _) => None
           | (ds, r') => Some (ds, r')
           end
  | [] => None
  end.

Definition parse_fraction (s : jstring) : option (list N * jstring) :=
  match s with
  | c :: r =>
      if c =? 46 then
        match span_digits r with
        | ([], _) => None
        | (ds, r') => Some (ds, r')
        end
      else Some ([], s)
  | [] => Some ([], [])
  end.

Definition starts_exponent (s : jstring) : bool :=
  match s with
  | c :: _ => (c =? 101) || (c =? 69)
  | [] => false
  end.

Definition parse_unsigned (neg : bool) (s1 : jstring) : option (number * jstring) :=
  match parse_int_part s1 with
  | None => None
  | Some (ip, s2) =>
      match parse_fraction s2 with
      | None => None
      | Some (fp, s3) =>
          if starts_exponent s3 then
            match parse_exponent s3 with
            | Some (e, s4) => Some (mk_number neg ip fp e, s4)
            | None => None
            end
          else Some (mk_number neg ip fp 0, s3)
      end
  end.

Definition parse_number (s : jstring) : option (number * jstring) :=
  match s with
  | c :: r => if c =? 45 then parse_unsigned true r else parse_unsigned false s
  | [] => None
  end.

(** An array index: the canonical numeral of an integer below [2^32 - 1].
    The own properties of an object are listed with the array indices
    first, in ascending order, and then the other keys in the order in
    which they were created. *)
Definition array_index (k : jstring) : option N :=
  match span_digits k with
  | (d :: ds, []) =>
      if (d =? 0) && negb (match ds with [] => true | _ => false end) then None
      else if N_of_digits (d :: ds) <=? 4294967294 then Some (N_of_digits (d :: ds))
      else None
  | _ => None
  end.

(** [k] is listed before [k']. *)
Definition comes_before (k k' : jstring) : bool :=
  match array_index k, array_index k' with
  | Some n, Some n' => n <? n'
  | Some _, None => true
  | None, _ => false
  end.

(** [CreateDataProperty] on the list of own properties: a key already
    present keeps its place and takes the new value; a new array index goes
    to its place among the indices, any other new key goes last. *)
Fixpoint obj_set (ms : list (jstring * json)) (k : jstring) (v : json)
  : list (jstring * json) :=
  match ms with
  | [] => [(k, v)]
  | (k', v') :: r =>
      if decide (k' = k) then (k', v) :: r
      else if comes_before k k' then (k, v) :: (k', v') :: r
      else (k', v') :: obj_set r k v
  end.

Definition obj_of_members (ms : list (jstring * json)) : list (jstring * json) :=
  fold_left (fun acc m => obj_set acc (fst m) (snd m)) ms [].

Section Parser.
(** The parser of a value, one nesting level down. *)
Variable pv : jstring -> option (json * jstring).

(** Elements after [[], up to and including the closing bracket; [n]
    bounds the number of elements. *)
Fixpoint parse_elements (n : nat) (s : jstring) : option (list json * jstring) :=
  match n with
  | O => None
  | S n' =>
      match pv s with
      | None => None
      | Some (v, r) =>
          match skip_ws r with
          | c :: r' =>
              if c =? 44 then
                match parse_elements n' r' with
                | Some (vs, r'') => Some (v :: vs, r'')
                | None => None
                end
              else if c =? 93 then Some ([v], r')
              else None
          | [] => None
          end
      end
  end.

Fixpoint parse_members (n : nat) (s : jstring)
  : option (list (jstring * json) * jstring) :=
  match n with
  | O => None
  | S n' =>
      match skip_ws s with
      | q :: r =>
          if q =? 34 then
            match parse_string_body r with
            | None => None
            | Some (k, r1) =>
                match skip_ws r1 with
                | c :: r2 =>
                    if c =? 58 then
                      match pv r2 with
                      | None => None
                      | Some (v, r3) =>
                          match skip_ws r3 with
                          | d :: r4 =>
                              if d =? 44 then
                                match parse_members n' r4 with
                                | Some (ms, r5) => Some ((k, v) :: ms, r5)
                                | None => None
                                end
                              else if d =? 125 then Some ([(k, v)], r4)
                              else None
                          | [] => None
                          end
                      end
                    else None
                | [] => None
                end
            end
          else None
      | [] => None
      end
  end.
End Parser.

Definition parse_literal (lit : jstring) (v : json) (s : jstring)
  : option (json * jstring) :=
  match strip_prefix lit s with
  | Some r => Some (v, r)
  | None => None
  end.

(** A value, after optional white space; [fuel] bounds the nesting depth. *)
Fixpoint parse_value (fuel : nat) (s : jstring) : option (json * jstring) :=
  match fuel with
  | O => None
  | S f =>
      match skip_ws s with
      | [] => None
      | c :: r =>
          if c =? 34 then
            match parse_string_body r with
            | Some (str, r') => Some (JStr str, r')
            | None => None
            end
          else if c =? 91 then
            match skip_ws r with
            | d :: r' =>
                if d =? 93 then Some (JArr [], r')
                else match parse_elements (parse_value f) (length r) r with
                     | Some (vs, r'') => Some (JArr vs, r'')
                     | None => None
                     end
            | [] => None
            end
          else if c =? 123 then
            match skip_ws r with
            | d :: r' =>
                if d =? 125 then Some (JObj [], r')
                else match parse_members (parse_value f) (length r) r with
                     | Some (ms, r'') => Some (JObj (obj_of_members ms), r'')
                     | None => None
                     end
            | [] => None
            end
          else if c =? 116 then parse_literal (js "true") (JBool true) (c :: r)
          else if c =? 102 then parse_literal (js "false") (JBool false) (c :: r)
          else if c =? 110 then parse_literal (js "null") JNull (c :: r)
          else match parse_number (c :: r) with
               | Some (x, r') => Some (JNum (round64 x), r')
               | None => None
               end
      end
  end.

(** [JSON.parse]: [None] is a [SyntaxError]. *)
Definition parse (s : jstring) : option json :=
  match parse_value (S (length s)) s with
  | Some (v, r) => match skip_ws r with [] => Some v | _ => None end
  | None => None
  end.

Fixpoint depth (v : json) : nat :=
  match v with
  | JArr xs => S (fold_right (fun x d => Nat.max (depth x) d) O xs)
  | JObj ms => S (fold_right (fun m d => Nat.max (depth (snd m)) d) O ms)
  | _ => O
  end.

(** The keys are in the order in which an object lists them. *)
Fixpoint key_ordered (ks : list jstring) : bool :=
  match ks with
  | k :: r =>
      match r with
      | k' :: _ => negb (comes_before k' k) && key_ordered r
      | [] => true
      end
  | [] => true
  end.

(** Plain JSON data: every number is a finite Number in canonical form, and
    every object lists each key once and in the order of an object.  These
    are the values that [JSON.stringify] and [JSON.parse] hand back as they
    were. *)
Fixpoint plain (v : json) : bool :=
  match v with
  | JNum x => isFinite x && canonical x && is_double x
  | JArr xs => forallb plain xs
  | JObj ms =>
      bool_decide (NoDup (map fst ms)) && key_ordered (map fst ms)
      && forallb (fun m => plain (snd m)) ms
  | _ => true
  end.

End JSON.
Import JSON.

(** ** The global functions and string methods the scripts call *)

Module Globals.

(** [WhiteSpace] and [LineTerminator] code units, which [trim] and
    [parseFloat] strip. *)
Definition is_js_space (c : N) : bool :=
  ((9 <=? c) && (c <=? 13)) || (c =? 32) || (c =? 160) || (c =? 5760)
  || ((8192 <=? c) && (c <=? 8202)) || (c =? 8232) || (c =? 8233)
  || (c =? 8239) || (c =? 8287) || (c =? 12288) || (c =? 65279).

Fixpoint trim_start (s : jstring) : jstring :=
  match s with
  | c :: r => if is_js_space c then trim_start r else s
  | [] => []
  end.

(** [String.prototype.trim] *)
Definition trim (s : jstring) : jstring :=
  rev (trim_start (rev (trim_start s))).

(** [parseFloat]: the longest prefix of the trimmed string that is a
    [StrDecimalLiteral], rounded to binary64, or NaN when there is none. *)
Definition parseFloat (input : jstring) : number :=
  let s := trim_start input in
  let '(neg, s1) :=
    match s with
    | c :: r => if c =? 45 then (true, r) else if c =? 43 then (false, r) else (false, s)
    | [] => (false, s)
    end in
  match strip_prefix (js "Infinity") s1 with
  | Some _ => Infinity neg
  | None =>
      let '(ip, s2) := span_digits s1 in
      let '(fp, s3) :=
        match s2 with
        | c :: r => if c =? 46 then span_digits r else ([], s2)
        | [] => ([], s2)
        end in
      match ip ++ fp with
      | [] => NaN
      | _ =>
          match parse_exponent s3 with
          | Some (e, _) => round64 (mk_number neg ip fp e)
          | None => round64 (mk_number neg ip fp 0)
          end
      end
  end.

End Globals.
Import Globals.

(** ** The page: storage, document body and what the scripts emit *)

Module Browser.

(** What a script does to the outside, in order.  [SyncCall] is a ghost
    event: it records an invocation of [syncPendingReceipts]. *)
Inductive effect : Type :=
  | Fetch (url : jstring) (body : jstring)
  | ConsoleError (message : jstring)
  | Alert (message : jstring)
  | SyncCall.

Record Element : Type := { className : jstring; innerHTML : jstring }.

Record World : Type := {
  localStorage : gmap (list N) (list N);
  bodyClasses : gset (list N);      (* document.body.classList *)
  bodyChildren : list Element;      (* elements appended to document.body *)
  trace : list effect
}.

Definition getItem (key : jstring) (w : World) : option jstring :=
  localStorage w !! key.

Definition setItem (key value : jstring) (w : World) : World :=
  {| localStorage := <[key := value]> (localStorage w);
     bodyClasses := bodyClasses w;
     bodyChildren := bodyChildren w;
     trace := trace w |}.

Definition classList_add (c : jstring) (w : World) : World :=
  {| localStorage := localStorage w;
     bodyClasses := {[ c ]} ∪ bodyClasses w;
     bodyChildren := bodyChildren w;
     trace := trace w |}.

Definition classList_remove (c : jstring) (w : World) : World :=
  {| localStorage := localStorage w;
     bodyClasses := bodyClasses w ∖ {[ c ]};
     bodyChildren := bodyChildren w;
     trace := trace w |}.

Definition appendChild (e : Element) (w : World) : World :=
  {| localStorage := localStorage w;
     bodyClasses := bodyClasses w;
     bodyChildren := bodyChildren w ++ [e];
     trace := trace w |}.

Definition emit (e : effect) (w : World) : World :=
  {| localStorage := localStorage w;
     bodyClasses := bodyClasses w;
     bodyChildren := bodyChildren w;
     trace := trace w ++ [e] |}.

(** How one [fetch] ends: the promise rejects, or a response arrives whose
    [ok] flag is given. *)
Inductive fetch_result : Type :=
  | Rejected (message : jstring)
  | Response (ok : bool).

Inductive exn : Type := SyntaxError | TypeError.

Inductive outcome (A : Type) : Type :=
  | Returns (a : A)
  | Throws (e : exn).
Arguments Returns {A} a.
Arguments Throws {A} e.

End Browser.
Import Browser.

(** ** static/js/offline.js *)

Module Offline.

(** A value held in the in-memory queue.  An object or array is a reference:
    [ref] is its identity and [payload] its content, which the script never
    mutates.  For a primitive only [payload] counts. *)
Record entry : Type := { ref : N; payload : json }.

Definition is_reference (v : json) : bool :=
  match v with JArr _ | JObj _ => true | _ => false end.

Definition number_eq (x y : number) : bool :=
  match x, y with
  | Infinity a, Infinity b => Bool.eqb a b
  | Finite a s n, Finite b t m =>
      match s, t with
      | [], [] => true
      | _, _ => Bool.eqb a b && bool_decide (s = t) && (n =? m)%Z
      end
  | _, _ => false
  end.

(** [a === b] *)
Definition strict_eq (a b : entry) : bool :=
  match payload a, payload b with
  | JNull, JNull => true
  | JBool x, JBool y => Bool.eqb x y
  | JNum x, JNum y => number_eq x y
  | JStr s, JStr t => bool_decide (s = t)
  | (JArr _ | JObj _), (JArr _ | JObj _) => ref a =? ref b
  | _, _ => false
  end.

Record OfflineManager : Type := {
  isOnline : bool;
  pendingReceipts : list entry
}.

Record State : Type := { manager : OfflineManager; world : World }.

Definition KEY : jstring := js "pendingReceipts".

Definition payloads (q : list entry) : list json := map payload q.

(** [JSON.parse(localStorage.getItem('pendingReceipts') || '[]')]; [None]
    is the [SyntaxError] that [JSON.parse] throws. *)
Definition load (w : World) : option json :=
  JSON.parse
    match getItem KEY w with
    | Some [] => js "[]"
    | Some s => s
    | None => js "[]"
    end.

(** [localStorage.setItem('pendingReceipts', JSON.stringify(queue))] *)
Definition save (q : list entry) (w : World) : World :=
  setItem KEY (stringify (JArr (payloads q))) w.

Definition with_world (f : World -> World) (st : State) : State :=
  {| manager := manager st; world := f (world st) |}.

Definition set_isOnline (b : bool) (st : State) : State :=
  {| manager := {| isOnline := b; pendingReceipts := pendingReceipts (manager st) |};
     world := world st |}.

Definition set_pendingReceipts (q : list entry) (st : State) : State :=
  {| manager := {| isOnline := isOnline (manager st); pendingReceipts := q |};
     world := world st |}.

(** The template literal of [showOfflineNotification]; 34 is the double
    quote, 10 the line feed. *)
Definition offlineIndicator : Element :=
  {| className := js "offline-indicator";
     innerHTML :=
       10 :: replicate 12 32 ++ js "<i class=" ++ 34 :: js "fas fa-wifi" ++ 34 :: js "></i>"
       ++ 10 :: replicate 12 32
       ++ js "<span>Working offline. Receipts will sync when connection is restored.</span>"
       ++ 10 :: replicate 8 32 |}.

Definition showOfflineNotification (st : State) : State :=
  with_world (appendChild offlineIndicator) st.

(** One turn of the loop of [syncPendingReceipts]: the request for
    [receipt] ends as [res]. *)
Definition sync_step (receipt : entry) (res : fetch_result) (st : State) : State :=
  let st1 :=
    with_world (emit (Fetch (js "/create-receipt") (stringify (payload receipt)))) st in
  match res with
  | Response true =>
      let q := filter (fun r => negb (strict_eq r receipt))
                      (pendingReceipts (manager st1)) in
      with_world (save q) (set_pendingReceipts q st1)
  | Response false => st1
  | Rejected _ =>
      with_world (emit (ConsoleError (js "Failed to sync receipt:"))) st1
  end.

(** The loop runs over the array that [this.pendingReceipts] held when it
    started ([filter] builds a new array and leaves that one alone);
    [net i] is how its [i]-th request ends. *)
Fixpoint sync_loop (snapshot : list entry) (i : nat) (net : nat -> fetch_result)
    (st : State) : State :=
  match snapshot with
  | [] => st
  | receipt :: rest => sync_loop rest (S i) net (sync_step receipt (net i) st)
  end.

(** One drain pass, run from the call to the end of the loop; what other
    handlers do between two requests is outside this function. *)
Definition syncPendingReceipts (net : nat -> fetch_result) (st : State) : State :=
  sync_loop (pendingReceipts (manager st)) 0 net (with_world (emit SyncCall) st).

Definition handleOnline (net : nat -> fetch_result) (st : State) : State :=
  with_world (classList_remove (js "offline"))
    (syncPendingReceipts net (set_isOnline true st)).

Definition handleOffline (st : State) : State :=
  showOfflineNotification
    (with_world (classList_add (js "offline")) (set_isOnline false st)).

Definition storeReceiptOffline (receiptData : entry) (st : State) : State :=
  let q := pendingReceipts (manager st) ++ [receiptData] in
  showOfflineNotification (with_world (save q) (set_pendingReceipts q st)).

Definition init (net : nat -> fetch_result) (st : State) : State :=
  if (0 <? length (pendingReceipts (manager st)))%nat && isOnline (manager st)
  then syncPendingReceipts net st
  else st.

(** The objects that [JSON.parse] builds are new and pairwise distinct. *)
Definition fresh_entries (xs : list json) : list entry :=
  imap (fun i v => {| ref := N.of_nat i; payload := v |}) xs.

(** [new OfflineManager()], with [navigator.onLine] given.  A stored array
    is modelled in full, and so are a text that does not parse and a stored
    [null], on which [init] fails; the manager that any other stored value
    yields is left out ([None]). *)
Definition constructor (onLine : bool) (net : nat -> fetch_result) (w : World)
  : option (outcome State) :=
  match load w with
  | None => Some (Throws SyntaxError)
  | Some (JArr xs) =>
      Some (Returns
        (init net {| manager := {| isOnline := onLine;
                                   pendingReceipts := fresh_entries xs |};
                     world := w |}))
  | Some JNull => Some (Throws TypeError)
  | Some _ => None
  end.

(** The [online] and [offline] events of [window], as registered by [init]. *)
Inductive window_event : Type :=
  | Online (net : nat -> fetch_result)
  | Offline.

Definition dispatch (ev : window_event) (st : State) : State :=
  match ev with
  | Online net => handleOnline net st
  | Offline => handleOffline st
  end.

Definition run (evs : list window_event) (st : State) : State :=
  fold_left (fun s ev => dispatch ev s) evs st.

End Offline.

(** ** static/js/create_receipt.js *)

Module CreateReceipt.

(** An [.item-row]: the values of its three inputs and their
    [style.borderColor]. *)
Record ItemRow : Type := {
  name_value : jstring;
  quantity_value : jstring;
  price_value : jstring;
  name_border : jstring;
  quantity_border : jstring;
  price_border : jstring
}.

Record Form : Type := {
  customerName : jstring;
  customerPIN : jstring;
  paymentMethod : jstring;
  rows : list ItemRow
}.

Record Item : Type := { name : jstring; quantity : number; price : number }.

Record ReceiptData : Type := {
  customer_name : jstring;
  customer_pin : jstring;
  payment_method : jstring;
  items : list Item
}.

(** The object literals as JSON data, keys in the order written. *)
Definition item_json (i : Item) : json :=
  JObj [(js "name", JStr (name i)); (js "quantity", JNum (quantity i));
        (js "price", JNum (price i))].

Definition receipt_json (d : ReceiptData) : json :=
  JObj [(js "customer_name", JStr (customer_name d));
        (js "customer_pin", JStr (customer_pin d));
        (js "payment_method", JStr (payment_method d));
        (js "items", JArr (map item_json (items d)))].

Definition is_empty (s : jstring) : bool :=
  match s with [] => true | _ => false end.

Definition bad_quantity (r : ItemRow) : bool :=
  let quantity := parseFloat (quantity_value r) in
  isNaN quantity || le0 quantity.

Definition bad_price (r : ItemRow) : bool :=
  let price := parseFloat (price_value r) in
  isNaN price || lt0 price.

(** [!name || isNaN(quantity) || quantity <= 0 || isNaN(price) || price < 0] *)
Definition row_invalid (r : ItemRow) : bool :=
  is_empty (trim (name_value r)) || bad_quantity r || bad_price r.

Definition item_of_row (r : ItemRow) : Item :=
  {| name := trim (name_value r);
     quantity := parseFloat (quantity_value r);
     price := parseFloat (price_value r) |}.

(** What the callback of [validateForm] does to the borders of one row. *)
Definition highlight (r : ItemRow) : ItemRow :=
  if row_invalid r then
    {| name_value := name_value r;
       quantity_value := quantity_value r;
       price_value := price_value r;
       name_border :=
         if is_empty (trim (name_value r)) then js "red" else name_border r;
       quantity_border := if bad_quantity r then js "red" else quantity_border r;
       price_border := if bad_price r then js "red" else price_border r |}
  else
    {| name_value := name_value r;
       quantity_value := quantity_value r;
       price_value := price_value r;
       name_border := [];
       quantity_border := [];
       price_border := [] |}.

Record Validation : Type := { valid : bool; valid_items : list Item }.

Definition collect_items (rs : list ItemRow) : list Item :=
  map item_of_row (filter (fun r => negb (row_invalid r)) rs).

(** [validateForm]: its result and the rows as it leaves them. *)
Definition validateForm (rs : list ItemRow) : Validation * list ItemRow :=
  ({| valid := forallb (fun r => negb (row_invalid r)) rs;
      valid_items := collect_items rs |},
   map highlight rs).

(** A button: its [innerHTML] and its [disabled] flag. *)
Record Button : Type := { label : jstring; disabled : bool }.

(** The JSON body of a response that has [success]; how [showReceipt]
    lays it out as HTML is not modelled. *)
Record Result : Type := {
  receipt_id : jstring;
  result_body : json
}.

(** How the request of [generateReceipt] ends.  [Failed] stands for every
    path into [catch]: [fetch] rejects, the body is not JSON, or
    [showReceipt] throws, which it can only do before it changes anything. *)
Inductive submit_result : Type :=
  | Failed (message : jstring)
  | Succeeded (result : Result)
  | Refused (error : jstring).

Record Page : Type := {
  form : Form;
  generateReceiptBtn : Button;
  receiptContent : option Result;      (* the receipt rendered in the modal *)
  receiptModal_display : jstring;
  saveReceiptBtn_receiptId : option jstring;
  offline : Offline.State              (* the manager of offline.js and the page *)
}.

Definition set_rows (rs : list ItemRow) (p : Page) : Page :=
  {| form := {| customerName := customerName (form p);
                customerPIN := customerPIN (form p);
                paymentMethod := paymentMethod (form p);
                rows := rs |};
     generateReceiptBtn := generateReceiptBtn p;
     receiptContent := receiptContent p;
     receiptModal_display := receiptModal_display p;
     saveReceiptBtn_receiptId := saveReceiptBtn_receiptId p;
     offline := offline p |}.

Definition set_button (b : Button) (p : Page) : Page :=
  {| form := form p;
     generateReceiptBtn := b;
     receiptContent := receiptContent p;
     receiptModal_display := receiptModal_display p;
     saveReceiptBtn_receiptId := saveReceiptBtn_receiptId p;
     offline := offline p |}.

Definition page_emit (e : effect) (p : Page) : Page :=
  {| form := form p;
     generateReceiptBtn := generateReceiptBtn p;
     receiptContent := receiptContent p;
     receiptModal_display := receiptModal_display p;
     saveReceiptBtn_receiptId := saveReceiptBtn_receiptId p;
     offline := Offline.with_world (emit e) (offline p) |}.

Definition showReceipt (r : Result) (p : Page) : Page :=
  {| form := form p;
     generateReceiptBtn := generateReceiptBtn p;
     receiptContent := Some r;
     receiptModal_display := js "flex";
     saveReceiptBtn_receiptId := Some (receipt_id r);
     offline := offline p |}.

(** [value || 'Walk-in Customer'] *)
Definition or_default (value fallback : jstring) : jstring :=
  if is_empty value then fallback else value.

Definition receiptData (f : Form) (v : Validation) : ReceiptData :=
  {| customer_name := or_default (customerName f) (js "Walk-in Customer");
     customer_pin := customerPIN f;
     payment_method := paymentMethod f;
     items := valid_items v |}.

(** 8805 is the greater-than-or-equal sign. *)
Definition validation_message : jstring :=
  js "Please fill in all item fields correctly. Product name, quantity (>0), and price ("
  ++ 8805 :: js "0) are required.".

Definition loading_button : Button :=
  {| label := js "<i class=" ++ 34 :: js "fas fa-spinner fa-spin" ++ 34
                 :: js "></i> Generating...";
     disabled := true |}.

Definition idle_button : Button :=
  {| label := js "Generate ETR Receipt"; disabled := false |}.

Definition error_prefix : jstring := js "Error generating receipt: ".

Definition submit (body : jstring) (res : submit_result) (p : Page) : Page :=
  let p1 := page_emit (Fetch (js "/create-receipt") body) p in
  match res with
  | Succeeded r => showReceipt r p1
  | Refused error => page_emit (Alert (error_prefix ++ error)) p1
  | Failed message => page_emit (Alert (error_prefix ++ message)) p1
  end.

(** [generateReceipt], with the end of its request given. *)
Definition generateReceipt (res : submit_result) (p : Page) : Page :=
  let '(validation, rs) := validateForm (rows (form p)) in
  let p1 := set_rows rs p in
  if negb (valid validation) || (length (valid_items validation) =? 0)%nat then
    page_emit (Alert validation_message) p1
  else
    let data := receiptData (form p1) validation in
    let p2 := set_button loading_button p1 in
    let p3 := submit (stringify (receipt_json data)) res p2 in
    set_button idle_button p3.

End CreateReceipt.

(** ** src/unnamed/part_000: an earlier receipt script and the dashboard *)

Module Part000.

Import CreateReceipt.

(** The validation written inside [generateReceipt]: the same test and the
    same items, and the rows are not touched. *)
Definition validate_inline (rs : list ItemRow) : Validation :=
  {| valid := forallb (fun r => negb (row_invalid r)) rs;
     valid_items := collect_items rs |}.

(** [generateReceipt] of part_000; [res] is how the request of this script
    ends.  Its [showReceipt] is another function than the one of
    create_receipt.js (it adds up the totals from [result.items] and writes
    a fixed header), so one response may end the two scripts differently;
    after [Succeeded r] the modal holds the receipt as this script lays it
    out. *)
Definition generateReceipt (res : submit_result) (p : Page) : Page :=
  let validation := validate_inline (rows (form p)) in
  if negb (valid validation) || (length (valid_items validation) =? 0)%nat then
    page_emit (Alert (js "Please fill in all item fields correctly.")) p
  else
    submit (stringify (receipt_json (receiptData (form p) validation))) res p.

(** *** LiveDashboard *)

(** A child node of [#liveActivity]: an element, or a node that is not one
    (text, a comment), which [children] does not count. *)
Inductive node : Type :=
  | ElementNode (e : Element)
  | OtherNode (data : jstring).

Definition is_element (n : node) : bool :=
  match n with ElementNode _ => true | OtherNode _ => false end.

(** [container.children] *)
Definition children (childNodes : list node) : list node :=
  filter (fun n => is_element n = true) childNodes.

Record Receipt : Type := { receipt_number : jstring; total_amount : number }.

Section LiveDashboard.
(** [Number.prototype.toLocaleString], which depends on the locale. *)
Variable toLocaleString : number -> jstring.

Definition activityItem (time : jstring) (receipt : Receipt) : Element :=
  {| className := js "activity-item";
     innerHTML :=
       10 :: replicate 12 32 ++ js "<span class=" ++ 34 :: js "activity-time" ++ 34
       :: js ">" ++ time ++ js "</span>"
       ++ 10 :: replicate 12 32 ++ js "<span class=" ++ 34 :: js "activity-desc" ++ 34
       :: js ">New receipt " ++ receipt_number receipt ++ js " - KSh "
       ++ toLocaleString (total_amount receipt) ++ js "</span>"
       ++ 10 :: replicate 8 32 |}.

(** [addLiveActivity] on the child nodes of the container; [time] is
    [new Date().toLocaleTimeString()]. *)
Definition addLiveActivity (time : jstring) (receipt : Receipt)
    (childNodes : list node) : list node :=
  let inserted := ElementNode (activityItem time receipt) :: childNodes in
  if (10 <? length (children inserted))%nat
  then removelast inserted
  else inserted.
End LiveDashboard.

(** The container after a sequence of [new_receipt] events, each with the
    time at which it arrives. *)
Definition feed (toLocaleString : number -> jstring) (events : list (jstring * Receipt))
    (childNodes : list node) : list node :=
  fold_left (fun ns ev => addLiveActivity toLocaleString (fst ev) (snd ev) ns)
    events childNodes.

End Part000.

(** ** Vocabulary of the specification *)

Module ParseSpec.

(** Digit values. *)
Definition all_digits (ds : list N) : Prop := Forall (fun d => d < 10) ds.

(** What may follow a number: not a digit. *)
Definition no_digit_ahead (rest : jstring) : Prop :=
  match rest with
  | c :: _ => is_digit c = false
  | [] => True
  end.

(** What may follow a number literal. *)
Definition number_end (rest : jstring) : Prop :=
  match rest with
  | c :: _ => is_digit c = false /\ c <> 46 /\ c <> 101 /\ c <> 69
  | [] => True
  end.

(** What may follow a value inside a text: a comma, a closing bracket or
    brace, or the end. *)
Definition value_end (rest : jstring) : Prop :=
  match rest with
  | c :: _ => c = 44 \/ c = 93 \/ c = 125
  | [] => True
  end.

(** The first code unit of a value: not white space, and none of the
    closing brackets. *)
Definition value_start (c : N) : Prop :=
  is_ws c = false /\ c <> 93 /\ c <> 125.

(** The text of one member of an object. *)
Definition member_text (m : jstring * json) : jstring :=
  quote (fst m) ++ 58 :: stringify (snd m).

(** [fuel] is enough to read [v] back, whatever follows it. *)
Definition reads_back (fuel : nat) (v : json) : Prop :=
  forall rest, value_end rest ->
    parse_value fuel (stringify v ++ rest) = Some (v, rest).

(** The value with [null] in the place of every number that is not finite,
    which is how [JSON.stringify] writes it. *)
Fixpoint nullify (v : json) : json :=
  match v with
  | JNum x => if isFinite x then v else JNull
  | JArr xs => JArr (map nullify xs)
  | JObj ms => JObj (map (fun m => (fst m, nullify (snd m))) ms)
  | _ => v
  end.

End ParseSpec.

Module QueueSpec.
Import Offline.

(** The request ended with a response whose [ok] flag is set. *)
Definition succeeded (r : fetch_result) : bool :=
  match r with Response true => true | _ => false end.

(** The entries of [q] whose request did not succeed, in order; the request
    for the first entry of [q] is the [i]-th of the pass. *)
Fixpoint unsynced (q : list entry) (i : nat) (net : nat -> fetch_result) : list entry :=
  match q with
  | [] => []
  | e :: r =>
      if succeeded (net i) then unsynced r (S i) net else e :: unsynced r (S i) net
  end.

(** No two entries of the queue are [===]. *)
Fixpoint distinct (q : list entry) : bool :=
  match q with
  | [] => true
  | e :: r =>
      forallb (fun x => negb (strict_eq x e) && negb (strict_eq e x)) r && distinct r
  end.

(** Every entry is plain JSON data. *)
Definition plain_queue (q : list entry) : bool :=
  forallb (fun e => plain (payload e)) q.

(** The persisted queue, as the next page load would read it, is [q]. *)
Definition persisted (w : World) (q : list entry) : Prop :=
  load w = Some (JArr (payloads q)).

Definition is_sync_call (e : effect) : bool :=
  match e with SyncCall => true | _ => false end.

Definition is_fetch (e : effect) : bool :=
  match e with Fetch _ _ => true | _ => false end.

Definition is_online_event (ev : window_event) : bool :=
  match ev with Online _ => true | Offline => false end.

(** How often [syncPendingReceipts] was called, and how many requests were
    made, according to the trace. *)
Definition sync_calls (w : World) : nat := length (List.filter is_sync_call (trace w)).
Definition requests (w : World) : nat := length (List.filter is_fetch (trace w)).

(** The state after the first [k] entries of a drain pass were attempted. *)
Definition after_attempts (k : nat) (net : nat -> fetch_result) (st : State) : State :=
  sync_loop (take k (pendingReceipts (manager st))) 0 net (with_world (emit SyncCall) st).

(** The invariant of the drain: the persisted queue is the queue in memory. *)
Definition in_sync (st : State) : Prop :=
  plain_queue (pendingReceipts (manager st)) = true
  /\ persisted (world st) (pendingReceipts (manager st)).

(** What may happen to the manager, one thing at a time and in any order:
    a request of some drain pass ends, a receipt is enqueued, [window]
    fires an event. *)
Inductive action : Type :=
| Attempt (receipt : entry) (res : fetch_result)
| Enqueue (receiptData : entry)
| Fire (ev : window_event).

Definition enqueues_plain (a : action) : bool :=
  match a with Enqueue r => plain (payload r) | _ => true end.

Definition perform (a : action) (st : State) : State :=
  match a with
  | Attempt receipt res => sync_step receipt res st
  | Enqueue r => storeReceiptOffline r st
  | Fire ev => dispatch ev st
  end.

(** A sequence of enqueue calls. *)
Definition enqueue_all (rs : list entry) (st : State) : State :=
  fold_left (fun s r => storeReceiptOffline r s) rs st.

End QueueSpec.

Module FormSpec.
Import CreateReceipt.

(** A row with a non-empty trimmed name, a numeric quantity above zero and
    a numeric price of zero or more. *)
Definition row_ok (r : ItemRow) : Prop :=
  trim (name_value r) <> []
  /\ isNaN (parseFloat (quantity_value r)) = false
  /\ gt0 (parseFloat (quantity_value r)) = true
  /\ isNaN (parseFloat (price_value r)) = false
  /\ ge0 (parseFloat (price_value r)) = true.

(** Every row is valid and there is at least one. *)
Definition form_ok (f : Form) : Prop := Forall row_ok (rows f) /\ rows f <> [].

(** What the user entered: the values of the fields, without the borders. *)
Definition row_values (r : ItemRow) : jstring * jstring * jstring :=
  (name_value r, quantity_value r, price_value r).

Definition field_values (f : Form)
  : jstring * jstring * jstring * list (jstring * jstring * jstring) :=
  (customerName f, customerPIN f, paymentMethod f, map row_values (rows f)).

(** What follows the request in the trace, by how the request ends. *)
Definition response_effects (res : submit_result) : list effect :=
  match res with
  | Succeeded _ => []
  | Refused error => [Alert (error_prefix ++ error)]
  | Failed message => [Alert (error_prefix ++ message)]
  end.

Definition page_trace (p : Page) : list effect := trace (Offline.world (offline p)).

Definition page_requests (p : Page) : nat := QueueSpec.requests (Offline.world (offline p)).

(** The page after validation has coloured the borders. *)
Definition highlighted (p : Page) : Page := set_rows (map highlight (rows (form p))) p.

(** The payload that a valid form yields. *)
Definition payload_of (f : Form) : ReceiptData :=
  {| customer_name :=
       match customerName f with [] => js "Walk-in Customer" | n => n end;
     customer_pin := customerPIN f;
     payment_method := paymentMethod f;
     items := map item_of_row (rows f) |}.

End FormSpec.

(** ** Sample data for the examples *)

Module Samples.
Import Offline CreateReceipt.

Definition row (n q p : string) : ItemRow :=
  {| name_value := js n; quantity_value := js q; price_value := js p;
     name_border := []; quantity_border := []; price_border := [] |}.

(** A page with a manager that has nothing queued, and the given rows. *)
Definition page_with (rs : list ItemRow) : Page :=
  {| form := {| customerName := []; customerPIN := js "P051234567M";
                paymentMethod := js "Cash"; rows := rs |};
     generateReceiptBtn := idle_button;
     receiptContent := None;
     receiptModal_display := js "none";
     saveReceiptBtn_receiptId := None;
     offline := {| manager := {| isOnline := true; pendingReceipts := [] |};
                   world := {| localStorage := ∅; bodyClasses := ∅;
                               bodyChildren := []; trace := [] |} |} |}.

Definition tea : Item :=
  {| name := js "Tea"; quantity := Finite false [2] 1; price := Finite false [1; 2; 5] 2 |}.

(** A receipt for two teas at 12.5, as [generateReceipt] builds it. *)
Definition receipt_for (customer : string) : json :=
  receipt_json {| customer_name := js customer; customer_pin := [];
                  payment_method := js "Cash"; items := [tea] |}.

Definition A : entry := {| ref := 1; payload := receipt_for "Ann" |}.
Definition B : entry := {| ref := 2; payload := receipt_for "Bob" |}.
Definition C : entry := {| ref := 3; payload := receipt_for "Cyd" |}.

Definition empty_world : World :=
  {| localStorage := ∅; bodyClasses := ∅; bodyChildren := []; trace := [] |}.

(** A manager with an empty queue on a page with nothing stored. *)
Definition fresh : State :=
  {| manager := {| isOnline := false; pendingReceipts := [] |}; world := empty_world |}.

(** A page where something that is not JSON is stored under the key. *)
Definition corrupt_world : World :=
  setItem KEY (js "{not json") empty_world.

(** Only the first request succeeds; only the second fails. *)
Definition first_succeeds (i : nat) : fetch_result :=
  match i with O => Response true | _ => Rejected (js "Failed to fetch") end.

Definition second_fails (i : nat) : fetch_result :=
  match i with 1%nat => Rejected (js "Failed to fetch") | _ => Response true end.

(** [A, B, C] stored and in memory. *)
Definition three_queued : State := QueueSpec.enqueue_all [A; B; C] fresh.

(** A form whose only row has no name. *)
Definition nameless : Page := page_with [row EmptyString "1" "10"].

(** One valid row: two teas at 12.5. *)
Definition one_tea : Page := page_with [row " Tea " "2" "12.5"].

End Samples.

(** ** static/js/create_receipt.js: the rows of the form and its buttons *)

Module Editing.
Import CreateReceipt.

(** An [.item-row] element: its inputs and the text of its [.item-total]. *)
Record RowElement : Type := { inputs : ItemRow; item_total : jstring }.

(** A child node of [#itemsContainer]: an item row, or a node that is not
    an element (the white space of the template), which [children] does not
    count.  The item rows of the document are taken to be the element
    children of this container, which is where [addItemRow] puts them. *)
Inductive item_node : Type :=
  | RowNode (r : RowElement)
  | TextNode (data : jstring).

Definition row_of (n : item_node) : option RowElement :=
  match n with RowNode r => Some r | TextNode _ => None end.

(** [itemsContainer.children], which is also
    [document.querySelectorAll('.item-row')] *)
Definition row_elements (childNodes : list item_node) : list RowElement :=
  omap row_of childNodes.

(** The fields of the form, the child nodes of [#itemsContainer], and the
    text of [#subtotal], [#vatAmount] and [#totalAmount]. *)
Record Editor : Type := {
  customerName_value : jstring;
  customerPIN_value : jstring;
  paymentMethod_value : jstring;
  itemNodes : list item_node;
  subtotal : jstring;
  vatAmount : jstring;
  totalAmount : jstring
}.

(** The form as [generateReceipt] reads it. *)
Definition form_of (e : Editor) : Form :=
  {| customerName := customerName_value e;
     customerPIN := customerPIN_value e;
     paymentMethod := paymentMethod_value e;
     rows := map inputs (row_elements (itemNodes e)) |}.

Definition set_nodes (ns : list item_node) (e : Editor) : Editor :=
  {| customerName_value := customerName_value e;
     customerPIN_value := customerPIN_value e;
     paymentMethod_value := paymentMethod_value e;
     itemNodes := ns;
     subtotal := subtotal e;
     vatAmount := vatAmount e;
     totalAmount := totalAmount e |}.

(** The row that the template literal of [addItemRow] describes: no name,
    quantity 1, no price. *)
Definition new_row : RowElement :=
  {| inputs := {| name_value := []; quantity_value := js "1"; price_value := [];
                  name_border := []; quantity_border := []; price_border := [] |};
     item_total := js "KSh 0.00" |}.

Definition addItemRow (e : Editor) : Editor :=
  set_nodes (itemNodes e ++ [RowNode new_row]) e.

Definition on_row (f : RowElement -> RowElement) (n : item_node) : item_node :=
  match n with RowNode r => RowNode (f r) | TextNode _ => n end.

Inductive field : Type := NameField | QuantityField | PriceField.

Definition set_value (f : field) (v : jstring) (r : RowElement) : RowElement :=
  {| inputs :=
       {| name_value := match f with NameField => v | _ => name_value (inputs r) end;
          quantity_value :=
            match f with QuantityField => v | _ => quantity_value (inputs r) end;
          price_value := match f with PriceField => v | _ => price_value (inputs r) end;
          name_border := name_border (inputs r);
          quantity_border := quantity_border (inputs r);
          price_border := price_border (inputs r) |};
     item_total := item_total r |}.

(** What [clearForm] writes into the first row: the values and the total,
    not the border colours. *)
Definition clear_row (r : RowElement) : RowElement :=
  {| inputs := {| name_value := []; quantity_value := js "1"; price_value := [];
                  name_border := name_border (inputs r);
                  quantity_border := quantity_border (inputs r);
                  price_border := price_border (inputs r) |};
     item_total := js "KSh 0.00" |}.

(** [f] applied to [firstElementChild]; [None] when there is no element. *)
Fixpoint on_first_row (f : RowElement -> RowElement) (ns : list item_node)
  : option (list item_node) :=
  match ns with
  | [] => None
  | RowNode r :: rest => Some (RowNode (f r) :: rest)
  | n :: rest => option_map (cons n) (on_first_row f rest)
  end.

(** [while (itemsContainer.children.length > 1) itemsContainer.lastChild.remove()];
    every turn removes a node, so as many turns as there are nodes are
    enough. *)
Fixpoint keep_one (turns : nat) (ns : list item_node) : list item_node :=
  match turns with
  | O => ns
  | S turns' =>
      if (1 <? length (row_elements ns))%nat
      then keep_one turns' (removelast ns)
      else ns
  end.

Section Totals.
(** The product and the sum of two numbers in binary64, and
    [Number.prototype.toLocaleString]. *)
Variables mul add : number -> number -> number.
Variable toLocaleString : number -> jstring.

(** [x || 0] *)
Definition or_zero (x : number) : number :=
  match x with
  | NaN => zero
  | Finite _ [] _ => zero
  | _ => x
  end.

(** [quantity * price] of a row, each read with [parseFloat(...) || 0]. *)
Definition line_total (r : ItemRow) : number :=
  mul (or_zero (parseFloat (quantity_value r))) (or_zero (parseFloat (price_value r))).

Definition ksh (x : number) : jstring := js "KSh " ++ toLocaleString x.

(** [updateItemTotal], for an input of the row at index [i]. *)
Definition updateItemTotal (i : nat) (e : Editor) : Editor :=
  set_nodes
    (alter (on_row (fun r => {| inputs := inputs r;
                                item_total := ksh (line_total (inputs r)) |}))
           i (itemNodes e))
    e.

Definition updateTotals (e : Editor) : Editor :=
  let subtotal :=
    fold_left (fun acc r => add acc (line_total (inputs r)))
              (row_elements (itemNodes e)) zero in
  let vatAmount := mul subtotal (Finite false [1; 6] 0) in
  let totalAmount := add subtotal vatAmount in
  {| customerName_value := customerName_value e;
     customerPIN_value := customerPIN_value e;
     paymentMethod_value := paymentMethod_value e;
     itemNodes := itemNodes e;
     subtotal := ksh subtotal;
     vatAmount := ksh vatAmount;
     totalAmount := ksh totalAmount |}.

(** The user edits a field of the row at index [i]: the value changes and
    the two [input] listeners run, [updateItemTotal] first. *)
Definition input (i : nat) (f : field) (v : jstring) (e : Editor) : Editor :=
  updateTotals
    (updateItemTotal i (set_nodes (alter (on_row (set_value f v)) i (itemNodes e)) e)).

(** The click listener of the remove button of the row at index [i]; where
    there is no row there is no button. *)
Definition removeItem (i : nat) (e : Editor) : Editor :=
  match itemNodes e !! i with
  | Some (RowNode _) =>
      if (1 <? length (row_elements (itemNodes e)))%nat
      then updateTotals (set_nodes (delete i (itemNodes e)) e)
      else e
  | _ => e
  end.

(** [clearForm] of part_000, which is also what [clearForm] of
    create_receipt.js does once the user has confirmed: the editor as it
    leaves it, and the [TypeError] it throws on [firstRow.querySelector]
    when the container has no element.  The select is taken to have the
    option [Cash]. *)
Definition clear (e : Editor) : Editor * option exn :=
  let e1 :=
    {| customerName_value := [];
       customerPIN_value := [];
       paymentMethod_value := js "Cash";
       itemNodes := keep_one (length (itemNodes e)) (itemNodes e);
       subtotal := subtotal e;
       vatAmount := vatAmount e;
       totalAmount := totalAmount e |} in
  match on_first_row clear_row (itemNodes e1) with
  | None => (e1, Some TypeError)
  | Some ns => (updateTotals (set_nodes ns e1), None)
  end.

(** [clearForm] of create_receipt.js; [confirmed] is what [confirm]
    returns. *)
Definition clearForm (confirmed : bool) (e : Editor) : Editor * option exn :=
  if confirmed then clear e else (e, None).

(** What the user can do to the rows. *)
Inductive ui_action : Type :=
  | ClickAdd
  | ClickRemove (i : nat)
  | ClickClear (confirmed : bool)
  | Edit (i : nat) (f : field) (v : jstring).

Definition ui_step (a : ui_action) (e : Editor) : Editor * option exn :=
  match a with
  | ClickAdd => (addItemRow e, None)
  | ClickRemove i => (removeItem i e, None)
  | ClickClear confirmed => clearForm confirmed e
  | Edit i f v => (input i f v e, None)
  end.

(** An exception ends the listener that threw it and nothing else. *)
Definition ui_run (acts : list ui_action) (e : Editor) : Editor :=
  fold_left (fun s a => fst (ui_step a s)) acts e.

End Totals.

(** The click listener of [#saveReceiptBtn]: the address the page goes to,
    if it goes anywhere. *)
Definition saveReceipt (p : Page) : option jstring :=
  match saveReceiptBtn_receiptId p with
  | Some (c :: s) => Some (js "/receipt/" ++ c :: s)
  | _ => None
  end.

(** The click listener of [#closeReceiptBtn]. *)
Definition closeReceipt (p : Page) : Page :=
  {| form := form p;
     generateReceiptBtn := generateReceiptBtn p;
     receiptContent := receiptContent p;
     receiptModal_display := js "none";
     saveReceiptBtn_receiptId := saveReceiptBtn_receiptId p;
     offline := offline p |}.

End Editing.

(** ** Vocabulary for the properties of the drain and of the page *)

Module DrainSpec.
Import Offline QueueSpec.

(** The entries of [q] whose request succeeded, in order; the request for
    the first entry of [q] is the [i]-th of the pass. *)
Fixpoint synced (q : list entry) (i : nat) (net : nat -> fetch_result) : list entry :=
  match q with
  | [] => []
  | e :: r =>
      if succeeded (net i) then e :: synced r (S i) net else synced r (S i) net
  end.

(** [r] is [===] to none of [es]. *)
Definition none_of (es : list entry) (r : entry) : bool :=
  forallb (fun e => negb (strict_eq r e)) es.

Definition request_of (e : entry) : effect :=
  Fetch (js "/create-receipt") (stringify (payload e)).

(** What the request for [e] adds to the trace when it ends as [res]. *)
Definition attempt_effects (e : entry) (res : fetch_result) : list effect :=
  request_of e
  :: match res with
     | Rejected _ => [ConsoleError (js "Failed to sync receipt:")]
     | Response _ => []
     end.

Fixpoint drain_effects (q : list entry) (i : nat) (net : nat -> fetch_result)
  : list effect :=
  match q with
  | [] => []
  | e :: r => attempt_effects e (net i) ++ drain_effects r (S i) net
  end.

(** The actions that show the offline indicator. *)
Definition notifies (a : action) : bool :=
  match a with
  | Enqueue _ => true
  | Fire Offline => true
  | _ => false
  end.

(** The last event of [window] among the actions, if there is one. *)
Definition last_event (acts : list action) : option window_event :=
  fold_left (fun last a => match a with Fire ev => Some ev | _ => last end) acts None.

Definition perform_all (acts : list action) (st : State) : State :=
  fold_left (fun s a => perform a s) acts st.

End DrainSpec.

Module PageSpec.
Import CreateReceipt.

(** A border of the row is red. *)
Definition has_red (r : ItemRow) : bool :=
  bool_decide (name_border r = js "red")
  || bool_decide (quantity_border r = js "red")
  || bool_decide (price_border r = js "red").

Definition shows_receipt (res : submit_result) : option Result :=
  match res with Succeeded r => Some r | _ => None end.

(** The quantity and the price of the row read as finite numbers. *)
Definition finite_row (r : ItemRow) : Prop :=
  isFinite (parseFloat (quantity_value r)) = true
  /\ isFinite (parseFloat (price_value r)) = true.

End PageSpec.

Module FeedSpec.
Import Part000.

(** The item that [addLiveActivity] builds for an event. *)
Definition shown (toLocaleString : number -> jstring) (ev : jstring * Receipt) : node :=
  ElementNode (activityItem toLocaleString (fst ev) (snd ev)).

End FeedSpec.

(** ** More sample data *)

Module MoreSamples.
Import Offline CreateReceipt Editing Samples.

(** Every request fails; every request succeeds. *)
Definition all_fail (i : nat) : fetch_result := Rejected (js "Failed to fetch").
Definition all_succeed (i : nat) : fetch_result := Response true.

(** The editor of the template: white space around one empty row. *)
Definition template : Editor :=
  {| customerName_value := [];
     customerPIN_value := [];
     paymentMethod_value := js "Cash";
     itemNodes := [TextNode (js " "); RowNode new_row; TextNode (js " ")];
     subtotal := js "KSh 0";
     vatAmount := js "KSh 0";
     totalAmount := js "KSh 0" |}.

(** Arithmetic and formatting that the examples do not look at. *)
Definition no_arith (x y : number) : number := NaN.
Definition no_format (x : number) : jstring := [].

(** A page whose form is the one of the editor, with nothing queued. *)
Definition page_of (e : Editor) : Page :=
  {| form := form_of e;
     generateReceiptBtn := idle_button;
     receiptContent := None;
     receiptModal_display := js "none";
     saveReceiptBtn_receiptId := None;
     offline := fresh |}.

(** Sum and product where an operand is zero, which is all the examples
    need; elsewhere they stand for nothing. *)
Definition is_zero (x : number) : bool :=
  match x with Finite _ [] _ => true | _ => false end.

Definition zero_add (x y : number) : number :=
  if is_zero y then x else if is_zero x then y else NaN.

Definition zero_mul (x y : number) : number :=
  if isFinite x && isFinite y && (is_zero x || is_zero y) then zero else NaN.

(** A form whose quantity overflows binary64, and its receipt as an object
    of its own. *)
Definition overflow_page : Page := page_with [row "Tea" "1e400" "12.5"].

Definition overflowing : entry :=
  {| ref := 4; payload := receipt_json (FormSpec.payload_of (form overflow_page)) |}.

(** Three receipts arriving at the dashboard, oldest first. *)
Definition arrivals : list (jstring * Part000.Receipt) :=
  [(js "10:01", {| Part000.receipt_number := js "R-1";
                   Part000.total_amount := Finite false [5] 1 |});
   (js "10:02", {| Part000.receipt_number := js "R-2";
                   Part000.total_amount := Finite false [7] 1 |});
   (js "10:03", {| Part000.receipt_number := js "R-3";
                   Part000.total_amount := Finite false [9] 1 |})].

(** A response that has [success], with the receipt id 17. *)
Definition receipt_17 : Result := {| receipt_id := js "17"; result_body := JNull |}.

End MoreSamples.


(** * The platform model on known values *)

Module ModelExamples.

Example toString_integer : Num.toString (Finite false [1; 2; 3] 21) = js "123000000000000000000".
Proof. reflexivity. Qed.

Example toString_large : Num.toString (Finite false [1] 22) = js "1e+21".
Proof. reflexivity. Qed.

Example toString_fraction : Num.toString (Finite true [1; 2; 5] 2) = js "-12.5".
Proof. reflexivity. Qed.

Example toString_small : Num.toString (Finite false [1] (-5)) = js "0.000001".
Proof. reflexivity. Qed.

Example toString_smaller : Num.toString (Finite false [1; 5] (-6)) = js "1.5e-7".
Proof. reflexivity. Qed.

Example parse_numbers :
  JSON.parse (js " [1, 2.50, -0.001e2, 1E21, -0] ")
  = Some (JArr [JNum (Finite false [1] 1); JNum (Finite false [2; 5] 1);
                JNum (Finite true [1] 0); JNum (Finite false [1] 22); JNum zero]).
Proof. reflexivity. Qed.

Example stringify_numbers :
  stringify (JArr [JNum (Finite false [1] 1); JNum (Finite false [2; 5] 1);
                   JNum (Finite true [1] 0); JNum (Finite false [1] 22); JNum zero;
                   JNum NaN; JNum (Infinity false)])
  = js "[1,2.5,-0.1,1e+21,0,null,null]".
Proof. reflexivity. Qed.

(** A string literal with the escapes for a line feed and for the letter A. *)
Example parse_string :
  JSON.parse (34 :: js "a\nA" ++ [34]) = Some (JStr [97; 10; 65]).
Proof. reflexivity. Qed.

(** A line feed, a double quote and the control character 31, quoted. *)
Example stringify_string :
  stringify (JStr [97; 10; 34; 31]) = 34 :: js "a\n\" ++ 34 :: js "\u001f" ++ [34].
Proof. reflexivity. Qed.

Example parse_object :
  JSON.parse (js "{ " ++ 34 :: js "k" ++ 34 :: js " : [true, null, {}] }")
  = Some (JObj [(js "k", JArr [JBool true; JNull; JObj []])]).
Proof. reflexivity. Qed.

Example parse_rejects :
  map JSON.parse [[]; js "{not json"; js "01"; js "1."; js "[1,]"; js "[1 2]";
                  js "nul"; js "-"; js "+1"; js "[1]]"; js "{1:2}"]
  = replicate 11 None.
Proof. reflexivity. Qed.

Example parseFloat_values :
  map parseFloat [js "3"; js "  3.5abc"; js ".5"; js "5."; js "1e3"; js "1e"; js "-0";
                  js "-Infinity"; js "+7"]
  = [Finite false [3] 1; Finite false [3; 5] 1; Finite false [5] 0; Finite false [5] 1;
     Finite false [1] 4; Finite false [1] 1; zero; Infinity true; Finite false [7] 1].
Proof. reflexivity. Qed.

Example parseFloat_NaN :
  map parseFloat [[]; js "abc"; js "-"; js "."; js "e5"; js "infinity"]
  = replicate 6 NaN.
Proof. reflexivity. Qed.

Example trim_spaces : trim (js "  a b   ") = js "a b".
Proof. reflexivity. Qed.

(** Numerals are rounded to binary64: to the nearest value, to the even one
    halfway between two, to infinity beyond the largest and to zero below
    half the smallest. *)
Example parseFloat_rounds :
  parseFloat (js "9007199254740993")
  = Finite false [9; 0; 0; 7; 1; 9; 9; 2; 5; 4; 7; 4; 0; 9; 9; 2] 16
  /\ parseFloat (js "0.1234567890123456789")
     = Finite false [1; 2; 3; 4; 5; 6; 7; 8; 9; 0; 1; 2; 3; 4; 5; 6; 8] 0
  /\ parseFloat (js "0.1") = Finite false [1] 0
  /\ parseFloat (js "1e23") = Finite false [1] 24
  /\ parseFloat (js "1.7976931348623158e308")
     = Finite false [1; 7; 9; 7; 6; 9; 3; 1; 3; 4; 8; 6; 2; 3; 1; 5; 7] 309
  /\ parseFloat (js "1.7976931348623159e308") = Infinity false
  /\ parseFloat (js "1e400") = Infinity false
  /\ parseFloat (js "-1e400") = Infinity true
  /\ parseFloat (js "5e-324") = Finite false [5] (-323)
  /\ parseFloat (js "2e-324") = zero
  /\ parseFloat (js "1e-400") = zero
  /\ parseFloat (js "-1e-400") = zero.
Proof. vm_compute. repeat split. Qed.

Example parse_rounds :
  JSON.parse (js "[1e400, 9007199254740993, 1e-400, 0.1]")
  = Some (JArr [JNum (Infinity false);
                JNum (Finite false [9; 0; 0; 7; 1; 9; 9; 2; 5; 4; 7; 4; 0; 9; 9; 2] 16);
                JNum zero; JNum (Finite false [1] 0)])
  /\ stringify (JArr [JNum (Infinity false);
                      JNum (Finite false [9; 0; 0; 7; 1; 9; 9; 2; 5; 4; 7; 4; 0; 9; 9; 2] 16);
                      JNum zero; JNum (Finite false [1] 0)])
     = js "[null,9007199254740992,0,0.1]".
Proof. vm_compute. split; reflexivity. Qed.

(** A decimal that is no binary64 value is not a Number. *)
Example is_double_values :
  is_double (Finite false [1] 0) = true
  /\ is_double (Finite false [1; 2; 5] 2) = true
  /\ is_double (Finite false [9; 0; 0; 7; 1; 9; 9; 2; 5; 4; 7; 4; 0; 9; 9; 3] 16) = false.
Proof. vm_compute. repeat split. Qed.

(** The keys of a parsed object: array indices first, in ascending order,
    then the others as they came; a key given twice keeps its place and
    takes the last value. *)
Example parse_orders_keys :
  JSON.parse (js "{" ++ 34 :: js "b" ++ 34 :: js ":1," ++ 34 :: js "10" ++ 34 :: js ":2,"
              ++ 34 :: js "9" ++ 34 :: js ":3," ++ 34 :: js "b" ++ 34 :: js ":4,"
              ++ 34 :: js "01" ++ 34 :: js ":5}")
  = Some (JObj [(js "9", JNum (Finite false [3] 1)); (js "10", JNum (Finite false [2] 1));
                (js "b", JNum (Finite false [4] 1)); (js "01", JNum (Finite false [5] 1))]).
Proof. vm_compute. reflexivity. Qed.

End ModelExamples.

(** * Facts about the platform model *)

Module TextFacts.
Import ParseSpec.

(** Decide the comparisons of code units in the goal by arithmetic. *)
Ltac ncmp :=
  repeat match goal with
  | |- context [N.eqb ?a ?b] =>
      first [ rewrite (proj2 (N.eqb_eq a b)) by lia
            | rewrite (proj2 (N.eqb_neq a b)) by lia ]
  | |- context [N.leb ?a ?b] =>
      first [ rewrite (proj2 (N.leb_le a b)) by lia
            | rewrite (proj2 (N.leb_gt a b)) by lia ]
  | |- context [N.ltb ?a ?b] =>
      first [ rewrite (proj2 (N.ltb_lt a b)) by lia
            | rewrite (proj2 (N.ltb_ge a b)) by lia ]
  end.

Lemma span_digits_chars ds rest :
  all_digits ds -> no_digit_ahead rest ->
  span_digits (digit_chars ds ++ rest) = (ds, rest).
Proof.
  intros Hds Hrest. induction Hds as [|d ds Hd _ IH]; simpl.
  - destruct rest as [|c r]; simpl; [reflexivity|]. simpl in Hrest. now rewrite Hrest.
  - unfold is_digit, digit_char. ncmp. simpl.
    fold (digit_chars ds). rewrite IH. f_equal. f_equal. lia.
Qed.

Lemma span_digits_all_digits s ds r :
  span_digits s = (ds, r) -> all_digits ds.
Proof.
  revert ds r. induction s as [|c s IH]; simpl; intros ds r H.
  - inversion H. constructor.
  - destruct (is_digit c) eqn:Hc.
    + destruct (span_digits s) as [ds' r'] eqn:Hs. inversion H; subst.
      constructor; [|eapply IH; reflexivity].
      unfold is_digit in Hc. apply andb_true_iff in Hc as [H1 H2].
      apply N.leb_le in H1, H2. lia.
    + inversion H. constructor.
Qed.

Lemma all_digits_app xs ys : all_digits xs -> all_digits ys -> all_digits (xs ++ ys).
Proof. apply Forall_app_2. Qed.

Lemma all_digits_replicate n : all_digits (replicate n 0).
Proof. apply Forall_replicate. lia. Qed.

Lemma digit_chars_app xs ys : digit_chars (xs ++ ys) = digit_chars xs ++ digit_chars ys.
Proof. apply map_app. Qed.

Lemma digit_chars_zeros n : digit_chars (replicate n 0) = replicate n 48.
Proof. induction n; simpl; [reflexivity|]. f_equal. exact IHn. Qed.

Lemma digits_uint_digits u : digits_uint (uint_digits u) = u.
Proof. induction u; simpl; congruence. Qed.

Lemma uint_digits_all u : all_digits (uint_digits u).
Proof. induction u; simpl; constructor; try assumption; lia. Qed.

Lemma N_of_digits_of_N n : N_of_digits (digits_of_N n) = n.
Proof.
  unfold N_of_digits, digits_of_N. rewrite digits_uint_digits.
  apply DecimalN.Unsigned.of_to.
Qed.

Lemma digits_of_N_nonempty n : digits_of_N n <> [].
Proof.
  unfold digits_of_N. destruct n as [|p]; simpl; [discriminate|].
  pose proof (DecimalPos.Unsigned.to_uint_nonnil p) as H.
  destruct (Pos.to_uint p); simpl; congruence.
Qed.

Lemma digits_of_N_all n : all_digits (digits_of_N n).
Proof. apply uint_digits_all. Qed.

End TextFacts.

Module NumFacts.
Import ParseSpec.
Import TextFacts.

Lemma drop_zeros_head s : head_nonzero s = true -> drop_zeros s = s.
Proof.
  destruct s as [|d s]; simpl; [discriminate|].
  intros H. destruct d; [discriminate|reflexivity].
Qed.

Lemma drop_zeros_replicate a s : drop_zeros (replicate a 0 ++ s) = drop_zeros s.
Proof. induction a; simpl; auto. Qed.

Lemma drop_zeros_snoc l h : h <> 0 -> drop_zeros (l ++ [h]) = drop_zeros l ++ [h].
Proof.
  intros Hh. induction l as [|d l IH]; simpl.
  - destruct h; [congruence|reflexivity].
  - destruct d; [exact IH|reflexivity].
Qed.

Lemma rev_replicate {A} n (x : A) : rev (replicate n x) = replicate n x.
Proof.
  induction n; simpl; [reflexivity|]. rewrite IHn.
  clear IHn. induction n; simpl; [reflexivity|]. now f_equal.
Qed.

Lemma strip_trailing_zeros_app s b :
  head_nonzero (rev s) = true ->
  strip_trailing_zeros (s ++ replicate b 0) = s.
Proof.
  intros H. unfold strip_trailing_zeros.
  rewrite rev_app_distr, rev_replicate, drop_zeros_replicate.
  rewrite drop_zeros_head by exact H. apply rev_involutive.
Qed.

(** The digits of a literal, zeros around them set aside. *)
Lemma mk_number_digits neg ip fp e a s b :
  head_nonzero s = true -> head_nonzero (rev s) = true ->
  ip ++ fp = replicate a 0 ++ s ++ replicate b 0 ->
  mk_number neg ip fp e =
  Finite neg s (Z.of_nat (length s) + Z.of_nat b + e - Z.of_nat (length fp)).
Proof.
  intros Hh Hl Heq. unfold mk_number. rewrite Heq, drop_zeros_replicate.
  rewrite drop_zeros_head.
  2:{ destruct s; [discriminate|exact Hh]. }
  destruct s as [|d s]; [discriminate|].
  change ((d :: s) ++ replicate b 0) with (d :: (s ++ replicate b 0)) at 1.
  cbv iota. rewrite strip_trailing_zeros_app by exact Hl.
  f_equal. rewrite length_app, length_replicate. lia.
Qed.

Lemma forallb_all_digits s : forallb (fun d => d <? 10) s = true -> all_digits s.
Proof.
  intros H. apply List.Forall_forall. intros d Hd.
  rewrite List.forallb_forall in H. apply N.ltb_lt, H, Hd.
Qed.

Lemma all_digits_forallb s : all_digits s -> forallb (fun d => d <? 10) s = true.
Proof.
  intros H. apply List.forallb_forall. intros d Hd. apply N.ltb_lt.
  unfold all_digits in H. rewrite List.Forall_forall in H. now apply H.
Qed.

Lemma canonical_digits neg d s n :
  canonical (Finite neg (d :: s) n) = true ->
  all_digits (d :: s) /\ head_nonzero (d :: s) = true
  /\ head_nonzero (rev (d :: s)) = true.
Proof.
  unfold canonical. intros H.
  apply andb_true_iff in H as [H H3]. apply andb_true_iff in H as [H1 H2].
  split; [now apply forallb_all_digits|]. split; assumption.
Qed.

Lemma strip_trailing_zeros_cons h t :
  h <> 0 -> strip_trailing_zeros (h :: t) = h :: strip_trailing_zeros t.
Proof.
  intros Hh. unfold strip_trailing_zeros. simpl.
  rewrite drop_zeros_snoc by exact Hh. rewrite rev_app_distr. reflexivity.
Qed.

Lemma drop_zeros_all_digits s : all_digits s -> all_digits (drop_zeros s).
Proof.
  induction 1 as [|d s Hd Hs IH]; simpl; [constructor|].
  destruct d; [exact IH|]. constructor; assumption.
Qed.

Lemma drop_zeros_head_nonzero s : drop_zeros s <> [] -> head_nonzero (drop_zeros s) = true.
Proof.
  induction s as [|d s IH]; simpl; [congruence|].
  destruct d; [exact IH|]. reflexivity.
Qed.

Lemma strip_trailing_zeros_all_digits s : all_digits s -> all_digits (strip_trailing_zeros s).
Proof.
  intros H. unfold strip_trailing_zeros, all_digits.
  apply List.Forall_forall. intros x Hx. apply in_rev in Hx.
  assert (Hr : all_digits (rev s)).
  { apply List.Forall_forall. intros y Hy. apply in_rev in Hy.
    unfold all_digits in H. rewrite List.Forall_forall in H. now apply H. }
  apply drop_zeros_all_digits in Hr. unfold all_digits in Hr.
  rewrite List.Forall_forall in Hr. now apply Hr.
Qed.

(** A literal always denotes a number in canonical form. *)
Lemma mk_number_canonical neg ip fp e :
  all_digits ip -> all_digits fp -> canonical (mk_number neg ip fp e) = true.
Proof.
  intros Hi Hf. unfold mk_number.
  pose proof (drop_zeros_all_digits _ (all_digits_app _ _ Hi Hf)) as Hd.
  pose proof (drop_zeros_head_nonzero (ip ++ fp)) as Hh.
  destruct (drop_zeros (ip ++ fp)) as [|h t] eqn:E; [reflexivity|].
  specialize (Hh ltac:(discriminate)). simpl in Hh. apply negb_true_iff, N.eqb_neq in Hh.
  rewrite strip_trailing_zeros_cons by exact Hh.
  unfold canonical. apply andb_true_iff; split; [apply andb_true_iff; split|].
  - apply all_digits_forallb.
    rewrite <- strip_trailing_zeros_cons by exact Hh.
    now apply strip_trailing_zeros_all_digits.
  - simpl. now apply negb_true_iff, N.eqb_neq.
  - rewrite <- strip_trailing_zeros_cons by exact Hh.
    unfold strip_trailing_zeros. rewrite rev_involutive.
    apply drop_zeros_head_nonzero.
    simpl. rewrite drop_zeros_snoc by exact Hh.
    destruct (drop_zeros (rev t)); discriminate.
Qed.

Lemma mk_number_finite neg ip fp e : isFinite (mk_number neg ip fp e) = true.
Proof. unfold mk_number. now destruct (drop_zeros (ip ++ fp)). Qed.

Lemma number_end_no_digit rest : number_end rest -> no_digit_ahead rest.
Proof. destruct rest; simpl; tauto. Qed.

Lemma parse_exponent_part e rest :
  no_digit_ahead rest -> parse_exponent (exponent_part e ++ rest) = Some (e, rest).
Proof.
  intros Hrest. unfold exponent_part, parse_exponent.
  change ((101 :: ?x :: ?t) ++ rest) with (101 :: x :: (t ++ rest)).
  change ((101 =? 101) || (101 =? 69)) with true. cbv iota.
  pose proof (digits_of_N_nonempty (Z.abs_N e)) as Hne.
  pose proof (span_digits_chars (digits_of_N (Z.abs_N e)) rest
                (digits_of_N_all _) Hrest) as Hspan.
  destruct (Z.ltb_spec e 0) as [Hneg|Hpos]; cbv iota; rewrite Hspan;
    (destruct (digits_of_N (Z.abs_N e)) as [|d ds] eqn:E; [congruence|]);
    rewrite <- E, N_of_digits_of_N; do 2 f_equal; lia.
Qed.

Lemma parse_int_part_digits ds rest :
  all_digits ds -> head_nonzero ds = true -> no_digit_ahead rest ->
  parse_int_part (digit_chars ds ++ rest) = Some (ds, rest).
Proof.
  intros Hds Hh Hrest. pose proof (span_digits_chars ds rest Hds Hrest) as Hspan.
  destruct ds as [|d ds]; [discriminate|].
  simpl in Hh. apply negb_true_iff, N.eqb_neq in Hh.
  unfold parse_int_part.
  change (digit_chars (d :: ds) ++ rest) with (digit_char d :: (digit_chars ds ++ rest)) in *.
  unfold digit_char in *. ncmp. rewrite Hspan. reflexivity.
Qed.

Lemma parse_fraction_digits ds rest :
  all_digits ds -> ds <> [] -> no_digit_ahead rest ->
  parse_fraction (46 :: digit_chars ds ++ rest) = Some (ds, rest).
Proof.
  intros Hds Hne Hrest. unfold parse_fraction.
  change (46 =? 46) with true. cbv iota.
  rewrite (span_digits_chars ds rest Hds Hrest). destruct ds; congruence.
Qed.

Lemma parse_fraction_none rest :
  (match rest with c :: _ => c <> 46 | [] => True end) ->
  parse_fraction rest = Some ([], rest).
Proof.
  destruct rest as [|c r]; simpl; [reflexivity|]. intros H. now ncmp.
Qed.

Lemma starts_exponent_end rest : number_end rest -> starts_exponent rest = false.
Proof.
  destruct rest as [|c r]; simpl; [reflexivity|]. intros (_ & _ & H1 & H2). now ncmp.
Qed.

Lemma parse_fraction_end rest : number_end rest -> parse_fraction rest = Some ([], rest).
Proof.
  intros H. apply parse_fraction_none. destruct rest; simpl in *; tauto.
Qed.

(** *** Rounding to binary64 *)

Lemma candidate_shape neg s scale :
  candidate neg s scale = zero
  \/ exists d n, candidate neg s scale = Finite neg d n.
Proof.
  unfold candidate, mk_number.
  destruct (drop_zeros _); [now left|right; eauto].
Qed.

Lemma candidate_canonical neg s scale : canonical (candidate neg s scale) = true.
Proof.
  apply mk_number_canonical; [apply TextFacts.digits_of_N_all|constructor].
Qed.

Lemma to_double_zero : to_double zero = DZero.
Proof. reflexivity. Qed.

(** What the search returns rounds to the value it was started for. *)
Lemma try_digits_rounds neg mant expo num den n k c :
  try_digits neg mant expo num den n k = Some c ->
  to_double c = DFin mant expo /\ exists s scale, c = candidate neg s scale.
Proof.
  unfold try_digits. destruct (scale10 num den (n - k)) as [a b].
  destruct (bool_decide (to_double (candidate neg (a / b) (n - k)) = DFin mant expo)) eqn:Elo;
    destruct (bool_decide (to_double (candidate neg (a / b + 1) (n - k)) = DFin mant expo))
      eqn:Ehi;
    try discriminate;
    try apply bool_decide_eq_true_1 in Elo; try apply bool_decide_eq_true_1 in Ehi;
    intros [= <-].
  - destruct (2 * (a mod b) ?= b)%Z; [destruct (Z.even (a / b))| |]; eauto.
  - eauto.
  - eauto.
Qed.

Lemma search_digits_rounds fuel neg mant expo num den n : forall k c,
  search_digits fuel neg mant expo num den n k = c ->
  c = NaN
  \/ (to_double c = DFin mant expo /\ exists s scale, c = candidate neg s scale).
Proof.
  induction fuel as [|fuel IH]; intros k c H; [left; now rewrite <- H|].
  cbn [search_digits] in H.
  destruct (try_digits neg mant expo num den n k) as [c'|] eqn:E.
  - subst c'. right. eapply try_digits_rounds, E.
  - eapply IH, H.
Qed.

Lemma shortest_rounds neg mant expo :
  shortest neg mant expo = NaN
  \/ (to_double (shortest neg mant expo) = DFin mant expo
      /\ exists s scale, shortest neg mant expo = candidate neg s scale).
Proof.
  unfold shortest. destruct (scale2 mant 1 (- expo)) as [num den].
  now apply (search_digits_rounds 17 neg mant expo num den (decimal_point num den) 1).
Qed.

(** Rounding a second time changes nothing: what [round64] returns is a
    Number. *)
Lemma round64_idem x : round64 (round64 x) = round64 x.
Proof.
  destruct x as [|neg|neg s n]; try reflexivity.
  change (round64 (Finite neg s n))
    with (match to_double (Finite neg s n) with
          | DZero => zero
          | DInf => Infinity neg
          | DFin mant expo => shortest neg mant expo
          end).
  destruct (to_double (Finite neg s n)) as [| |mant expo].
  - reflexivity.
  - reflexivity.
  - destruct (shortest_rounds neg mant expo) as [->|(Hd & s' & scale & Hc)]; [reflexivity|].
    destruct (candidate_shape neg s' scale) as [Hz|(d & n' & Hf)].
    + rewrite Hc, Hz, to_double_zero in Hd. discriminate.
    + rewrite Hc, Hf in Hd. rewrite Hc, Hf. unfold round64. now rewrite Hd, <- Hf, <- Hc.
Qed.

Lemma round64_canonical x : canonical (round64 x) = true.
Proof.
  destruct x as [|neg|neg s n]; try reflexivity.
  change (round64 (Finite neg s n))
    with (match to_double (Finite neg s n) with
          | DZero => zero
          | DInf => Infinity neg
          | DFin mant expo => shortest neg mant expo
          end).
  destruct (to_double (Finite neg s n)) as [| |mant expo].
  - reflexivity.
  - reflexivity.
  - destruct (shortest_rounds neg mant expo) as [->|(_ & s' & scale & ->)]; [reflexivity|].
    apply candidate_canonical.
Qed.

Lemma is_double_round64 x : is_double (round64 x) = true.
Proof. unfold is_double. apply bool_decide_eq_true_2, round64_idem. Qed.

Lemma is_double_eq x : is_double x = true -> round64 x = x.
Proof. unfold is_double. apply bool_decide_eq_true_1. Qed.

End NumFacts.

Module NumberRoundTrip.
Import ParseSpec.
Import TextFacts NumFacts.

Lemma take_head_nonzero n (s : list N) :
  (0 < n)%nat -> head_nonzero s = true -> head_nonzero (take n s) = true.
Proof. destruct n; [lia|]. destruct s; simpl; auto. Qed.

Lemma all_digits_take n s : all_digits s -> all_digits (take n s).
Proof. apply Forall_take. Qed.

Lemma all_digits_drop n s : all_digits s -> all_digits (drop n s).
Proof. apply Forall_drop. Qed.

Section Digits.
Variables (neg : bool) (s : list N) (n : Z) (rest : jstring).
Hypothesis Hds : all_digits s.
Hypothesis Hh : head_nonzero s = true.
Hypothesis Hl : head_nonzero (rev s) = true.
Hypothesis Hrest : number_end rest.

(** One digit, the others after a point, and an exponent. *)
Lemma parse_unsigned_exponent_form :
  parse_unsigned neg
    (match s with
     | [d] => digit_char d :: exponent_part (n - 1)
     | d :: r => digit_char d :: 46 :: digit_chars r ++ exponent_part (n - 1)
     | [] => []
     end ++ rest) = Some (Finite neg s n, rest).
Proof.
  pose proof (number_end_no_digit _ Hrest) as Hnd.
  unfold parse_unsigned.
  destruct s as [|d [|d' s']]; [discriminate| |].
  - change ((digit_char d :: exponent_part (n - 1)) ++ rest)
      with (digit_chars [d] ++ (exponent_part (n - 1) ++ rest)).
    rewrite parse_int_part_digits; auto; [|reflexivity].
    rewrite parse_fraction_none by (simpl; lia).
    change (starts_exponent (exponent_part (n - 1) ++ rest)) with true. cbv iota.
    rewrite parse_exponent_part by assumption.
    rewrite (mk_number_digits neg _ [] _ 0 [d] 0); auto.
    do 3 f_equal; simpl; lia.
  - match goal with |- context [parse_int_part ?t] =>
      replace t
        with (digit_chars [d]
                ++ (46 :: digit_chars (d' :: s') ++ (exponent_part (n - 1) ++ rest)))
        by (simpl; now rewrite <- app_assoc)
    end.
    rewrite parse_int_part_digits; auto; try reflexivity.
    2:{ constructor; [now inversion Hds|constructor]. }
    rewrite parse_fraction_digits; try discriminate; try reflexivity.
    2:{ now inversion Hds. }
    change (starts_exponent (exponent_part (n - 1) ++ rest)) with true. cbv iota.
    rewrite parse_exponent_part by assumption.
    rewrite (mk_number_digits neg _ _ _ 0 (d :: d' :: s') 0); auto;
      try (simpl; now rewrite ?app_nil_r).
    do 3 f_equal; simpl; lia.
Qed.

(** Reading back the digits that [Number::toString] prints. *)
Lemma parse_unsigned_toString_digits :
  parse_unsigned neg (toString_digits s n ++ rest) = Some (Finite neg s n, rest).
Proof.
  pose proof (number_end_no_digit _ Hrest) as Hnd.
  pose proof (parse_fraction_end _ Hrest) as Hfrac.
  pose proof (starts_exponent_end _ Hrest) as Hexp.
  unfold toString_digits.
  destruct (Z.leb_spec (Z.of_nat (length s)) n) as [Hkn|Hkn];
    destruct (Z.leb_spec n 21) as [Hn21|Hn21]; cbn [andb].
  - (* the digits, then zeros *)
    unfold parse_unsigned.
    rewrite <- digit_chars_zeros, <- digit_chars_app.
    rewrite parse_int_part_digits; auto.
    + rewrite Hfrac, Hexp.
      rewrite (mk_number_digits neg _ [] 0 0 s (Z.to_nat (n - Z.of_nat (length s))));
        auto.
      * do 3 f_equal; simpl; lia.
      * now rewrite app_nil_r.
    + apply all_digits_app; [assumption|apply all_digits_replicate].
    + destruct s; [discriminate|exact Hh].
  - rewrite !andb_false_r. replace (n <=? 0)%Z with false by lia.
    rewrite andb_false_r. apply parse_unsigned_exponent_form.
  - destruct (Z.ltb_spec 0 n) as [H0n|H0n]; cbn [andb].
    + (* a decimal point inside the digits *)
      unfold parse_unsigned.
      rewrite <- app_assoc. simpl.
      assert (Hlen : (Z.to_nat n < length s)%nat) by lia.
      rewrite parse_int_part_digits; auto.
      * rewrite parse_fraction_digits; auto.
        -- rewrite Hexp.
           rewrite (mk_number_digits neg _ _ 0 0 s 0); auto.
           ++ do 3 f_equal; rewrite length_drop; lia.
           ++ simpl. rewrite app_nil_r. apply take_drop.
        -- now apply all_digits_drop.
        -- intros E. apply (f_equal length) in E. rewrite length_drop in E.
           simpl in E. lia.
      * now apply all_digits_take.
      * apply take_head_nonzero; [lia|assumption].
      * reflexivity.
    + replace (n <=? 0)%Z with true by lia.
      destruct (Z.ltb_spec (-6) n) as [H6|H6]; cbn [andb].
      * (* zero, a decimal point, zeros, the digits *)
        unfold parse_unsigned.
        match goal with |- context [parse_int_part ?t] =>
          replace t
            with (48 :: (46 :: digit_chars (replicate (Z.to_nat (- n)) 0 ++ s) ++ rest))
            by (rewrite digit_chars_app, digit_chars_zeros; simpl;
                now rewrite <- app_assoc)
        end.
        unfold parse_int_part. change (48 =? 48) with true. cbv iota.
        rewrite parse_fraction_digits; auto.
        -- rewrite Hexp.
           rewrite (mk_number_digits neg _ _ 0 (S (Z.to_nat (- n))) s 0); auto.
           ++ do 3 f_equal; rewrite length_app, length_replicate; lia.
           ++ simpl. now rewrite app_nil_r.
        -- apply all_digits_app; [apply all_digits_replicate|assumption].
        -- destruct s; [discriminate|]. now destruct (replicate (Z.to_nat (- n)) 0).
      * apply parse_unsigned_exponent_form.
  - rewrite !andb_false_r. replace (n <=? 0)%Z with false by lia.
    rewrite andb_false_r. apply parse_unsigned_exponent_form.
Qed.
End Digits.

(** What [Number::toString] prints of a finite number, [JSON.parse] reads
    back as that number. *)
Lemma parse_number_toString x rest :
  isFinite x = true -> canonical x = true -> number_end rest ->
  parse_number (Num.toString x ++ rest) = Some (x, rest).
Proof.
  intros Hfin Hcan Hrest. destruct x as [| |neg s n]; try discriminate.
  destruct s as [|d s].
  - simpl in Hcan. apply andb_true_iff in Hcan as [Hneg Hn].
    apply negb_true_iff in Hneg. apply Z.eqb_eq in Hn. subst.
    simpl. unfold parse_unsigned. simpl.
    rewrite (parse_fraction_end _ Hrest), (starts_exponent_end _ Hrest). reflexivity.
  - destruct (canonical_digits _ _ _ _ Hcan) as (Hds & Hh & Hl).
    unfold Num.toString.
    destruct neg.
    + change (([45] ++ toString_digits (d :: s) n) ++ rest)
        with (45 :: (toString_digits (d :: s) n ++ rest)).
      unfold parse_number. change (45 =? 45) with true. cbv iota.
      now apply parse_unsigned_toString_digits.
    + change (([] ++ toString_digits (d :: s) n) ++ rest)
        with (toString_digits (d :: s) n ++ rest).
      pose proof (parse_unsigned_toString_digits false (d :: s) n rest Hds Hh Hl Hrest) as H.
      unfold parse_number.
      destruct (toString_digits (d :: s) n ++ rest) as [|c r] eqn:E.
      * unfold parse_unsigned in H. simpl in H. discriminate.
      * destruct (N.eqb_spec c 45) as [->|Hc]; [|exact H].
        unfold parse_unsigned, parse_int_part in H. simpl in H. discriminate.
Qed.

End NumberRoundTrip.

Module StringRoundTrip.
Import ParseSpec.
Import TextFacts.

Lemma hex_value_char d : d < 16 -> hex_value (hex_char d) = Some d.
Proof.
  intros H. unfold hex_value, hex_char, is_digit.
  destruct (N.ltb_spec d 10); ncmp; simpl; f_equal; lia.
Qed.

Lemma hex4_digits c :
  c < 65536 ->
  ((c / 4096 mod 16 * 16 + c / 256 mod 16) * 16 + c / 16 mod 16) * 16 + c mod 16 = c.
Proof. intros H. zify. Z.to_euclidean_division_equations. lia. Qed.

Lemma parse_uescape c tail :
  c < 65536 ->
  parse_string_body (uescape c ++ tail) = prepend c (parse_string_body tail).
Proof.
  intros Hc. unfold uescape.
  cbn [app parse_string_body]. change (92 =? 34) with false.
  change (92 =? 92) with true. change (117 =? 117) with true. cbv iota.
  unfold hex4_value.
  rewrite !hex_value_char by (apply N.mod_lt; discriminate).
  now rewrite hex4_digits.
Qed.

Lemma short_escape_unescape c e :
  short_escape c = Some e -> (e =? 117) = false /\ unescape e = Some c.
Proof.
  unfold short_escape.
  repeat match goal with
         | |- context [c =? ?k] => destruct (N.eqb_spec c k); [subst; intros [= <-]; now split|]
         end.
  discriminate.
Qed.

Lemma short_escape_none c :
  short_escape c = None -> c <> 34 /\ c <> 92.
Proof.
  unfold short_escape.
  repeat match goal with
         | |- context [c =? ?k] => destruct (N.eqb_spec c k); [discriminate|]
         end.
  intros _. split; assumption.
Qed.

Lemma parse_raw c tail :
  c <> 34 -> c <> 92 -> 32 <= c ->
  parse_string_body (c :: tail) = prepend c (parse_string_body tail).
Proof. intros. cbn [parse_string_body]. now ncmp. Qed.

(** The body that [QuoteJSONString] writes, up to the closing quote, reads
    back as the string. *)
Lemma parse_quote_body_len n : forall s rest,
  (length s <= n)%nat ->
  parse_string_body (quote_body s ++ 34 :: rest) = Some (s, rest).
Proof.
  induction n as [|n IH]; intros s rest Hlen.
  - destruct s; [reflexivity|simpl in Hlen; lia].
  - destruct s as [|c r]; [reflexivity|].
    simpl in Hlen. cbn [quote_body].
    destruct (short_escape c) as [e|] eqn:Hse.
    + destruct (short_escape_unescape _ _ Hse) as [Hu Hun].
      cbn [app parse_string_body]. change (92 =? 34) with false.
      change (92 =? 92) with true. cbv iota. rewrite Hu, Hun.
      rewrite IH by lia. reflexivity.
    + destruct (short_escape_none _ Hse) as [H34 H92].
      destruct (N.ltb_spec c 32) as [Hlt|Hge].
      * rewrite <- app_assoc, parse_uescape by lia. rewrite IH by lia. reflexivity.
      * destruct (is_high_surrogate c) eqn:Hhi.
        -- unfold is_high_surrogate in Hhi. apply andb_true_iff in Hhi as [H1 H2].
           apply N.leb_le in H1, H2.
           destruct r as [|d r'].
           ++ rewrite parse_uescape by lia. reflexivity.
           ++ destruct (is_low_surrogate d) eqn:Hlo.
              ** unfold is_low_surrogate in Hlo. apply andb_true_iff in Hlo as [H3 H4].
                 apply N.leb_le in H3, H4.
                 change ((c :: d :: quote_body r') ++ 34 :: rest)
                   with (c :: d :: (quote_body r' ++ 34 :: rest)).
                 rewrite parse_raw by lia. rewrite parse_raw by lia.
                 simpl in Hlen. rewrite IH by lia. reflexivity.
              ** rewrite <- app_assoc, parse_uescape by lia.
                 rewrite IH by exact (le_S_n _ _ Hlen). reflexivity.
        -- destruct (is_low_surrogate c) eqn:Hlo.
           ++ unfold is_low_surrogate in Hlo. apply andb_true_iff in Hlo as [H3 H4].
              apply N.leb_le in H3, H4.
              rewrite <- app_assoc, parse_uescape by lia. rewrite IH by lia. reflexivity.
           ++ change ((c :: quote_body r) ++ 34 :: rest)
                with (c :: (quote_body r ++ 34 :: rest)).
              rewrite parse_raw by lia. rewrite IH by lia. reflexivity.
Qed.

Lemma parse_quote s rest :
  parse_string_body (quote_body s ++ 34 :: rest) = Some (s, rest).
Proof. now apply (parse_quote_body_len (length s)). Qed.

End StringRoundTrip.

Module JSONFacts.
Import ParseSpec.
Import TextFacts NumFacts NumberRoundTrip StringRoundTrip.

(** Induction on JSON data, through the lists of elements and members. *)
Lemma json_ind (P : json -> Prop) :
  P JNull ->
  (forall b, P (JBool b)) ->
  (forall x, P (JNum x)) ->
  (forall s, P (JStr s)) ->
  (forall xs, Forall P xs -> P (JArr xs)) ->
  (forall ms, Forall (fun m => P (snd m)) ms -> P (JObj ms)) ->
  forall v, P v.
Proof.
  intros Hnull Hbool Hnum Hstr Harr Hobj.
  fix IH 1. intros [| b | x | s | xs | ms].
  - exact Hnull.
  - apply Hbool.
  - apply Hnum.
  - apply Hstr.
  - apply Harr. induction xs as [|x xs IHxs]; constructor; [apply IH|exact IHxs].
  - apply Hobj. induction ms as [|[k x] ms IHms]; constructor; [apply IH|exact IHms].
Qed.

Lemma value_end_number rest : value_end rest -> number_end rest.
Proof.
  destruct rest as [|c r]; simpl; [trivial|].
  intros [-> | [-> | ->]]; repeat split; try reflexivity; discriminate.
Qed.

Lemma parse_number_start s x r :
  parse_number s = Some (x, r) ->
  exists c t, s = c :: t /\ (c = 45 \/ is_digit c = true).
Proof.
  destruct s as [|c t]; [discriminate|]. intros H. exists c, t. split; [reflexivity|].
  unfold parse_number in H. destruct (N.eqb_spec c 45) as [->|Hc]; [now left|right].
  unfold parse_unsigned, parse_int_part in H.
  destruct (N.eqb_spec c 48) as [->|Hc0]; [reflexivity|].
  cbn [span_digits] in H. destruct (is_digit c); [reflexivity|discriminate].
Qed.

Lemma digit_or_minus_dispatch c :
  c = 45 \/ is_digit c = true ->
  is_ws c = false /\ (c =? 34) = false /\ (c =? 91) = false /\ (c =? 123) = false
  /\ (c =? 116) = false /\ (c =? 102) = false /\ (c =? 110) = false
  /\ c <> 93 /\ c <> 125.
Proof.
  intros [-> | H]; [repeat split; try reflexivity; discriminate|].
  unfold is_digit in H. apply andb_true_iff in H as [H1 H2].
  apply N.leb_le in H1, H2. unfold is_ws.
  repeat split; try lia; ncmp; reflexivity.
Qed.

Lemma parse_value_number fuel s x r :
  parse_number s = Some (x, r) -> parse_value (S fuel) s = Some (JNum (round64 x), r).
Proof.
  intros H. destruct (parse_number_start _ _ _ H) as (c & t & -> & Hc).
  destruct (digit_or_minus_dispatch _ Hc) as (Hws & H1 & H2 & H3 & H4 & H5 & H6 & _).
  cbn [parse_value skip_ws]. rewrite Hws. cbv iota.
  rewrite H1, H2, H3, H4, H5, H6, H. reflexivity.
Qed.

Lemma skip_ws_start c r : is_ws c = false -> skip_ws (c :: r) = c :: r.
Proof. intros H. simpl. now rewrite H. Qed.

(** Every printed value starts with a code unit that starts a value. *)
Lemma stringify_start v :
  plain v = true -> exists c t, stringify v = c :: t /\ value_start c.
Proof.
  destruct v as [| [|] | x | s | xs | ms]; intros Hp;
    try (eexists _, _; split; [reflexivity|]; repeat split; try reflexivity; discriminate).
  cbn [plain] in Hp. apply andb_true_iff in Hp as [Hp _].
  apply andb_true_iff in Hp as [Hfin Hcan].
  pose proof (parse_number_toString x [] Hfin Hcan I) as H.
  rewrite app_nil_r in H.
  destruct (parse_number_start _ _ _ H) as (c & t & E & Hc).
  exists c, t. cbn [stringify]. unfold stringify_number. rewrite Hfin.
  split; [exact E|]. destruct (digit_or_minus_dispatch _ Hc) as (Hws & _ & _ & _ & _ & _ & _ & H93 & H125).
  repeat split; assumption.
Qed.

Lemma stringify_nonempty v : plain v = true -> (0 < length (stringify v))%nat.
Proof.
  intros Hp. destruct (stringify_start v Hp) as (c & t & -> & _). simpl. lia.
Qed.

End JSONFacts.

Module ListRoundTrip.
Import ParseSpec.
Import TextFacts NumFacts NumberRoundTrip StringRoundTrip JSONFacts.

Lemma parse_elements_join fuel xs : forall n rest,
  xs <> [] -> Forall (reads_back fuel) xs -> (length xs <= n)%nat ->
  parse_elements (parse_value fuel) n (join_comma (map stringify xs) ++ 93 :: rest)
  = Some (xs, rest).
Proof.
  induction xs as [|x xs IH]; intros n rest Hne Hall Hn; [congruence|].
  apply Forall_cons in Hall as [Hx Hxs].
  destruct n as [|n]; [simpl in Hn; lia|]. simpl in Hn.
  destruct xs as [|y ys].
  - cbn [map join_comma parse_elements].
    rewrite (Hx (93 :: rest)) by (simpl; tauto). reflexivity.
  - change (join_comma (map stringify (x :: y :: ys)))
      with (stringify x ++ 44 :: join_comma (map stringify (y :: ys))).
    rewrite <- app_assoc.
    change ((44 :: ?a) ++ ?b) with (44 :: (a ++ b)).
    cbn [parse_elements].
    rewrite (Hx (_ :: _)) by (simpl; tauto).
    cbn [skip_ws is_ws N.eqb Pos.eqb orb]. cbv iota.
    rewrite IH; [reflexivity|discriminate|assumption|lia].
Qed.

Lemma parse_members_join fuel ms : forall n rest,
  ms <> [] -> Forall (fun m => reads_back fuel (snd m)) ms -> (length ms <= n)%nat ->
  parse_members (parse_value fuel) n (join_comma (map member_text ms) ++ 125 :: rest)
  = Some (ms, rest).
Proof.
  induction ms as [|[k x] ms IH]; intros n rest Hne Hall Hn; [congruence|].
  apply Forall_cons in Hall as [Hx Hxs]. simpl in Hx.
  destruct n as [|n]; [simpl in Hn; lia|]. simpl in Hn.
  assert (Hhead : forall tail,
    parse_members (parse_value fuel) (S n)
      (member_text (k, x) ++ tail)
    = match parse_value fuel (stringify x ++ tail) with
      | None => None
      | Some (v, r3) =>
          match skip_ws r3 with
          | d :: r4 =>
              if d =? 44 then
                match parse_members (parse_value fuel) n r4 with
                | Some (ms', r5) => Some ((k, v) :: ms', r5)
                | None => None
                end
              else if d =? 125 then Some ([(k, v)], r4)
              else None
          | [] => None
          end
      end).
  { intros tail. unfold member_text, quote. cbn [fst snd].
    change ((34 :: quote_body k ++ [34]) ++ 58 :: stringify x)
      with (34 :: ((quote_body k ++ [34]) ++ 58 :: stringify x)).
    rewrite <- !app_assoc.
    change ((34 :: ?a) ++ ?b) with (34 :: (a ++ b)).
    rewrite <- !app_assoc.
    change ([34] ++ ?b) with (34 :: b).
    change ((58 :: ?a) ++ ?b) with (58 :: (a ++ b)).
    cbn [parse_members skip_ws is_ws N.eqb Pos.eqb orb]. cbv iota.
    rewrite parse_quote.
    cbn [skip_ws is_ws N.eqb Pos.eqb orb]. cbv iota. reflexivity. }
  destruct ms as [|m ms'].
  - cbn [map join_comma]. rewrite Hhead.
    rewrite (Hx (125 :: rest)) by (simpl; tauto). reflexivity.
  - change (join_comma (map member_text ((k, x) :: m :: ms')))
      with (member_text (k, x) ++ 44 :: join_comma (map member_text (m :: ms'))).
    rewrite <- app_assoc, Hhead.
    change ((44 :: ?a) ++ ?b) with (44 :: (a ++ b)).
    rewrite (Hx (_ :: _)) by (simpl; tauto).
    cbn [skip_ws is_ws N.eqb Pos.eqb orb]. cbv iota.
    rewrite IH; [reflexivity|discriminate|assumption|lia].
Qed.

End ListRoundTrip.

Module ValueRoundTrip.
Import ParseSpec.
Import TextFacts NumFacts NumberRoundTrip StringRoundTrip JSONFacts ListRoundTrip.

Lemma comes_before_trans x y z :
  comes_before x y = false -> comes_before y z = false -> comes_before x z = false.
Proof.
  unfold comes_before.
  destruct (array_index x) as [a|]; [|reflexivity].
  destruct (array_index y) as [b|]; [|discriminate].
  destruct (array_index z) as [c|]; [|discriminate].
  intros H1 H2. apply N.ltb_ge in H1, H2. apply N.ltb_ge. lia.
Qed.

(** In an ordered list no key comes before the first. *)
Lemma key_ordered_head k ks :
  key_ordered (k :: ks) = true -> Forall (fun x => comes_before x k = false) ks.
Proof.
  revert k. induction ks as [|k' ks IH]; intros k H; [constructor|].
  cbn [key_ordered] in H. apply andb_true_iff in H as [H1 H2].
  apply negb_true_iff in H1. constructor; [exact H1|].
  eapply Forall_impl; [apply (IH k' H2)|].
  intros x Hx. cbv beta in Hx. eapply comes_before_trans; eassumption.
Qed.

Lemma key_ordered_tail k ks : key_ordered (k :: ks) = true -> key_ordered ks = true.
Proof.
  destruct ks as [|k' ks]; [reflexivity|].
  cbn [key_ordered]. intros H. now apply andb_true_iff in H as [_ H].
Qed.

(** A key that is new and last in the order is put last. *)
Lemma obj_set_fresh ms k v :
  k ∉ map fst ms -> key_ordered (map fst ms ++ [k]) = true ->
  obj_set ms k v = ms ++ [(k, v)].
Proof.
  induction ms as [|[k' v'] ms IH]; cbn [obj_set map fst app]; intros Hk Ho;
    [reflexivity|].
  apply not_elem_of_cons in Hk as [Hne Hk].
  destruct (decide (k' = k)); [congruence|].
  pose proof (key_ordered_head _ _ Ho) as Hh.
  apply Forall_app in Hh as [_ Hh]. inversion Hh as [|? ? Hb _]; subst.
  rewrite Hb. rewrite IH; [reflexivity|exact Hk|].
  eapply key_ordered_tail, Ho.
Qed.

Lemma key_ordered_prefix ks : forall ls,
  key_ordered (ks ++ ls) = true -> key_ordered ks = true.
Proof.
  induction ks as [|k ks IH]; intros ls H; [reflexivity|].
  destruct ks as [|k' ks]; [reflexivity|].
  cbn [app key_ordered] in *. apply andb_true_iff in H as [H1 H2].
  rewrite H1. cbn [andb]. apply (IH ls). exact H2.
Qed.

Lemma obj_of_members_from acc ms :
  NoDup (map fst (acc ++ ms)) -> key_ordered (map fst (acc ++ ms)) = true ->
  fold_left (fun a m => obj_set a (fst m) (snd m)) ms acc = acc ++ ms.
Proof.
  revert acc. induction ms as [|[k v] ms IH]; intros acc Hnd Ho; simpl.
  - now rewrite app_nil_r.
  - rewrite obj_set_fresh.
    + rewrite IH; rewrite <- app_assoc; [reflexivity|exact Hnd|exact Ho].
    + rewrite map_app in Hnd. apply NoDup_app in Hnd as (_ & Hdis & _).
      intros Hin. apply (Hdis k Hin). simpl. left.
    + rewrite map_app in Ho. cbn [map fst] in Ho.
      apply (key_ordered_prefix _ (map fst ms)). now rewrite <- app_assoc.
Qed.

Lemma obj_of_members_nodup ms :
  NoDup (map fst ms) -> key_ordered (map fst ms) = true -> obj_of_members ms = ms.
Proof. intros H Ho. unfold obj_of_members. now rewrite obj_of_members_from. Qed.

Lemma join_comma_length parts :
  Forall (fun p : jstring => (0 < length p)%nat) parts ->
  (length parts <= length (join_comma parts))%nat.
Proof.
  induction 1 as [|p parts Hp _ IH]; simpl; [lia|].
  destruct parts as [|q parts']; [simpl; lia|].
  rewrite length_app. simpl in *. lia.
Qed.

Lemma join_comma_part parts p :
  p ∈ parts -> (length p <= length (join_comma parts))%nat.
Proof.
  induction parts as [|q parts IH]; intros Hin; [inversion Hin|].
  apply elem_of_cons in Hin as [->|Hin].
  - destruct parts; simpl; [lia|]. rewrite length_app. lia.
  - specialize (IH Hin). destruct parts as [|q' parts']; [inversion Hin|].
    change (join_comma (q :: q' :: parts')) with (q ++ 44 :: join_comma (q' :: parts')).
    rewrite length_app. simpl in *. lia.
Qed.

Lemma depth_elements_lt (xs : list json) fuel :
  (fold_right (fun x d => Nat.max (depth x) d) O xs < fuel)%nat ->
  Forall (fun x => (depth x < fuel)%nat) xs.
Proof.
  induction xs as [|x xs IH]; simpl; intros H; constructor; [lia|apply IH; lia].
Qed.

Lemma depth_members_lt (ms : list (jstring * json)) fuel :
  (fold_right (fun m d => Nat.max (depth (snd m)) d) O ms < fuel)%nat ->
  Forall (fun m => (depth (snd m) < fuel)%nat) ms.
Proof.
  induction ms as [|m ms IH]; simpl; intros H; constructor; [lia|apply IH; lia].
Qed.

Lemma forallb_Forall {A} (f : A -> bool) l :
  forallb f l = true -> Forall (fun x => f x = true) l.
Proof.
  induction l as [|x l IH]; simpl; intros H; constructor;
    apply andb_true_iff in H as [H1 H2]; auto.
Qed.

Lemma Forall_forallb {A} (f : A -> bool) l :
  Forall (fun x => f x = true) l -> forallb f l = true.
Proof.
  induction 1 as [|x l Hx _ IH]; simpl; [reflexivity|]. now rewrite Hx, IH.
Qed.

(** Every plain value is read back from its text, given fuel above its
    depth. *)
Lemma reads_back_plain v :
  plain v = true -> forall fuel, (depth v < fuel)%nat -> reads_back fuel v.
Proof.
  induction v as [| b | x | s | xs IH | ms IH] using json_ind;
    intros Hp fuel Hd rest Hrest; (destruct fuel as [|f]; [lia|]).
  - reflexivity.
  - destruct b; reflexivity.
  - cbn [plain] in Hp. apply andb_true_iff in Hp as [Hp Hdbl].
    apply andb_true_iff in Hp as [Hfin Hcan].
    rewrite <- (is_double_eq x Hdbl) at 2.
    apply parse_value_number. cbn [stringify]. unfold stringify_number. rewrite Hfin.
    apply parse_number_toString; auto using value_end_number.
  - cbn [stringify]. unfold quote.
    change ((34 :: quote_body s ++ [34]) ++ rest)
      with (34 :: ((quote_body s ++ [34]) ++ rest)).
    rewrite <- app_assoc. change ([34] ++ rest) with (34 :: rest).
    cbn [parse_value skip_ws is_ws N.eqb Pos.eqb orb]. cbv iota.
    now rewrite parse_quote.
  - cbn [plain] in Hp. apply forallb_Forall in Hp.
    cbn [depth] in Hd. apply Nat.succ_lt_mono in Hd. apply depth_elements_lt in Hd.
    assert (Hall : Forall (reads_back f) xs).
    { rewrite Forall_forall in IH, Hp, Hd. apply Forall_forall. intros x Hx.
      apply IH; auto. }
    cbn [stringify].
    change ((91 :: join_comma (map stringify xs) ++ [93]) ++ rest)
      with (91 :: ((join_comma (map stringify xs) ++ [93]) ++ rest)).
    rewrite <- app_assoc. change ([93] ++ rest) with (93 :: rest).
    cbn [parse_value skip_ws is_ws N.eqb Pos.eqb orb]. cbv iota.
    destruct xs as [|x xs']; [reflexivity|].
    rewrite parse_elements_join; auto; try discriminate.
    + inversion Hp as [|? ? Hx _]; subst.
      destruct (stringify_start x Hx) as (c & t & E & Hws & H93 & _).
      destruct xs'; cbn [map join_comma]; rewrite E; simpl; rewrite Hws; now ncmp.
    + rewrite length_app.
      assert (length (x :: xs') <= length (join_comma (map stringify (x :: xs'))))%nat.
      { rewrite <- (length_map stringify). apply join_comma_length.
        apply Forall_map. eapply Forall_impl; [exact Hp|].
        intros y Hy. now apply stringify_nonempty. }
      lia.
  - cbn [plain] in Hp. apply andb_true_iff in Hp as [Hnd Hp].
    apply andb_true_iff in Hnd as [Hnd Hord].
    apply bool_decide_eq_true in Hnd.
    apply forallb_Forall in Hp.
    cbn [depth] in Hd. apply Nat.succ_lt_mono in Hd. apply depth_members_lt in Hd.
    assert (Hall : Forall (fun m => reads_back f (snd m)) ms).
    { rewrite Forall_forall in IH, Hp, Hd. apply Forall_forall. intros m Hm.
      apply IH; auto. }
    cbn [stringify]. fold member_text.
    change (map (fun m => quote (fst m) ++ 58 :: stringify (snd m)) ms)
      with (map member_text ms).
    change ((123 :: join_comma (map member_text ms) ++ [125]) ++ rest)
      with (123 :: ((join_comma (map member_text ms) ++ [125]) ++ rest)).
    rewrite <- app_assoc. change ([125] ++ rest) with (125 :: rest).
    cbn [parse_value skip_ws is_ws N.eqb Pos.eqb orb]. cbv iota.
    destruct ms as [|m ms']; [reflexivity|].
    rewrite parse_members_join; auto; try discriminate.
    + rewrite obj_of_members_nodup by assumption.
      destruct ms'; reflexivity.
    + rewrite length_app.
      assert (length (m :: ms') <= length (join_comma (map member_text (m :: ms'))))%nat.
      { rewrite <- (length_map member_text). apply join_comma_length.
        apply Forall_map, Forall_forall. intros y _. unfold member_text, quote. simpl. lia. }
      lia.
Qed.

End ValueRoundTrip.

Module ParseFacts.
Import ParseSpec.
Import TextFacts NumFacts NumberRoundTrip StringRoundTrip JSONFacts ListRoundTrip ValueRoundTrip.

Lemma fold_max_le {A} (f : A -> nat) (l : list A) bound :
  Forall (fun x => (f x <= bound)%nat) l ->
  (fold_right (fun x d => Nat.max (f x) d) O l <= bound)%nat.
Proof. induction 1; simpl; lia. Qed.

(** The text of a value is at least as long as the value is deep. *)
Lemma depth_le_length v : (depth v <= length (stringify v))%nat.
Proof.
  induction v as [| b | x | s | xs IH | ms IH] using json_ind; cbn [depth]; try lia.
  - cbn [stringify]. cbn [length]. rewrite length_app. cbn [length].
    enough (fold_right (fun x d => Nat.max (depth x) d) O xs
            <= length (join_comma (map stringify xs)))%nat by lia.
    apply fold_max_le. rewrite Forall_forall in IH. apply Forall_forall. intros x Hx.
    etransitivity; [apply IH, Hx|]. apply join_comma_part. apply list_elem_of_In, in_map, list_elem_of_In; assumption.
  - cbn [stringify].
    change (map (fun m => quote (fst m) ++ 58 :: stringify (snd m)) ms)
      with (map member_text ms).
    cbn [length]. rewrite length_app. cbn [length].
    enough (fold_right (fun m d => Nat.max (depth (snd m)) d) O ms
            <= length (join_comma (map member_text ms)))%nat by lia.
    apply (fold_max_le (fun m => depth (snd m))).
    rewrite Forall_forall in IH. apply Forall_forall. intros m Hm.
    etransitivity; [apply IH, Hm|].
    etransitivity; [|apply (join_comma_part _ (member_text m)); apply list_elem_of_In, in_map, list_elem_of_In; assumption].
    unfold member_text. rewrite length_app. simpl. lia.
Qed.

(** [JSON.parse(JSON.stringify(v))] is [v], for plain [v]. *)
Lemma parse_stringify v : plain v = true -> parse (stringify v) = Some v.
Proof.
  intros Hp. unfold parse.
  pose proof (reads_back_plain v Hp (S (length (stringify v)))) as H.
  specialize (H ltac:(pose proof (depth_le_length v); lia) [] I).
  rewrite app_nil_r in H. now rewrite H.
Qed.

(** *** Numbers that are not finite

    [JSON.stringify] writes them as [null], so the text of a value is the
    text of the value with [null] in their place. *)

Lemma stringify_nullify v : stringify (nullify v) = stringify v.
Proof.
  induction v as [| b | x | s | xs IH | ms IH] using json_ind; try reflexivity.
  - cbn [nullify]. destruct (isFinite x) eqn:E; [reflexivity|].
    cbn [stringify]. unfold stringify_number. now rewrite E.
  - cbn [nullify stringify]. do 3 f_equal. rewrite map_map.
    induction IH as [|x xs Hx _ IHxs]; [reflexivity|].
    cbn [map]. now rewrite Hx, IHxs.
  - cbn [nullify stringify]. do 3 f_equal. rewrite map_map.
    induction IH as [|[k x] ms Hx _ IHms]; [reflexivity|].
    cbn [map fst snd] in *. now rewrite Hx, IHms.
Qed.

(** What [JSON.parse] reads from the text of [v], when [v] with [null] for
    its numbers that are not finite is plain. *)
Lemma parse_stringify_nullify v :
  plain (nullify v) = true -> parse (stringify v) = Some (nullify v).
Proof. intros H. rewrite <- stringify_nullify. now apply parse_stringify. Qed.

End ParseFacts.

(** * The offline queue *)

Module OfflineFacts.
Import ParseSpec.
Import Offline QueueSpec DrainSpec ParseFacts ValueRoundTrip.

(** *** Storage *)

Lemma load_emit e w : load (emit e w) = load w.
Proof. reflexivity. Qed.

Lemma load_appendChild e w : load (appendChild e w) = load w.
Proof. reflexivity. Qed.

Lemma load_classList_add c w : load (classList_add c w) = load w.
Proof. reflexivity. Qed.

Lemma load_classList_remove c w : load (classList_remove c w) = load w.
Proof. reflexivity. Qed.

Lemma getItem_save q w :
  getItem KEY (save q w) = Some (stringify (JArr (payloads q))).
Proof. unfold getItem, save, setItem. simpl. apply lookup_insert_eq. Qed.

Lemma load_save_text q w : load (save q w) = JSON.parse (stringify (JArr (payloads q))).
Proof. unfold load. rewrite getItem_save. reflexivity. Qed.

Lemma plain_queue_payloads q : plain_queue q = true -> plain (JArr (payloads q)) = true.
Proof.
  unfold plain_queue, payloads. cbn [plain]. intros H.
  induction q as [|e q IH]; simpl in *; [reflexivity|].
  apply andb_true_iff in H as [H1 H2]. now rewrite H1, IH.
Qed.

(** Saving a queue of plain data and loading it gives the queue back. *)
Lemma load_save q w : plain_queue q = true -> persisted (save q w) q.
Proof.
  intros H. unfold persisted. rewrite load_save_text.
  now apply parse_stringify, plain_queue_payloads.
Qed.

Lemma payloads_fresh_entries xs : payloads (fresh_entries xs) = xs.
Proof.
  unfold payloads, fresh_entries.
  enough (H : forall (f : nat -> nat),
            map payload (imap (fun i v => {| ref := N.of_nat (f i); payload := v |}) xs) = xs)
    by apply (H (fun i => i)).
  induction xs as [|x xs IH]; intros f; simpl; [reflexivity|].
  f_equal. apply (IH (fun i => f (S i))).
Qed.

Lemma plain_queue_app q r :
  plain_queue (q ++ r) = plain_queue q && plain_queue r.
Proof. apply forallb_app. Qed.

Lemma plain_queue_filter (f : entry -> bool) q :
  plain_queue q = true -> plain_queue (filter f q) = true.
Proof.
  unfold plain_queue. intros H. apply Forall_forallb. apply forallb_Forall in H.
  rewrite Forall_forall in H. apply Forall_forall. intros x Hx.
  apply list_elem_of_filter in Hx as [_ Hx]. now apply H.
Qed.

(** *** Strict equality *)

Lemma number_eq_refl x : isFinite x = true -> Offline.number_eq x x = true.
Proof.
  destruct x as [| |neg s n]; try discriminate. intros _. simpl.
  destruct s; [reflexivity|].
  rewrite eqb_reflx, Z.eqb_refl, bool_decide_eq_true_2 by reflexivity. reflexivity.
Qed.

Lemma strict_eq_refl e : plain (payload e) = true -> strict_eq e e = true.
Proof.
  unfold strict_eq. destruct (payload e) as [| b | x | s | xs | ms]; intros H;
    try reflexivity.
  - apply eqb_reflx.
  - cbn [plain] in H. apply andb_true_iff in H as [H _].
    apply andb_true_iff in H as [H _]. now apply number_eq_refl.
  - now apply bool_decide_eq_true_2.
  - apply N.eqb_refl.
  - apply N.eqb_refl.
Qed.

Lemma distinct_middle l1 e l2 :
  distinct (l1 ++ e :: l2) = true ->
  Forall (fun x => strict_eq x e = false) l1
  /\ Forall (fun x => strict_eq x e = false) l2
  /\ distinct (l1 ++ l2) = true.
Proof.
  induction l1 as [|a l1 IH]; cbn [app distinct]; intros H.
  - apply andb_true_iff in H as [H1 H2]. repeat split; [constructor| |exact H2].
    apply forallb_Forall in H1. eapply Forall_impl; [exact H1|].
    intros x Hx. apply andb_true_iff in Hx as [Hx _]. now apply negb_true_iff.
  - apply andb_true_iff in H as [H1 H2]. destruct (IH H2) as (Ha & Hb & Hc).
    rewrite forallb_app in H1. apply andb_true_iff in H1 as [H1a H1b].
    cbn [forallb] in H1b. apply andb_true_iff in H1b as [He H1b].
    apply andb_true_iff in He as [He1 He2].
    repeat split; [constructor; [now apply negb_true_iff|exact Ha]|exact Hb|].
    apply andb_true_iff. split; [|exact Hc].
    rewrite forallb_app. now rewrite H1a, H1b.
Qed.

Lemma filter_all_kept (f : entry -> bool) l :
  Forall (fun x => f x = true) l -> filter f l = l.
Proof.
  induction 1 as [|x l Hx _ IH]; [reflexivity|].
  rewrite filter_cons. destruct (decide (f x)) as [_|Hn]; [now rewrite IH|].
  rewrite Hx in Hn. now destruct Hn.
Qed.

(** Removing an entry from a queue without repetition removes it alone. *)
Lemma filter_removes_one l1 e l2 :
  distinct (l1 ++ e :: l2) = true -> plain (payload e) = true ->
  filter (fun r => negb (strict_eq r e)) (l1 ++ e :: l2) = l1 ++ l2.
Proof.
  intros Hd Hp. destruct (distinct_middle _ _ _ Hd) as (H1 & H2 & _).
  rewrite filter_app, filter_cons.
  rewrite (strict_eq_refl e Hp). cbn [negb].
  destruct (decide (Is_true false)) as [[]|_].
  rewrite !filter_all_kept; [reflexivity| |];
    (eapply Forall_impl; [eassumption|]; intros x Hx; now rewrite Hx).
Qed.

(** *** The loop *)

Lemma sync_loop_snoc l e i net st :
  sync_loop (l ++ [e]) i net st
  = sync_step e (net (i + length l)%nat) (sync_loop l i net st).
Proof.
  revert i st. induction l as [|a l IH]; intros i st; simpl.
  - now rewrite Nat.add_0_r.
  - rewrite IH. do 2 f_equal. lia.
Qed.

(** What one turn does to the queue and to the storage. *)
Lemma sync_step_queue e res st :
  pendingReceipts (manager (sync_step e res st))
  = if succeeded res
    then filter (fun r => negb (strict_eq r e)) (pendingReceipts (manager st))
    else pendingReceipts (manager st).
Proof. destruct res as [m|[|]]; reflexivity. Qed.

Lemma sync_step_storage e res st :
  localStorage (world (sync_step e res st))
  = if succeeded res
    then <[KEY := stringify (JArr (payloads (pendingReceipts (manager (sync_step e res st)))))]>
           (localStorage (world st))
    else localStorage (world st).
Proof. destruct res as [m|[|]]; reflexivity. Qed.

Lemma sync_step_in_sync e res st : in_sync st -> in_sync (sync_step e res st).
Proof.
  intros [Hp Hs]. destruct res as [m|[|]]; split; try assumption.
  cbn [sync_step with_world set_pendingReceipts manager world pendingReceipts].
  - now apply plain_queue_filter.
  - apply load_save. now apply plain_queue_filter.
Qed.

Lemma sync_loop_in_sync l i net st : in_sync st -> in_sync (sync_loop l i net st).
Proof.
  revert i st. induction l as [|e l IH]; intros i st H; simpl; [exact H|].
  apply IH. now apply sync_step_in_sync.
Qed.

Lemma storeReceiptOffline_in_sync r st :
  plain (payload r) = true -> in_sync st -> in_sync (storeReceiptOffline r st).
Proof.
  intros Hr [Hp Hs].
  assert (Hq : plain_queue (pendingReceipts (manager st) ++ [r]) = true).
  { rewrite plain_queue_app, Hp. simpl. now rewrite Hr. }
  split; [exact Hq|]. unfold persisted.
  change (load (world (storeReceiptOffline r st)))
    with (load (save (pendingReceipts (manager st) ++ [r]) (world st))).
  now apply load_save.
Qed.

Lemma handleOffline_in_sync st : in_sync st -> in_sync (handleOffline st).
Proof. intros [Hp Hs]. split; assumption. Qed.

Lemma handleOnline_in_sync net st : in_sync st -> in_sync (handleOnline net st).
Proof.
  intros H. unfold handleOnline, syncPendingReceipts.
  assert (H' : in_sync (sync_loop (pendingReceipts (manager (set_isOnline true st))) 0 net
                          (with_world (emit SyncCall) (set_isOnline true st)))).
  { apply sync_loop_in_sync. destruct H as [Hp Hs]. split; assumption. }
  destruct H' as [Hp Hs]. split; assumption.
Qed.

(** Whatever happens in whatever order, requests of overlapping drain passes
    and enqueue calls between them included, the persisted queue stays the
    queue in memory. *)
Lemma in_sync_interleaved (acts : list action) : forall st,
  forallb enqueues_plain acts = true -> in_sync st ->
  in_sync (fold_left (fun s a => perform a s) acts st).
Proof.
  induction acts as [|a acts IH]; intros st Hacts H; [exact H|].
  simpl in Hacts. apply andb_true_iff in Hacts as [Ha Hacts].
  simpl. apply IH; [exact Hacts|].
  destruct a as [e res|r|[net|]]; simpl.
  - now apply sync_step_in_sync.
  - now apply storeReceiptOffline_in_sync.
  - now apply handleOnline_in_sync.
  - now apply handleOffline_in_sync.
Qed.

Lemma sync_loop_queue net s : forall i done tail st,
  distinct (done ++ s ++ tail) = true -> plain_queue (done ++ s ++ tail) = true ->
  pendingReceipts (manager st) = done ++ s ++ tail ->
  pendingReceipts (manager (sync_loop s i net st)) = done ++ unsynced s i net ++ tail.
Proof.
  induction s as [|e s IH]; intros i done tail st Hd Hp Hq; simpl; [exact Hq|].
  change ((e :: s) ++ tail) with (e :: (s ++ tail)) in *.
  destruct (succeeded (net i)) eqn:Hok.
  - apply IH.
    + now destruct (distinct_middle _ _ _ Hd) as (_ & _ & H).
    + rewrite plain_queue_app in *. apply andb_true_iff in Hp as [H1 H2].
      simpl in H2. apply andb_true_iff in H2 as [_ H2]. now rewrite H1, H2.
    + rewrite sync_step_queue, Hok, Hq. apply filter_removes_one; [exact Hd|].
      rewrite plain_queue_app in Hp. apply andb_true_iff in Hp as [_ H2].
      simpl in H2. now apply andb_true_iff in H2 as [H2 _].
  - replace (done ++ (e :: unsynced s (S i) net) ++ tail)
      with ((done ++ [e]) ++ unsynced s (S i) net ++ tail) by now rewrite <- app_assoc.
    apply IH.
    + now rewrite <- app_assoc.
    + now rewrite <- app_assoc.
    + rewrite sync_step_queue, Hok, Hq. now rewrite <- app_assoc.
Qed.

(** Removal of an entry that is [===] to itself, as every object is. *)
Lemma filter_removes_self l1 e l2 :
  distinct (l1 ++ e :: l2) = true -> strict_eq e e = true ->
  filter (fun r => negb (strict_eq r e)) (l1 ++ e :: l2) = l1 ++ l2.
Proof.
  intros Hd Hp. destruct (distinct_middle _ _ _ Hd) as (H1 & H2 & _).
  rewrite filter_app, filter_cons. rewrite Hp. cbn [negb].
  destruct (decide (Is_true false)) as [[]|_].
  rewrite !filter_all_kept; [reflexivity| |];
    (eapply Forall_impl; [eassumption|]; intros x Hx; now rewrite Hx).
Qed.

Lemma sync_loop_queue_self net s : forall i done tail st,
  distinct (done ++ s ++ tail) = true ->
  Forall (fun e => strict_eq e e = true) s ->
  pendingReceipts (manager st) = done ++ s ++ tail ->
  pendingReceipts (manager (sync_loop s i net st)) = done ++ unsynced s i net ++ tail.
Proof.
  induction s as [|e s IH]; intros i done tail st Hd Hp Hq; simpl; [exact Hq|].
  change ((e :: s) ++ tail) with (e :: (s ++ tail)) in *.
  inversion Hp as [|? ? He Hs]; subst.
  destruct (succeeded (net i)) eqn:Hok.
  - apply IH; [now destruct (distinct_middle _ _ _ Hd) as (_ & _ & H)|exact Hs|].
    rewrite sync_step_queue, Hok, Hq. now apply filter_removes_self.
  - replace (done ++ (e :: unsynced s (S i) net) ++ tail)
      with ((done ++ [e]) ++ unsynced s (S i) net ++ tail) by now rewrite <- app_assoc.
    apply IH; [now rewrite <- app_assoc|exact Hs|].
    rewrite sync_step_queue, Hok, Hq. now rewrite <- app_assoc.
Qed.

Lemma unsynced_snoc net l e : forall i,
  unsynced (l ++ [e]) i net
  = unsynced l i net ++ (if succeeded (net (i + length l)%nat) then [] else [e]).
Proof.
  induction l as [|a l IH]; intros i; simpl.
  - rewrite Nat.add_0_r. now destruct (succeeded (net i)).
  - rewrite IH. replace (S i + length l)%nat with (i + S (length l))%nat by lia.
    now destruct (succeeded (net i)).
Qed.

Lemma unsynced_all_succeed net q : forall i,
  (forall j, (i <= j < i + length q)%nat -> succeeded (net j) = true) ->
  unsynced q i net = [].
Proof.
  induction q as [|e q IH]; intros i H; simpl; [reflexivity|].
  rewrite H by (simpl; lia). apply IH. intros j Hj. apply H. simpl. lia.
Qed.

Lemma sync_loop_sync_calls l i net st :
  sync_calls (world (sync_loop l i net st)) = sync_calls (world st).
Proof.
  revert i st. induction l as [|e l IH]; intros i st; simpl; [reflexivity|].
  rewrite IH. unfold sync_calls.
  destruct (net i) as [m|[|]]; simpl; rewrite ?List.filter_app; simpl;
    rewrite ?length_app; simpl; lia.
Qed.

(** *** Filtering with a boolean test *)

Lemma filter_bool_cons (f : entry -> bool) (x : entry) (l : list entry) :
  filter f (x :: l) = if f x then x :: filter f l else filter f l.
Proof.
  rewrite filter_cons. destruct (f x) eqn:E; destruct (decide _) as [H|H];
    try reflexivity; simpl in H; contradiction.
Qed.

Lemma filter_filter_bool (f g : entry -> bool) (l : list entry) :
  filter f (filter g l) = filter (fun x => g x && f x) l.
Proof.
  induction l as [|a l IH]; [reflexivity|].
  rewrite (filter_bool_cons g), (filter_bool_cons (fun x => g x && f x)).
  destruct (g a); simpl; [|exact IH].
  rewrite filter_bool_cons. destruct (f a); now rewrite IH.
Qed.

Lemma filter_none_kept (f : entry -> bool) (l : list entry) :
  Forall (fun x => f x = false) l -> filter f l = [].
Proof.
  induction 1 as [|x l Hx _ IH]; [reflexivity|].
  now rewrite filter_bool_cons, Hx.
Qed.

Lemma filter_bool_sublist (f : entry -> bool) (l : list entry) : sublist (filter f l) l.
Proof.
  induction l as [|a l IH]; [constructor|].
  rewrite filter_bool_cons. destruct (f a); now constructor.
Qed.

(** *** One pass, whatever the queue *)

Lemma filter_none_of_nil (q : list entry) : filter (none_of []) q = q.
Proof. apply (filter_all_kept (none_of [])). apply Forall_forall. now intros x _. Qed.

Lemma sync_loop_filters s : forall i net st,
  pendingReceipts (manager (sync_loop s i net st))
  = filter (none_of (synced s i net)) (pendingReceipts (manager st)).
Proof.
  induction s as [|e s IH]; intros i net st; cbn [sync_loop synced].
  - now rewrite filter_none_of_nil.
  - rewrite IH, sync_step_queue. destruct (succeeded (net i)); [|reflexivity].
    now rewrite filter_filter_bool.
Qed.

Lemma sync_step_trace e res st :
  trace (world (sync_step e res st)) = trace (world st) ++ attempt_effects e res.
Proof. destruct res as [m|[|]]; simpl; rewrite <- ?app_assoc; reflexivity. Qed.

Lemma sync_loop_trace net s : forall i st,
  trace (world (sync_loop s i net st)) = trace (world st) ++ drain_effects s i net.
Proof.
  induction s as [|e s IH]; intros i st; simpl; [now rewrite app_nil_r|].
  now rewrite IH, sync_step_trace, <- app_assoc.
Qed.

Lemma drain_effects_requests net q : forall i,
  List.filter is_fetch (drain_effects q i net) = map request_of q.
Proof.
  induction q as [|e q IH]; intros i; [reflexivity|].
  simpl. f_equal. destruct (net i) as [m|ok]; simpl; apply IH.
Qed.

Lemma sync_loop_storage net s : forall i st,
  localStorage (world (sync_loop s i net st))
  = match synced s i net with
    | [] => localStorage (world st)
    | _ => <[KEY := stringify (JArr (payloads
                      (pendingReceipts (manager (sync_loop s i net st)))))]>
             (localStorage (world st))
    end.
Proof.
  induction s as [|e s IH]; intros i st; [reflexivity|].
  cbn [sync_loop synced]. rewrite IH, sync_step_storage.
  destruct (succeeded (net i)) eqn:Hok.
  - destruct (synced s (S i) net) eqn:Hs.
    + do 3 f_equal. now rewrite sync_loop_filters, Hs, filter_none_of_nil.
    + apply insert_insert_eq.
  - reflexivity.
Qed.

Lemma sync_loop_isOnline net s : forall i st,
  isOnline (manager (sync_loop s i net st)) = isOnline (manager st).
Proof.
  induction s as [|e s IH]; intros i st; simpl; [reflexivity|].
  rewrite IH. now destruct (net i) as [m|[|]].
Qed.

Lemma sync_loop_page net s : forall i st,
  bodyChildren (world (sync_loop s i net st)) = bodyChildren (world st)
  /\ bodyClasses (world (sync_loop s i net st)) = bodyClasses (world st).
Proof.
  induction s as [|e s IH]; intros i st; simpl; [now split|].
  destruct (IH (S i) (sync_step e (net i) st)) as [-> ->].
  now destruct (net i) as [m|[|]].
Qed.

Lemma synced_all net q : forall i,
  (forall j, (i <= j < i + length q)%nat -> succeeded (net j) = true) ->
  synced q i net = q.
Proof.
  induction q as [|e q IH]; intros i H; simpl; [reflexivity|].
  rewrite H by (simpl; lia). f_equal. apply IH. intros j Hj. apply H. simpl. lia.
Qed.

Lemma synced_none net q : forall i,
  (forall j, (i <= j < i + length q)%nat -> succeeded (net j) = false) ->
  synced q i net = [].
Proof.
  induction q as [|e q IH]; intros i H; simpl; [reflexivity|].
  rewrite H by (simpl; lia). apply IH. intros j Hj. apply H. simpl. lia.
Qed.

Lemma drain_storage net st :
  localStorage (world (syncPendingReceipts net st))
  = match synced (pendingReceipts (manager st)) 0 net with
    | [] => localStorage (world st)
    | _ => <[KEY := stringify (JArr (payloads
                      (pendingReceipts (manager (syncPendingReceipts net st)))))]>
             (localStorage (world st))
    end.
Proof. unfold syncPendingReceipts. now rewrite sync_loop_storage. Qed.

End OfflineFacts.

Module OfflineClaims.
Import ParseSpec.
Import Offline QueueSpec DrainSpec Samples MoreSamples ParseFacts ValueRoundTrip OfflineFacts.

Lemma parse_empty_array : JSON.parse (js "[]") = Some (JArr []).
Proof. reflexivity. Qed.

(** C1, as amended.  With nothing stored under the key, or the empty string,
    [load] returns the empty sequence and the manager starts with an empty
    queue; a stored text that is valid JSON is returned as parsed, and when
    it is an array the manager starts with its elements, in order; a stored
    text that is not valid JSON makes [load] raise, and constructing the
    manager fails with that [SyntaxError]. *)
Theorem load_absent_valid_corrupt (w : World) (onLine : bool) (net : nat -> fetch_result) :
  ((getItem KEY w = None \/ getItem KEY w = Some []) ->
     load w = Some (JArr [])
     /\ constructor onLine net w
        = Some (Returns {| manager := {| isOnline := onLine; pendingReceipts := [] |};
                           world := w |}))
  /\ (forall s v, getItem KEY w = Some s -> JSON.parse s = Some v -> load w = Some v)
  /\ (forall s xs, getItem KEY w = Some s -> JSON.parse s = Some (JArr xs) ->
        payloads (fresh_entries xs) = xs
        /\ constructor onLine net w
           = Some (Returns (init net {| manager := {| isOnline := onLine;
                                                      pendingReceipts := fresh_entries xs |};
                                        world := w |})))
  /\ (forall s, getItem KEY w = Some s -> s <> [] -> JSON.parse s = None ->
        load w = None /\ constructor onLine net w = Some (Throws SyntaxError)).
Proof.
  assert (Hload : forall s v, getItem KEY w = Some s -> JSON.parse s = Some v ->
                              load w = Some v).
  { intros s v Hs Hv. unfold load. rewrite Hs. destruct s; [discriminate|exact Hv]. }
  split; [|split; [exact Hload|split]].
  - intros Habsent. unfold constructor, load.
    destruct Habsent as [-> | ->]; split; reflexivity.
  - intros s xs Hs Hv. split; [apply payloads_fresh_entries|].
    unfold constructor. now rewrite (Hload s (JArr xs) Hs Hv).
  - intros s Hs Hne Hv.
    assert (Hnone : load w = None).
    { unfold load. rewrite Hs. destruct s; [congruence|exact Hv]. }
    split; [exact Hnone|]. unfold constructor. now rewrite Hnone.
Qed.

Lemma load_absent_valid_corrupt_witness :
  load corrupt_world = None
  /\ constructor true first_succeeds corrupt_world = Some (Throws SyntaxError).
Proof.
  apply (load_absent_valid_corrupt corrupt_world true first_succeeds)
    with (s := js "{not json").
  - vm_compute. reflexivity.
  - discriminate.
  - vm_compute. reflexivity.
Defined.

(** C1 fails as stated: the stored text is not valid JSON, and [load] does
    not return the empty sequence; the caller fails. *)
Lemma load_corrupt_counterexample :
  getItem KEY corrupt_world = Some (js "{not json")
  /\ JSON.parse (js "{not json") = None
  /\ load corrupt_world <> Some (JArr [])
  /\ constructor true first_succeeds corrupt_world = Some (Throws SyntaxError).
Proof. vm_compute. repeat split; discriminate. Qed.

(** *** Draining *)

Lemma syncPendingReceipts_after_attempts net st :
  syncPendingReceipts net st = after_attempts (length (pendingReceipts (manager st))) net st.
Proof. unfold syncPendingReceipts, after_attempts. now rewrite firstn_all. Qed.

Lemma in_sync_emit e st : in_sync st -> in_sync (with_world (emit e) st).
Proof. intros [H1 H2]. split; assumption. Qed.

(** C2, as amended.  For a queue of plain receipts no two of which are the
    same object, persisted as it is in memory, and for every way the
    requests end, one drain pass leaves in memory and in storage exactly the
    entries whose request did not succeed, in their order; if every request
    succeeds the persisted queue is empty, and for [A, B, C] where only the
    request for [B] fails it is [B]. *)
Theorem drain_keeps_the_failed (net : nat -> fetch_result) (st : State) :
  distinct (pendingReceipts (manager st)) = true ->
  plain_queue (pendingReceipts (manager st)) = true ->
  persisted (world st) (pendingReceipts (manager st)) ->
  pendingReceipts (manager (syncPendingReceipts net st))
  = unsynced (pendingReceipts (manager st)) 0 net
  /\ persisted (world (syncPendingReceipts net st))
       (unsynced (pendingReceipts (manager st)) 0 net)
  /\ ((forall i, (i < length (pendingReceipts (manager st)))%nat ->
         succeeded (net i) = true) ->
      persisted (world (syncPendingReceipts net st)) [])
  /\ (forall a b c, pendingReceipts (manager st) = [a; b; c] ->
        succeeded (net 0%nat) = true -> succeeded (net 1%nat) = false ->
        succeeded (net 2%nat) = true ->
        persisted (world (syncPendingReceipts net st)) [b]).
Proof.
  intros Hd Hp Hs.
  assert (Hq : pendingReceipts (manager (syncPendingReceipts net st))
               = unsynced (pendingReceipts (manager st)) 0 net).
  { unfold syncPendingReceipts.
    rewrite <- (app_nil_r (unsynced _ _ _)).
    apply (sync_loop_queue net _ 0%nat [] []); now rewrite ?app_nil_r. }
  assert (Hw : persisted (world (syncPendingReceipts net st))
                 (unsynced (pendingReceipts (manager st)) 0 net)).
  { rewrite <- Hq. unfold syncPendingReceipts.
    apply sync_loop_in_sync, in_sync_emit. now split. }
  split; [exact Hq|]. split; [exact Hw|]. split.
  - intros Hall. rewrite unsynced_all_succeed in Hw; [exact Hw|].
    intros j Hj. apply Hall. lia.
  - intros a b c E H0 H1 H2. rewrite E in Hw. simpl in Hw.
    now rewrite H0, H1, H2 in Hw.
Qed.

Lemma drain_keeps_the_failed_witness :
  persisted (world (syncPendingReceipts second_fails three_queued)) [B].
Proof.
  apply (drain_keeps_the_failed second_fails three_queued) with (a := A) (c := C);
    vm_compute; reflexivity.
Defined.

(** C2 fails as stated: the same receipt object enqueued twice, the first
    request succeeds and the second fails; the claim leaves the second entry
    in the persisted queue, the code leaves the queue empty. *)
Lemma drain_same_object_counterexample :
  pendingReceipts (manager (enqueue_all [A; A] fresh)) = [A; A]
  /\ unsynced [A; A] 0 first_succeeds = [A]
  /\ pendingReceipts (manager (syncPendingReceipts first_succeeds (enqueue_all [A; A] fresh))) = []
  /\ getItem KEY (world (syncPendingReceipts first_succeeds (enqueue_all [A; A] fresh)))
     = Some (js "[]")
  /\ ~ persisted (world (syncPendingReceipts first_succeeds (enqueue_all [A; A] fresh)))
         (unsynced [A; A] 0 first_succeeds).
Proof.
  repeat split; try (vm_compute; reflexivity).
  unfold persisted. vm_compute. discriminate.
Qed.

Lemma after_attempts_queue net st k :
  distinct (pendingReceipts (manager st)) = true ->
  plain_queue (pendingReceipts (manager st)) = true ->
  pendingReceipts (manager (after_attempts k net st))
  = unsynced (take k (pendingReceipts (manager st))) 0 net
    ++ drop k (pendingReceipts (manager st)).
Proof.
  intros Hd Hp. unfold after_attempts.
  apply (sync_loop_queue net _ 0%nat [] (drop k (pendingReceipts (manager st))));
    cbn [app]; now rewrite take_drop.
Qed.

(** C4, as amended.  From a state in which the persisted queue is the queue
    in memory, it is so again after every attempt of a drain pass.  The
    attempt on entry [e] is one step; when its request succeeds the step
    removes from the queue every entry that is [e] itself, keeps every
    other entry in place, and writes the new queue to storage, and when it
    does not succeed it leaves queue and storage as they were.  In a queue
    where no object occurs twice, the step of a successful request removes
    that entry and no other: the entries attempted before it without
    success and the entries not yet attempted are all kept. *)
Theorem drain_persists_each_removal (net : nat -> fetch_result) (st : State) (k : nat) :
  plain_queue (pendingReceipts (manager st)) = true ->
  persisted (world st) (pendingReceipts (manager st)) ->
  persisted (world (after_attempts k net st))
    (pendingReceipts (manager (after_attempts k net st)))
  /\ (forall e, pendingReceipts (manager st) !! k = Some e ->
        after_attempts (S k) net st = sync_step e (net k) (after_attempts k net st)
        /\ (if succeeded (net k) then
              pendingReceipts (manager (after_attempts (S k) net st))
              = filter (fun r => negb (strict_eq r e))
                  (pendingReceipts (manager (after_attempts k net st)))
              /\ getItem KEY (world (after_attempts (S k) net st))
                 = Some (stringify (JArr (payloads
                     (pendingReceipts (manager (after_attempts (S k) net st))))))
            else
              pendingReceipts (manager (after_attempts (S k) net st))
              = pendingReceipts (manager (after_attempts k net st))
              /\ localStorage (world (after_attempts (S k) net st))
                 = localStorage (world (after_attempts k net st)))
        /\ (distinct (pendingReceipts (manager st)) = true ->
            succeeded (net k) = true ->
            pendingReceipts (manager (after_attempts k net st))
            = unsynced (take k (pendingReceipts (manager st))) 0 net
              ++ e :: drop (S k) (pendingReceipts (manager st))
            /\ pendingReceipts (manager (after_attempts (S k) net st))
               = unsynced (take k (pendingReceipts (manager st))) 0 net
                 ++ drop (S k) (pendingReceipts (manager st)))).
Proof.
  intros Hp Hs. split.
  - unfold after_attempts. apply sync_loop_in_sync, in_sync_emit. now split.
  - intros e He.
    assert (Hstep : after_attempts (S k) net st
                    = sync_step e (net k) (after_attempts k net st)).
    { unfold after_attempts. rewrite (take_S_r _ _ _ He), sync_loop_snoc.
      do 2 f_equal. apply lookup_lt_Some in He. rewrite length_take. lia. }
    split; [exact Hstep|]. split.
    + rewrite Hstep, sync_step_queue.
      destruct (net k) as [m|[|]]; cbn [succeeded]; split; try reflexivity.
      unfold getItem. cbn [sync_step with_world set_pendingReceipts manager world].
      apply getItem_save.
    + intros Hd Hok. rewrite !after_attempts_queue by assumption.
      rewrite (drop_S _ _ _ He). split; [reflexivity|].
      rewrite (take_S_r _ _ _ He), unsynced_snoc.
      replace (0 + length (take k (pendingReceipts (manager st))))%nat with k.
      * rewrite Hok, app_nil_r. reflexivity.
      * apply lookup_lt_Some in He. rewrite length_take. lia.
Qed.

Lemma drain_persists_each_removal_witness :
  persisted (world (after_attempts 1 second_fails three_queued))
    (pendingReceipts (manager (after_attempts 1 second_fails three_queued))).
Proof.
  apply (drain_persists_each_removal second_fails three_queued 1);
    vm_compute; reflexivity.
Defined.

(** C4 fails as stated: the same receipt object is queued twice and its
    first request succeeds; that step removes both entries, the one whose
    request succeeded and the one not yet attempted, and the empty queue is
    what is persisted. *)
Lemma drain_step_same_object_counterexample :
  pendingReceipts (manager (after_attempts 0 first_succeeds (enqueue_all [A; A] fresh)))
  = [A; A]
  /\ succeeded (first_succeeds 0%nat) = true
  /\ pendingReceipts (manager (after_attempts 1 first_succeeds (enqueue_all [A; A] fresh)))
     = []
  /\ getItem KEY (world (after_attempts 1 first_succeeds (enqueue_all [A; A] fresh)))
     = Some (js "[]")
  /\ pendingReceipts (manager (after_attempts 1 first_succeeds (enqueue_all [A; A] fresh)))
     <> [A].
Proof. repeat split; try (vm_compute; reflexivity). vm_compute. discriminate. Qed.

(** *** Enqueueing *)

(** C5.  [storeReceiptOffline] puts the receipt after the entries already
    queued, which stay as they were and in their order, writes the new queue
    to storage at once, and adds one offline indicator to the page whatever
    the state; nothing else changes.  A queue of two entries becomes a queue
    of three with the receipt last. *)
Theorem storeReceiptOffline_appends (r : entry) (st : State) :
  pendingReceipts (manager (storeReceiptOffline r st)) = pendingReceipts (manager st) ++ [r]
  /\ take (length (pendingReceipts (manager st)))
       (pendingReceipts (manager (storeReceiptOffline r st)))
     = pendingReceipts (manager st)
  /\ getItem KEY (world (storeReceiptOffline r st))
     = Some (stringify (JArr (payloads (pendingReceipts (manager st) ++ [r]))))
  /\ bodyChildren (world (storeReceiptOffline r st))
     = bodyChildren (world st) ++ [offlineIndicator]
  /\ isOnline (manager (storeReceiptOffline r st)) = isOnline (manager st)
  /\ bodyClasses (world (storeReceiptOffline r st)) = bodyClasses (world st)
  /\ trace (world (storeReceiptOffline r st)) = trace (world st)
  /\ (forall a b, pendingReceipts (manager st) = [a; b] ->
        pendingReceipts (manager (storeReceiptOffline r st)) = [a; b; r]).
Proof.
  repeat split.
  - cbn [storeReceiptOffline showOfflineNotification with_world set_pendingReceipts
         manager pendingReceipts].
    now rewrite take_app_length.
  - apply getItem_save.
  - intros a b E. cbn [storeReceiptOffline showOfflineNotification with_world
                        set_pendingReceipts manager pendingReceipts].
    now rewrite E.
Qed.

Lemma storeReceiptOffline_appends_witness :
  pendingReceipts (manager (storeReceiptOffline C (enqueue_all [A; B] fresh))) = [A; B; C].
Proof.
  apply (storeReceiptOffline_appends C (enqueue_all [A; B] fresh)). reflexivity.
Defined.

Lemma enqueue_all_queue rs : forall st,
  pendingReceipts (manager (enqueue_all rs st)) = pendingReceipts (manager st) ++ rs.
Proof.
  induction rs as [|r rs IH]; intros st; simpl; [now rewrite app_nil_r|].
  unfold enqueue_all in *. rewrite IH.
  cbn [storeReceiptOffline showOfflineNotification with_world set_pendingReceipts
       manager pendingReceipts].
  now rewrite <- app_assoc.
Qed.

Lemma enqueue_all_storage rs : forall st,
  rs <> [] ->
  getItem KEY (world (enqueue_all rs st))
  = Some (stringify (JArr (payloads (pendingReceipts (manager st) ++ rs)))).
Proof.
  induction rs as [|r rs IH]; intros st Hne; [congruence|].
  destruct rs as [|r' rs'].
  - apply getItem_save.
  - change (enqueue_all (r :: r' :: rs') st)
      with (enqueue_all (r' :: rs') (storeReceiptOffline r st)).
    rewrite IH by discriminate.
    cbn [storeReceiptOffline showOfflineNotification with_world set_pendingReceipts
         manager pendingReceipts].
    now rewrite <- app_assoc.
Qed.

(** C3, as amended.  For receipts that are plain JSON data, which is to
    say that every number in them is finite: what [save] writes, [load]
    reads back, entry for entry and in order; after any sequence of enqueue
    calls the persisted queue is the queue in memory, the earlier entries
    followed by the enqueued ones; and where the stored array is plain
    data, saving what [load] returned leaves what [load] returns
    unchanged. *)
Theorem save_then_load (q rs : list entry) (st : State) (w w0 : World) (xs : list json) :
  plain_queue q = true ->
  plain_queue (pendingReceipts (manager st)) = true ->
  plain_queue rs = true -> rs <> [] ->
  load w0 = Some (JArr xs) -> plain (JArr xs) = true ->
  load (save q w) = Some (JArr (payloads q))
  /\ pendingReceipts (manager (enqueue_all rs st)) = pendingReceipts (manager st) ++ rs
  /\ load (world (enqueue_all rs st))
     = Some (JArr (payloads (pendingReceipts (manager st) ++ rs)))
  /\ load (save (fresh_entries xs) w0) = load w0.
Proof.
  intros Hq Hst Hrs Hne Hw0 Hxs. split; [now apply load_save|].
  split; [apply enqueue_all_queue|]. split.
  - unfold load. rewrite enqueue_all_storage by exact Hne.
    change (JSON.parse (stringify (JArr (payloads (pendingReceipts (manager st) ++ rs))))
            = Some (JArr (payloads (pendingReceipts (manager st) ++ rs)))).
    apply parse_stringify, plain_queue_payloads.
    rewrite plain_queue_app. now rewrite Hst, Hrs.
  - rewrite load_save_text, payloads_fresh_entries, Hw0.
    now apply parse_stringify.
Qed.

Lemma save_then_load_witness :
  load (save [A; B] empty_world) = Some (JArr (payloads [A; B]))
  /\ pendingReceipts (manager (enqueue_all [B; C] (enqueue_all [A] fresh))) = [A] ++ [B; C]
  /\ load (world (enqueue_all [B; C] (enqueue_all [A] fresh)))
     = Some (JArr (payloads ([A] ++ [B; C])))
  /\ load (save (fresh_entries (payloads [A; C])) (world (enqueue_all [A; C] fresh)))
     = load (world (enqueue_all [A; C] fresh)).
Proof.
  apply (save_then_load [A; B] [B; C] (enqueue_all [A] fresh) empty_world
           (world (enqueue_all [A; C] fresh)) (payloads [A; C]));
    try (vm_compute; reflexivity).
  discriminate.
Defined.

(** C3 fails as stated.  The receipt of a valid form whose quantity reads
    [1e400] holds the number [Infinity], which [JSON.stringify] writes as
    [null]: once enqueued it is in the queue in memory, and [load] returns
    a receipt with [null] for the quantity, which is not the entry that was
    saved.  And a stored [[1e400]] loads as [Infinity]; saving what was
    loaded stores [[null]], so what [load] returns has changed. *)
Lemma save_load_infinity_counterexample :
  payload overflowing
  = CreateReceipt.receipt_json (FormSpec.payload_of (CreateReceipt.form overflow_page))
  /\ FormSpec.form_ok (CreateReceipt.form overflow_page)
  /\ pendingReceipts (manager (enqueue_all [overflowing] fresh)) = [overflowing]
  /\ load (world (enqueue_all [overflowing] fresh))
     = Some (JArr [nullify (payload overflowing)])
  /\ load (world (enqueue_all [overflowing] fresh)) <> Some (JArr (payloads [overflowing]))
  /\ load (setItem KEY (js "[1e400]") empty_world) = Some (JArr [JNum (Infinity false)])
  /\ load (save (fresh_entries [JNum (Infinity false)])
             (setItem KEY (js "[1e400]") empty_world))
     = Some (JArr [JNull]).
Proof.
  split; [reflexivity|]. split.
  - split; [|discriminate]. constructor; [|constructor].
    repeat split; vm_compute; discriminate.
  - repeat split; try (vm_compute; reflexivity). vm_compute. discriminate.
Qed.

(** *** Connectivity *)

Lemma handleOffline_sync_calls st :
  sync_calls (world (handleOffline st)) = sync_calls (world st).
Proof. reflexivity. Qed.

Lemma handleOnline_sync_calls net st :
  sync_calls (world (handleOnline net st)) = S (sync_calls (world st)).
Proof.
  unfold handleOnline, syncPendingReceipts.
  change (sync_calls (world (with_world (classList_remove (js "offline")) ?s)))
    with (sync_calls (world s)).
  rewrite sync_loop_sync_calls. unfold sync_calls. simpl.
  rewrite List.filter_app, length_app. simpl. lia.
Qed.

(** C7.  Every [online] event runs one drain pass.  [handleOnline] calls
    [syncPendingReceipts] exactly once, and that call makes one request for
    every entry of the queue, in order, and leaves the queue without the
    entries that are [===] to one whose request succeeded; so the handler of
    an [online] event that follows any events does this to the queue of
    that moment, while an [offline] event calls nothing and requests
    nothing, and over any sequence of events the calls are as many as the
    [online] events.  With an empty queue the call makes no request and
    leaves queue and storage as they are. *)
Theorem online_triggers_one_drain (evs : list window_event) (net : nat -> fetch_result)
    (st : State) :
  sync_calls (world (handleOnline net st)) = S (sync_calls (world st))
  /\ trace (world (handleOnline net st))
     = trace (world st) ++ SyncCall :: drain_effects (pendingReceipts (manager st)) 0 net
  /\ requests (world (handleOnline net st))
     = (requests (world st) + length (pendingReceipts (manager st)))%nat
  /\ pendingReceipts (manager (handleOnline net st))
     = filter (none_of (synced (pendingReceipts (manager st)) 0 net))
         (pendingReceipts (manager st))
  /\ run (evs ++ [Online net]) st = handleOnline net (run evs st)
  /\ trace (world (run (evs ++ [Offline]) st)) = trace (world (run evs st))
  /\ sync_calls (world (run evs st))
     = (sync_calls (world st) + length (List.filter is_online_event evs))%nat
  /\ (pendingReceipts (manager st) = [] ->
      handleOnline net st
      = with_world (classList_remove (js "offline"))
          (with_world (emit SyncCall) (set_isOnline true st))
      /\ requests (world (handleOnline net st)) = requests (world st)
      /\ pendingReceipts (manager (handleOnline net st)) = []
      /\ localStorage (world (handleOnline net st)) = localStorage (world st)).
Proof.
  assert (Ht : trace (world (handleOnline net st))
               = trace (world st)
                 ++ SyncCall :: drain_effects (pendingReceipts (manager st)) 0 net).
  { unfold handleOnline, syncPendingReceipts.
    cbn [with_world world classList_remove trace]. rewrite sync_loop_trace.
    cbn [with_world world emit trace set_isOnline manager pendingReceipts].
    now rewrite <- app_assoc. }
  split; [apply handleOnline_sync_calls|]. split; [exact Ht|]. split; [|split].
  - unfold requests. rewrite Ht, List.filter_app, length_app.
    cbn [List.filter is_fetch]. now rewrite drain_effects_requests, length_map.
  - unfold handleOnline, syncPendingReceipts.
    cbn [with_world manager]. now rewrite sync_loop_filters.
  - split; [unfold run; now rewrite fold_left_app|].
    split; [unfold run; now rewrite fold_left_app|]. split.
    + clear Ht. revert st. induction evs as [|ev evs IH]; intros st; [simpl; lia|].
      change (run (ev :: evs) st) with (run evs (dispatch ev st)).
      rewrite IH.
      destruct ev as [net'|]; cbn [dispatch List.filter is_online_event length].
      * rewrite handleOnline_sync_calls. lia.
      * rewrite handleOffline_sync_calls. lia.
    + intros E. unfold handleOnline, syncPendingReceipts.
      cbn [set_isOnline manager pendingReceipts]. rewrite E. cbn [sync_loop].
      repeat split.
      * unfold requests. simpl. rewrite List.filter_app, length_app. simpl. lia.
      * simpl. exact E.
Qed.

Lemma online_triggers_one_drain_witness :
  requests (world (handleOnline second_fails fresh)) = requests (world fresh)
  /\ requests (world (handleOnline second_fails three_queued))
     = (requests (world three_queued) + 3)%nat.
Proof.
  destruct (online_triggers_one_drain [Offline; Online second_fails] second_fails fresh)
    as (_ & _ & _ & _ & _ & _ & _ & H).
  destruct (online_triggers_one_drain [] second_fails three_queued)
    as (_ & _ & H3 & _).
  split; [now apply H|exact H3].
Defined.

End OfflineClaims.

(** * The receipt form *)

Module FormFacts.
Import ParseSpec.
Import CreateReceipt FormSpec.

Lemma le0_gt0 x : isNaN x = false -> le0 x = negb (gt0 x).
Proof. destruct x as [|neg|neg [|d s] n]; simpl; try discriminate; now destruct neg. Qed.

Lemma lt0_ge0 x : isNaN x = false -> lt0 x = negb (ge0 x).
Proof. destruct x as [|neg|neg [|d s] n]; simpl; try discriminate; now destruct neg. Qed.

Lemma is_empty_true (s : jstring) : is_empty s = true <-> s = [].
Proof. destruct s; simpl; split; congruence. Qed.

(** The test of the script is the negation of [row_ok]. *)
Lemma row_invalid_false r : row_invalid r = false <-> row_ok r.
Proof.
  unfold row_invalid, bad_quantity, bad_price, row_ok.
  destruct (is_empty (trim (name_value r))) eqn:En.
  - apply is_empty_true in En. simpl. split; [discriminate|]. intros [H _]. congruence.
  - assert (Hn : trim (name_value r) <> []).
    { intros E. apply is_empty_true in E. congruence. }
    simpl. destruct (isNaN (parseFloat (quantity_value r))) eqn:Eq; simpl.
    { split; [discriminate|]. intros (_ & H & _). discriminate. }
    rewrite (le0_gt0 _ Eq).
    destruct (gt0 (parseFloat (quantity_value r))); simpl.
    2:{ split; [discriminate|]. intros (_ & _ & H & _). discriminate. }
    destruct (isNaN (parseFloat (price_value r))) eqn:Ep; simpl.
    { split; [discriminate|]. intros (_ & _ & _ & H & _). discriminate. }
    rewrite (lt0_ge0 _ Ep).
    destruct (ge0 (parseFloat (price_value r))); simpl.
    + split; [intros _; repeat split; auto|reflexivity].
    + split; [discriminate|]. intros (_ & _ & _ & _ & H). discriminate.
Qed.

Lemma all_rows_valid rs :
  forallb (fun r => negb (row_invalid r)) rs = true <-> Forall row_ok rs.
Proof.
  induction rs as [|r rs IH]; simpl; [split; auto|].
  rewrite andb_true_iff, negb_true_iff, row_invalid_false, IH.
  split; [intros [? ?]; now constructor|now inversion 1].
Qed.

Lemma collect_items_all rs :
  Forall row_ok rs -> collect_items rs = map item_of_row rs.
Proof.
  unfold collect_items. induction 1 as [|r rs Hr _ IH]; [reflexivity|].
  apply row_invalid_false in Hr. rewrite filter_cons.
  destruct (decide (negb (row_invalid r))) as [_|Hn].
  - simpl. now rewrite IH.
  - rewrite Hr in Hn. now destruct Hn.
Qed.

(** The guard at the top of [generateReceipt] lets a form through exactly
    when it is valid. *)
Lemma guard_passes rs :
  negb (forallb (fun r => negb (row_invalid r)) rs)
  || (length (collect_items rs) =? 0)%nat = false
  <-> Forall row_ok rs /\ rs <> [].
Proof.
  rewrite orb_false_iff, negb_false_iff, all_rows_valid. split.
  - intros [Hall Hlen]. split; [exact Hall|]. intros ->. discriminate.
  - intros [Hall Hne]. split; [exact Hall|].
    rewrite (collect_items_all _ Hall), length_map.
    destruct rs; [congruence|reflexivity].
Qed.

Lemma highlight_values r : row_values (highlight r) = row_values r.
Proof. unfold highlight. now destruct (row_invalid r). Qed.

Lemma validateForm_values rs : map row_values (snd (validateForm rs)) = map row_values rs.
Proof.
  simpl. rewrite map_map. apply map_ext. apply highlight_values.
Qed.

(** *** The receipts of the form are plain JSON data *)

(** What [parseFloat] returns is NaN, an infinity, or a Number in canonical
    form. *)
Lemma parseFloat_rounded s :
  parseFloat s = NaN \/ (exists neg, parseFloat s = Infinity neg)
  \/ exists x, parseFloat s = round64 x.
Proof.
  unfold parseFloat.
  destruct (match trim_start s with
            | [] => (false, trim_start s)
            | c :: r => if c =? 45 then (true, r)
                        else if c =? 43 then (false, r) else (false, trim_start s)
            end) as [neg s1].
  destruct (strip_prefix (js "Infinity") s1); [right; left; eauto|].
  destruct (span_digits s1) as [ip s2].
  destruct (match s2 with
            | [] => ([], s2)
            | c :: r => if c =? 46 then span_digits r else ([], s2)
            end) as [fp s3].
  destruct (ip ++ fp); [now left|].
  destruct (parse_exponent s3) as [[e r]|]; right; right; eauto.
Qed.

Lemma parseFloat_canonical s : canonical (parseFloat s) = true.
Proof.
  destruct (parseFloat_rounded s) as [->|[[neg ->]|[x ->]]]; try reflexivity.
  apply NumFacts.round64_canonical.
Qed.

Lemma parseFloat_is_double s : is_double (parseFloat s) = true.
Proof.
  destruct (parseFloat_rounded s) as [->|[[neg ->]|[x ->]]];
    [reflexivity|now apply bool_decide_eq_true_2|apply NumFacts.is_double_round64].
Qed.

Lemma item_json_plain i :
  isFinite (quantity i) = true -> canonical (quantity i) = true ->
  is_double (quantity i) = true ->
  isFinite (price i) = true -> canonical (price i) = true ->
  is_double (price i) = true ->
  plain (item_json i) = true.
Proof.
  intros Hq1 Hq2 Hq3 Hp1 Hp2 Hp3. unfold item_json. cbn [plain forallb snd].
  rewrite Hq1, Hq2, Hq3, Hp1, Hp2, Hp3. reflexivity.
Qed.

(** The payload of a form whose quantities and prices are finite is plain,
    so it is among the receipts that storage gives back as they were. *)
Lemma payload_plain f :
  Forall (fun r => isFinite (parseFloat (quantity_value r)) = true
                   /\ isFinite (parseFloat (price_value r)) = true) (rows f) ->
  plain (receipt_json (payload_of f)) = true.
Proof.
  intros H. unfold receipt_json, payload_of. cbn [plain forallb snd items].
  apply andb_true_iff. split; [reflexivity|].
  rewrite !andb_true_r. apply ValueRoundTrip.Forall_forallb.
  rewrite Forall_forall in H. apply Forall_forall. intros j Hj.
  apply list_elem_of_In, in_map_iff in Hj as (i & <- & Hi).
  apply in_map_iff in Hi as (r & <- & Hr).
  destruct (H r) as [Hq Hp]; [now apply list_elem_of_In|].
  apply item_json_plain; cbn [item_of_row quantity price];
    auto using parseFloat_canonical, parseFloat_is_double.
Qed.

End FormFacts.

Module FormClaims.
Import ParseSpec.
Import CreateReceipt FormSpec FormFacts Samples.

Lemma form_ok_dec f : {form_ok f} + {~ form_ok f}.
Proof.
  destruct (negb (forallb (fun r => negb (row_invalid r)) (rows f))
            || (length (collect_items (rows f)) =? 0)%nat) eqn:E.
  - right. intros H. apply guard_passes in H. unfold form_ok in *. congruence.
  - left. now apply guard_passes.
Qed.

Lemma generateReceipt_invalid res p :
  ~ form_ok (form p) ->
  generateReceipt res p = page_emit (Alert validation_message) (highlighted p).
Proof.
  intros H. unfold generateReceipt, validateForm. cbn [valid valid_items].
  destruct (negb (forallb (fun r => negb (row_invalid r)) (rows (form p)))
            || (length (collect_items (rows (form p))) =? 0)%nat) eqn:E; [reflexivity|].
  apply guard_passes in E. contradiction.
Qed.

Lemma receiptData_payload f rs :
  Forall row_ok (rows f) ->
  receiptData {| customerName := customerName f; customerPIN := customerPIN f;
                 paymentMethod := paymentMethod f; rows := rs |}
    {| valid := true; valid_items := collect_items (rows f) |}
  = payload_of f.
Proof.
  intros H. unfold receiptData, payload_of, or_default. cbn.
  rewrite (collect_items_all _ H). now destruct (customerName f).
Qed.

Lemma generateReceipt_valid res p :
  form_ok (form p) ->
  generateReceipt res p
  = set_button idle_button
      (submit (stringify (receipt_json (payload_of (form p)))) res
         (set_button loading_button (highlighted p))).
Proof.
  intros H. pose proof H as [Hall Hne]. apply guard_passes in H.
  unfold generateReceipt, validateForm. cbn [valid valid_items]. rewrite H.
  unfold highlighted, set_rows at 1. cbn [form].
  assert (Hv : forallb (fun r => negb (row_invalid r)) (rows (form p)) = true)
    by now apply all_rows_valid.
  rewrite Hv. rewrite (receiptData_payload (form p) _ Hall). reflexivity.
Qed.

Lemma part000_generateReceipt_invalid res p :
  ~ form_ok (form p) ->
  Part000.generateReceipt res p
  = page_emit (Alert (js "Please fill in all item fields correctly.")) p.
Proof.
  intros H. unfold Part000.generateReceipt, Part000.validate_inline. cbn [valid valid_items].
  destruct (negb (forallb (fun r => negb (row_invalid r)) (rows (form p)))
            || (length (collect_items (rows (form p))) =? 0)%nat) eqn:E; [reflexivity|].
  apply guard_passes in E. contradiction.
Qed.

Lemma part000_generateReceipt_valid res p :
  form_ok (form p) ->
  Part000.generateReceipt res p
  = submit (stringify (receipt_json (payload_of (form p)))) res p.
Proof.
  intros H. pose proof H as [Hall Hne]. apply guard_passes in H.
  unfold Part000.generateReceipt, Part000.validate_inline. cbn [valid valid_items].
  rewrite H.
  assert (Hv : forallb (fun r => negb (row_invalid r)) (rows (form p)) = true)
    by now apply all_rows_valid.
  rewrite Hv. f_equal. f_equal. f_equal.
  unfold receiptData, payload_of, or_default. cbn [valid_items].
  rewrite (collect_items_all _ Hall). now destruct (customerName (form p)).
Qed.

Lemma submit_trace body res p :
  page_trace (submit body res p)
  = page_trace p ++ Fetch (js "/create-receipt") body :: response_effects res.
Proof.
  unfold page_trace. destruct res; simpl; rewrite <- ?app_assoc; reflexivity.
Qed.

Lemma submit_offline_manager body res p :
  Offline.manager (offline (submit body res p)) = Offline.manager (offline p).
Proof. now destruct res. Qed.

Lemma submit_storage body res p :
  localStorage (Offline.world (offline (submit body res p)))
  = localStorage (Offline.world (offline p)).
Proof. now destruct res. Qed.

Lemma submit_bodyChildren body res p :
  bodyChildren (Offline.world (offline (submit body res p)))
  = bodyChildren (Offline.world (offline p)).
Proof. now destruct res. Qed.

Lemma requests_app (w : World) t :
  length (List.filter QueueSpec.is_fetch (trace w ++ t))
  = (QueueSpec.requests w + length (List.filter QueueSpec.is_fetch t))%nat.
Proof. unfold QueueSpec.requests. now rewrite List.filter_app, length_app. Qed.

Lemma response_effects_no_fetch res :
  List.filter QueueSpec.is_fetch (response_effects res) = [].
Proof. now destruct res. Qed.

(** C8, as amended.  [generateReceipt] sends a request exactly when every
    row has a non-empty trimmed name, a numeric quantity above zero and a
    numeric price of zero or more, and there is at least one row; otherwise
    it makes no request, shows the validation message, and leaves the values
    of all fields, the button, the modal and the offline queue as they were,
    the only change to the form being the borders that validation colours.
    The field values are unchanged in both cases. *)
Theorem generateReceipt_requests_only_valid (res : submit_result) (p : Page) :
  (form_ok (form p) -> page_requests (generateReceipt res p) = S (page_requests p))
  /\ (~ form_ok (form p) ->
        page_requests (generateReceipt res p) = page_requests p
        /\ page_trace (generateReceipt res p) = page_trace p ++ [Alert validation_message]
        /\ generateReceipt res p = page_emit (Alert validation_message) (highlighted p))
  /\ field_values (form (generateReceipt res p)) = field_values (form p).
Proof.
  split; [|split].
  - intros H. rewrite (generateReceipt_valid res p H).
    unfold page_requests, QueueSpec.requests.
    change (trace (Offline.world (offline (set_button idle_button ?q))))
      with (page_trace q).
    rewrite submit_trace. unfold page_trace.
    cbn [set_button highlighted set_rows offline].
    rewrite List.filter_app, length_app. cbn [List.filter QueueSpec.is_fetch length].
    rewrite response_effects_no_fetch. simpl. lia.
  - intros H. rewrite (generateReceipt_invalid res p H). repeat split.
    unfold page_requests, QueueSpec.requests. simpl.
    rewrite List.filter_app, length_app. simpl. lia.
  - destruct (form_ok_dec (form p)) as [H|H].
    + rewrite (generateReceipt_valid res p H).
      destruct res; unfold field_values; simpl;
        rewrite map_map; f_equal; apply map_ext, highlight_values.
    + rewrite (generateReceipt_invalid res p H).
      unfold field_values; simpl. rewrite map_map. f_equal. apply map_ext, highlight_values.
Qed.

Lemma generateReceipt_requests_only_valid_witness :
  page_requests (generateReceipt (Failed []) nameless) = page_requests nameless.
Proof.
  apply (generateReceipt_requests_only_valid (Failed []) nameless).
  intros [H _]. inversion H as [|? ? [Hn _] _]. apply Hn. reflexivity.
Defined.

(** C8 fails as stated: the form is invalid, no request is made, and yet the
    form is not left as it was: the border of the name field is now red. *)
Lemma generateReceipt_recolours_counterexample :
  ~ form_ok (form nameless)
  /\ page_requests (generateReceipt (Failed []) nameless) = page_requests nameless
  /\ map name_border (rows (form nameless)) = [ [] ]
  /\ map name_border (rows (form (generateReceipt (Failed []) nameless))) = [js "red"]
  /\ form (generateReceipt (Failed []) nameless) <> form nameless.
Proof.
  split.
  - intros [H _]. inversion H as [|? ? [Hn _] _]. apply Hn. reflexivity.
  - repeat split; try reflexivity. vm_compute. discriminate.
Qed.

(** C9, as amended.  In both versions of the script, the request of a valid
    form carries the JSON text of the payload whose [customer_name] is
    ['Walk-in Customer'] when the customer-name field is empty and the value
    of the field otherwise, whose [customer_pin] and [payment_method] are the
    values of their fields as they are, and whose [items] are the rows in
    order, each with its name trimmed and its quantity and price as
    [parseFloat] reads them from their fields. *)
Theorem payload_of_the_form (res : submit_result) (p : Page) :
  form_ok (form p) ->
  page_trace (generateReceipt res p)
  = page_trace p
    ++ Fetch (js "/create-receipt") (stringify (receipt_json (payload_of (form p))))
    :: response_effects res
  /\ page_trace (Part000.generateReceipt res p)
     = page_trace p
       ++ Fetch (js "/create-receipt") (stringify (receipt_json (payload_of (form p))))
       :: response_effects res
  /\ (customerName (form p) = [] ->
      customer_name (payload_of (form p)) = js "Walk-in Customer")
  /\ (customerName (form p) <> [] ->
      customer_name (payload_of (form p)) = customerName (form p))
  /\ customer_pin (payload_of (form p)) = customerPIN (form p)
  /\ payment_method (payload_of (form p)) = paymentMethod (form p)
  /\ items (payload_of (form p))
     = map (fun r => {| name := trim (name_value r);
                        quantity := parseFloat (quantity_value r);
                        price := parseFloat (price_value r) |}) (rows (form p)).
Proof.
  intros H. split; [|split].
  - rewrite (generateReceipt_valid res p H).
    change (page_trace (set_button idle_button ?q)) with (page_trace q).
    now rewrite submit_trace.
  - rewrite (part000_generateReceipt_valid res p H). apply submit_trace.
  - repeat split.
    + intros E. unfold payload_of. cbn. now rewrite E.
    + intros E. unfold payload_of. cbn. now destruct (customerName (form p)).
Qed.

Lemma one_tea_ok : form_ok (form one_tea).
Proof.
  split; [|discriminate]. constructor; [|constructor].
  repeat split. vm_compute. discriminate.
Qed.

Lemma payload_of_the_form_witness :
  page_trace (generateReceipt (Refused (js "no stock")) one_tea)
  = page_trace one_tea
    ++ Fetch (js "/create-receipt") (stringify (receipt_json (payload_of (form one_tea))))
    :: response_effects (Refused (js "no stock")).
Proof.
  apply (payload_of_the_form (Refused (js "no stock")) one_tea). exact one_tea_ok.
Defined.

(** C9 fails as stated: the name field of the row holds [" Tea "] with a
    space on either side and its quantity field the text ["2"]; the item of
    the payload is named ["Tea"] and its quantity is the number two, so the
    items are not the field values as they are. *)
Lemma payload_items_counterexample :
  form_ok (form one_tea)
  /\ map row_values (rows (form one_tea)) = [(js " Tea ", js "2", js "12.5")]
  /\ items (payload_of (form one_tea))
     = [{| name := js "Tea"; quantity := Finite false [2] 1;
           price := Finite false [1; 2; 5] 2 |}]
  /\ map name (items (payload_of (form one_tea)))
     <> map name_value (rows (form one_tea))
  /\ page_trace (generateReceipt (Succeeded {| receipt_id := js "7"; result_body := JNull |})
                   one_tea)
     = [Fetch (js "/create-receipt") (stringify (receipt_json (payload_of (form one_tea))))].
Proof.
  split; [exact one_tea_ok|]. repeat split; try (vm_compute; reflexivity).
  vm_compute. discriminate.
Qed.

(** C6, as amended.  When the request of [generateReceipt] fails, in either
    version of the script, nothing is enqueued: the queue of the offline
    manager, the storage and the elements of the page are as before; for a
    valid form the script has made the request and then shows the alert
    ['Error generating receipt: '] followed by the message of the error. *)
Theorem failed_submission_is_not_enqueued (message : jstring) (p : Page) :
  Offline.manager (offline (generateReceipt (Failed message) p)) = Offline.manager (offline p)
  /\ localStorage (Offline.world (offline (generateReceipt (Failed message) p)))
     = localStorage (Offline.world (offline p))
  /\ bodyChildren (Offline.world (offline (generateReceipt (Failed message) p)))
     = bodyChildren (Offline.world (offline p))
  /\ Offline.manager (offline (Part000.generateReceipt (Failed message) p))
     = Offline.manager (offline p)
  /\ localStorage (Offline.world (offline (Part000.generateReceipt (Failed message) p)))
     = localStorage (Offline.world (offline p))
  /\ bodyChildren (Offline.world (offline (Part000.generateReceipt (Failed message) p)))
     = bodyChildren (Offline.world (offline p))
  /\ (form_ok (form p) ->
      page_trace (generateReceipt (Failed message) p)
      = page_trace p
        ++ [Fetch (js "/create-receipt") (stringify (receipt_json (payload_of (form p))));
            Alert (error_prefix ++ message)]
      /\ page_trace (Part000.generateReceipt (Failed message) p)
         = page_trace p
           ++ [Fetch (js "/create-receipt") (stringify (receipt_json (payload_of (form p))));
               Alert (error_prefix ++ message)]
      /\ generateReceiptBtn (generateReceipt (Failed message) p) = idle_button).
Proof.
  destruct (form_ok_dec (form p)) as [H|H].
  - rewrite (generateReceipt_valid _ p H), (part000_generateReceipt_valid _ p H).
    repeat split; try reflexivity.
    + change (page_trace (set_button idle_button ?q)) with (page_trace q).
      now rewrite submit_trace.
    + now rewrite submit_trace.
  - rewrite (generateReceipt_invalid _ p H), (part000_generateReceipt_invalid _ p H).
    repeat split; try reflexivity; contradiction.
Qed.

Lemma failed_submission_is_not_enqueued_witness :
  page_trace (generateReceipt (Failed (js "Failed to fetch")) one_tea)
  = page_trace one_tea
    ++ [Fetch (js "/create-receipt") (stringify (receipt_json (payload_of (form one_tea))));
        Alert (error_prefix ++ js "Failed to fetch")].
Proof.
  apply (failed_submission_is_not_enqueued (js "Failed to fetch") one_tea).
  exact one_tea_ok.
Defined.

(** C6 fails as stated: the form is valid and the request rejects, as it
    does without a connection; the receipt is not in the queue, nothing is
    stored, and no offline indicator is shown: the script shows an alert and
    the receipt is gone. *)
Lemma failed_submission_counterexample :
  form_ok (form one_tea)
  /\ Offline.pendingReceipts
       (Offline.manager (offline (generateReceipt (Failed (js "Failed to fetch")) one_tea)))
     = []
  /\ getItem Offline.KEY
       (Offline.world (offline (generateReceipt (Failed (js "Failed to fetch")) one_tea)))
     = None
  /\ bodyChildren
       (Offline.world (offline (generateReceipt (Failed (js "Failed to fetch")) one_tea)))
     = []
  /\ page_trace (generateReceipt (Failed (js "Failed to fetch")) one_tea)
     = [Fetch (js "/create-receipt")
          (stringify (receipt_json (payload_of (form one_tea))));
        Alert (js "Error generating receipt: Failed to fetch")].
Proof.
  split; [exact one_tea_ok|]. repeat split; vm_compute; reflexivity.
Qed.

End FormClaims.

(** * The live dashboard *)

Module DashboardClaims.
Import ParseSpec.
Import Part000.

Section Activity.
Variable toLocaleString : number -> jstring.
Variables (time : jstring) (receipt : Receipt).

Lemma children_elements nodes :
  Forall (fun n => is_element n = true) nodes -> children nodes = nodes.
Proof.
  unfold children. induction 1 as [|n nodes Hn _ IH]; [reflexivity|].
  rewrite filter_cons. destruct (decide (is_element n = true)); [|contradiction].
  now rewrite IH.
Qed.

Lemma removelast_length {A} (l : list A) : length (removelast l) = pred (length l).
Proof.
  induction l as [|a [|b l] IH]; [reflexivity|reflexivity|].
  change (removelast (a :: b :: l)) with (a :: removelast (b :: l)).
  simpl length in *. rewrite IH. reflexivity.
Qed.

Lemma removelast_elements (l : list node) :
  Forall (fun n => is_element n = true) l ->
  Forall (fun n => is_element n = true) (removelast l).
Proof.
  induction 1 as [|a l Ha Hl IH]; [constructor|].
  destruct l as [|b l]; [constructor|].
  change (removelast (a :: b :: l)) with (a :: removelast (b :: l)).
  now constructor.
Qed.

(** While the container holds elements only, the limit is kept. *)
Lemma addLiveActivity_elements_only nodes :
  Forall (fun n => is_element n = true) nodes ->
  (length (children nodes) <= 10)%nat ->
  Forall (fun n => is_element n = true)
    (addLiveActivity toLocaleString time receipt nodes)
  /\ (length (children (addLiveActivity toLocaleString time receipt nodes)) <= 10)%nat.
Proof.
  intros Hel Hlen. unfold addLiveActivity.
  assert (Hins : Forall (fun n => is_element n = true)
                   (ElementNode (activityItem toLocaleString time receipt) :: nodes))
    by now constructor.
  rewrite (children_elements _ Hins). rewrite (children_elements _ Hel) in Hlen.
  destruct (Nat.ltb_spec 10 (length (ElementNode (activityItem toLocaleString time receipt) :: nodes))).
  - split; [now apply removelast_elements|].
    rewrite children_elements by now apply removelast_elements.
    rewrite removelast_length. simpl. lia.
  - split; [exact Hins|]. rewrite (children_elements _ Hins). lia.
Qed.

Lemma addLiveActivity_below (nodes : list node) :
  (length (children nodes) < 10)%nat ->
  addLiveActivity toLocaleString time receipt nodes
  = ElementNode (activityItem toLocaleString time receipt) :: nodes.
Proof.
  intros H. unfold addLiveActivity.
  replace (children (ElementNode (activityItem toLocaleString time receipt) :: nodes))
    with (ElementNode (activityItem toLocaleString time receipt) :: children nodes)
    by reflexivity.
  destruct (Nat.ltb_spec 10 (length (ElementNode (activityItem toLocaleString time receipt)
                                        :: children nodes))) as [Hlt|_];
    [simpl in Hlt; lia|reflexivity].
Qed.

Lemma children_app (l1 l2 : list node) : children (l1 ++ l2) = children l1 ++ children l2.
Proof. apply filter_app. Qed.

Lemma addLiveActivity_eleven (nodes : list node) :
  Forall (fun n => is_element n = true) nodes -> length nodes = 11%nat ->
  Forall (fun n => is_element n = true) (addLiveActivity toLocaleString time receipt nodes)
  /\ length (addLiveActivity toLocaleString time receipt nodes) = 11%nat.
Proof.
  intros Hel Hlen. unfold addLiveActivity.
  assert (Hins : Forall (fun n => is_element n = true)
                   (ElementNode (activityItem toLocaleString time receipt) :: nodes))
    by now constructor.
  rewrite (children_elements _ Hins).
  destruct (Nat.ltb_spec 10 (length (ElementNode (activityItem toLocaleString time receipt)
                                        :: nodes))) as [_|Hge]; [|simpl in Hge; lia].
  split; [now apply removelast_elements|]. rewrite removelast_length. simpl. lia.
Qed.
End Activity.

Section Feed.
Variable toLocaleString : number -> jstring.

Lemma feed_app evs1 evs2 nodes :
  feed toLocaleString (evs1 ++ evs2) nodes
  = feed toLocaleString evs2 (feed toLocaleString evs1 nodes).
Proof. apply fold_left_app. Qed.

(** Up to ten events on a container that holds only a node that is not an
    element: the items pile up in front of it. *)
Lemma feed_up_to_ten (data : jstring) (evs : list (jstring * Receipt)) :
  (length evs <= 10)%nat ->
  exists items, feed toLocaleString evs [OtherNode data] = items ++ [OtherNode data]
                /\ Forall (fun n => is_element n = true) items
                /\ length items = length evs.
Proof.
  induction evs as [|ev evs IH] using rev_ind; intros Hlen.
  - exists []. repeat split. constructor.
  - rewrite length_app in Hlen. simpl in Hlen.
    destruct IH as (items & E & Hel & Hn); [lia|].
    rewrite feed_app, E. cbn [feed fold_left].
    rewrite addLiveActivity_below.
    + eexists (_ :: items). split; [reflexivity|]. split; [now constructor|].
      rewrite length_app. simpl. lia.
    + rewrite children_app, (children_elements _ Hel). simpl.
      rewrite length_app. simpl. lia.
Qed.

Lemma feed_eleven_stays (evs : list (jstring * Receipt)) : forall nodes,
  Forall (fun n => is_element n = true) nodes -> length nodes = 11%nat ->
  Forall (fun n => is_element n = true) (feed toLocaleString evs nodes)
  /\ length (feed toLocaleString evs nodes) = 11%nat.
Proof.
  induction evs as [|ev evs IH]; intros nodes Hel Hlen; [now split|].
  cbn [feed fold_left].
  destruct (addLiveActivity_eleven toLocaleString (fst ev) (snd ev) nodes Hel Hlen)
    as [Hel' Hlen'].
  now apply IH.
Qed.

(** C10 at its failing inputs.  Ten items followed by a node that is not an
    element, such as the white space that the markup of a page leaves in a
    container: the call inserts the new item, counts eleven, removes the
    last child, which is that node, and eleven items remain.  And a
    container that starts with such a node alone holds eleven items after
    eleven events and after every event from then on. *)
Theorem addLiveActivity_trailing_text (time : jstring) (receipt : Receipt)
    (e : Element) (data : jstring) (evs : list (jstring * Receipt)) :
  length (children (replicate 10 (ElementNode e) ++ [OtherNode data])) = 10%nat
  /\ addLiveActivity toLocaleString time receipt
       (replicate 10 (ElementNode e) ++ [OtherNode data])
     = ElementNode (activityItem toLocaleString time receipt)
       :: replicate 10 (ElementNode e)
  /\ length (children (addLiveActivity toLocaleString time receipt
                         (replicate 10 (ElementNode e) ++ [OtherNode data])))
     = 11%nat
  /\ length (children [OtherNode data]) = 0%nat
  /\ ((11 <= length evs)%nat ->
      length (children (feed toLocaleString evs [OtherNode data])) = 11%nat).
Proof.
  repeat split. intros Hlen.
  rewrite <- (take_drop 10 evs), feed_app.
  destruct (feed_up_to_ten data (take 10 evs)) as (items & E & Hel & Hn).
  { rewrite length_take. lia. }
  rewrite length_take in Hn. rewrite E.
  destruct (drop 10 evs) as [|ev rest] eqn:Hdrop.
  { apply (f_equal length) in Hdrop. rewrite length_drop in Hdrop. simpl in Hdrop. lia. }
  cbn [feed fold_left].
  assert (Hstep : addLiveActivity toLocaleString (fst ev) (snd ev) (items ++ [OtherNode data])
                  = ElementNode (activityItem toLocaleString (fst ev) (snd ev)) :: items).
  { unfold addLiveActivity.
    replace (children (ElementNode (activityItem toLocaleString (fst ev) (snd ev))
                         :: items ++ [OtherNode data]))
      with (ElementNode (activityItem toLocaleString (fst ev) (snd ev))
              :: children (items ++ [OtherNode data])) by reflexivity.
    rewrite children_app, (children_elements _ Hel).
    change (children [OtherNode data]) with (@nil node). rewrite app_nil_r.
    destruct (Nat.ltb_spec 10 (length (ElementNode (activityItem toLocaleString (fst ev) (snd ev))
                                          :: items))) as [_|Hge];
      [|simpl in Hge; lia].
    rewrite app_comm_cons. apply removelast_last. }
  rewrite Hstep.
  destruct (feed_eleven_stays rest
              (ElementNode (activityItem toLocaleString (fst ev) (snd ev)) :: items))
    as [Hel' Hlen'].
  - now constructor.
  - simpl. lia.
  - change (fold_left _ rest ?n) with (feed toLocaleString rest n).
    now rewrite (children_elements _ Hel').
Qed.

End Feed.

Lemma addLiveActivity_trailing_text_witness :
  length (children
            (feed (fun _ => js "25")
               (replicate 12 (js "10:00", {| receipt_number := js "R1";
                                             total_amount := Finite false [2; 5] 2 |}))
               [OtherNode [10; 32; 32]])) = 11%nat.
Proof.
  apply (addLiveActivity_trailing_text (fun _ => js "25") []
           {| receipt_number := []; total_amount := NaN |}
           {| className := []; innerHTML := [] |}).
  simpl. lia.
Defined.

End DashboardClaims.

(** * More of offline.js: what a drain pass does in general, what the
      manager leaves alone, and what a reload finds *)

Module OfflineCoverage.
Import ParseSpec.
Import Offline QueueSpec DrainSpec Samples MoreSamples ParseFacts ValueRoundTrip OfflineFacts.

(** X1.  After a drain pass, run to its end, the queue in memory is the
    queue the pass started with, minus every entry that is [===] to an
    entry whose request succeeded.  This holds for every queue and every way the requests end;
    the pass never adds an entry and never reorders the queue, and it leaves
    the [isOnline] flag alone. *)
Theorem drain_removes_what_synced (net : nat -> fetch_result) (st : State) :
  pendingReceipts (manager (syncPendingReceipts net st))
  = filter (none_of (synced (pendingReceipts (manager st)) 0 net))
           (pendingReceipts (manager st))
  /\ sublist (pendingReceipts (manager (syncPendingReceipts net st)))
             (pendingReceipts (manager st))
  /\ isOnline (manager (syncPendingReceipts net st)) = isOnline (manager st).
Proof.
  assert (H : pendingReceipts (manager (syncPendingReceipts net st))
              = filter (none_of (synced (pendingReceipts (manager st)) 0 net))
                       (pendingReceipts (manager st)))
    by (unfold syncPendingReceipts; now rewrite sync_loop_filters).
  split; [exact H|]. split.
  - rewrite H. apply filter_bool_sublist.
  - unfold syncPendingReceipts. now rewrite sync_loop_isOnline.
Qed.

(** X2.  A drain pass makes one request for every entry of the queue it
    started with, in queue order, each to [/create-receipt] with the JSON
    text of the entry as its body, whatever the outcomes: a request that
    fails does not end the pass, and a rejected one adds one console error
    right after it. *)
Theorem drain_requests_every_entry (net : nat -> fetch_result) (st : State) :
  trace (world (syncPendingReceipts net st))
  = trace (world st)
    ++ SyncCall :: drain_effects (pendingReceipts (manager st)) 0 net
  /\ List.filter is_fetch (trace (world (syncPendingReceipts net st)))
     = List.filter is_fetch (trace (world st))
       ++ map request_of (pendingReceipts (manager st))
  /\ requests (world (syncPendingReceipts net st))
     = (requests (world st) + length (pendingReceipts (manager st)))%nat.
Proof.
  assert (H : trace (world (syncPendingReceipts net st))
              = trace (world st)
                ++ SyncCall :: drain_effects (pendingReceipts (manager st)) 0 net).
  { unfold syncPendingReceipts. rewrite sync_loop_trace. simpl.
    now rewrite <- app_assoc. }
  assert (H' : List.filter is_fetch (trace (world (syncPendingReceipts net st)))
               = List.filter is_fetch (trace (world st))
                 ++ map request_of (pendingReceipts (manager st))).
  { rewrite H, List.filter_app. cbn [List.filter is_fetch].
    now rewrite drain_effects_requests. }
  split; [exact H|]. split; [exact H'|].
  unfold requests. now rewrite H', length_app, length_map.
Qed.

(** X3.  A drain pass in which no request succeeds writes nothing: the
    storage and the queue are as before.  If at least one request succeeds,
    the storage at the end holds, under [pendingReceipts], the JSON text of
    the queue that is in memory at the end, and nothing else has changed in
    it.  Neither needs the storage to have agreed with the queue before. *)
Theorem drain_writes_the_final_queue (net : nat -> fetch_result) (st : State) :
  (synced (pendingReceipts (manager st)) 0 net = [] ->
     localStorage (world (syncPendingReceipts net st)) = localStorage (world st)
     /\ pendingReceipts (manager (syncPendingReceipts net st))
        = pendingReceipts (manager st))
  /\ (synced (pendingReceipts (manager st)) 0 net <> [] ->
        localStorage (world (syncPendingReceipts net st))
        = <[KEY := stringify (JArr (payloads
                     (pendingReceipts (manager (syncPendingReceipts net st)))))]>
            (localStorage (world st))).
Proof.
  pose proof (drain_storage net st) as Hs.
  split; intros H.
  - rewrite H in Hs. split; [exact Hs|].
    unfold syncPendingReceipts. rewrite sync_loop_filters.
    cbn [with_world manager]. rewrite H. apply filter_none_of_nil.
  - destruct (synced (pendingReceipts (manager st)) 0 net); [congruence|exact Hs].
Qed.

Lemma drain_writes_the_final_queue_witness :
  localStorage (world (syncPendingReceipts all_fail three_queued))
  = localStorage (world three_queued)
  /\ pendingReceipts (manager (syncPendingReceipts all_fail three_queued)) = [A; B; C].
Proof.
  apply (drain_writes_the_final_queue all_fail three_queued). reflexivity.
Defined.

(** X4.  If every request of a pass succeeds, the queue in memory is empty
    afterwards and the storage holds the text of the empty array, for every
    non-empty queue of plain receipts: the same object may be in the queue
    more than once, and the storage need not have agreed with the queue
    before. *)
Theorem drain_all_succeed_empties (net : nat -> fetch_result) (st : State) :
  plain_queue (pendingReceipts (manager st)) = true ->
  pendingReceipts (manager st) <> [] ->
  (forall i, (i < length (pendingReceipts (manager st)))%nat ->
     succeeded (net i) = true) ->
  pendingReceipts (manager (syncPendingReceipts net st)) = []
  /\ getItem KEY (world (syncPendingReceipts net st)) = Some (js "[]").
Proof.
  intros Hp Hne Hall.
  assert (Hs : synced (pendingReceipts (manager st)) 0 net = pendingReceipts (manager st)).
  { apply synced_all. intros j Hj. apply Hall. lia. }
  assert (Hq : pendingReceipts (manager (syncPendingReceipts net st)) = []).
  { unfold syncPendingReceipts. rewrite sync_loop_filters.
    cbn [with_world manager]. rewrite Hs.
    apply filter_none_kept. apply Forall_forall. intros x Hx.
    unfold none_of. apply not_true_is_false. intros Hf.
    apply forallb_Forall in Hf. rewrite Forall_forall in Hf.
    specialize (Hf x Hx). cbv beta in Hf.
    rewrite strict_eq_refl in Hf; [discriminate|].
    unfold plain_queue in Hp. apply forallb_Forall in Hp.
    rewrite Forall_forall in Hp. now apply Hp. }
  split; [exact Hq|].
  unfold getItem. rewrite drain_storage, Hs.
  destruct (pendingReceipts (manager st)) eqn:E; [congruence|].
  rewrite lookup_insert_eq. now rewrite Hq.
Qed.

Lemma drain_all_succeed_empties_witness :
  pendingReceipts (manager (syncPendingReceipts all_succeed (enqueue_all [A; B; A] fresh))) = []
  /\ getItem KEY (world (syncPendingReceipts all_succeed (enqueue_all [A; B; A] fresh)))
     = Some (js "[]").
Proof.
  apply (drain_all_succeed_empties all_succeed (enqueue_all [A; B; A] fresh));
    [reflexivity|discriminate|reflexivity].
Defined.

(** *** What the manager leaves alone *)

Lemma perform_other_keys a st (key : jstring) :
  key <> KEY ->
  localStorage (world (perform a st)) !! key = localStorage (world st) !! key.
Proof.
  intros Hk. destruct a as [e res|r|[net|]]; cbn [perform dispatch].
  - rewrite sync_step_storage. destruct (succeeded res); [|reflexivity].
    now apply lookup_insert_ne.
  - cbn. now apply lookup_insert_ne.
  - unfold handleOnline. cbn [with_world world classList_remove localStorage].
    rewrite drain_storage.
    destruct (synced _ _ _); [reflexivity|now apply lookup_insert_ne].
  - reflexivity.
Qed.

(** X5.  The manager keeps everything under the one key [pendingReceipts]:
    whatever happens in whatever order (requests that end, receipts that are
    enqueued, [online] and [offline] events), every other key of the storage
    holds what it held before. *)
Theorem other_keys_untouched (acts : list action) (st : State) (key : jstring) :
  key <> KEY ->
  getItem key (world (perform_all acts st)) = getItem key (world st).
Proof.
  intros Hk. revert st. unfold perform_all, getItem.
  induction acts as [|a acts IH]; intros st; [reflexivity|].
  cbn [fold_left]. rewrite IH. now apply perform_other_keys.
Qed.

Lemma other_keys_untouched_witness :
  getItem (js "theme")
    (world (perform_all [Enqueue A; Fire (Online all_succeed); Fire Offline]
              (with_world (setItem (js "theme") (js "dark")) fresh)))
  = Some (js "dark").
Proof.
  apply (other_keys_untouched [Enqueue A; Fire (Online all_succeed); Fire Offline]
           (with_world (setItem (js "theme") (js "dark")) fresh) (js "theme")).
  discriminate.
Defined.

Lemma perform_bodyChildren a st :
  bodyChildren (world (perform a st))
  = bodyChildren (world st) ++ (if notifies a then [offlineIndicator] else []).
Proof.
  destruct a as [e res|r|[net|]]; cbn [perform dispatch notifies].
  - rewrite app_nil_r. now destruct res as [m|[|]].
  - reflexivity.
  - rewrite app_nil_r. unfold handleOnline, syncPendingReceipts.
    cbn [with_world world classList_remove bodyChildren].
    now destruct (sync_loop_page net (pendingReceipts (manager (set_isOnline true st)))
                   0%nat (with_world (emit SyncCall) (set_isOnline true st))) as [-> _].
  - reflexivity.
Qed.

(** X6.  The offline indicator is appended to the page once for every
    [offline] event and once for every receipt that is enqueued, and nothing
    removes one: after any sequence of requests, enqueue calls and events the
    page holds the elements it held before, followed by one indicator per
    such action; an [online] event leaves them where they are. *)
Theorem indicators_accumulate (acts : list action) (st : State) :
  bodyChildren (world (perform_all acts st))
  = bodyChildren (world st)
    ++ replicate (length (List.filter notifies acts)) offlineIndicator.
Proof.
  revert st. unfold perform_all.
  induction acts as [|a acts IH]; intros st; [now rewrite app_nil_r|].
  cbn [fold_left List.filter]. rewrite IH, perform_bodyChildren.
  destruct (notifies a); [|now rewrite app_nil_r].
  now rewrite <- app_assoc.
Qed.

Lemma perform_connectivity a st :
  match a with
  | Fire ev =>
      isOnline (manager (perform a st)) = is_online_event ev
      /\ (js "offline" ∈ bodyClasses (world (perform a st))
          <-> is_online_event ev = false)
  | _ =>
      isOnline (manager (perform a st)) = isOnline (manager st)
      /\ bodyClasses (world (perform a st)) = bodyClasses (world st)
  end.
Proof.
  destruct a as [e res|r|[net|]]; cbn [perform dispatch is_online_event].
  - now destruct res as [m|[|]].
  - now split.
  - unfold handleOnline, syncPendingReceipts. cbn [with_world manager world].
    rewrite sync_loop_isOnline. split; [reflexivity|].
    cbn [classList_remove bodyClasses]. split; [|discriminate].
    intros H. apply elem_of_difference in H as [_ H]. destruct H.
    now apply elem_of_singleton.
  - split; [reflexivity|]. split; [reflexivity|]. intros _.
    cbn. apply elem_of_union_l. now apply elem_of_singleton.
Qed.

(** X7.  The [isOnline] flag and the class [offline] of the body follow the
    last event of [window]: after any sequence of requests, enqueue calls
    and events that holds an event, the flag is set exactly when the last
    event was [online] and the class is there exactly when it was [offline];
    requests and enqueue calls change neither, so a receipt enqueued while
    online shows the indicator without the class. *)
Theorem connectivity_follows_last_event (acts : list action) (st : State) :
  match last_event acts with
  | Some ev =>
      isOnline (manager (perform_all acts st)) = is_online_event ev
      /\ (js "offline" ∈ bodyClasses (world (perform_all acts st))
          <-> is_online_event ev = false)
  | None =>
      isOnline (manager (perform_all acts st)) = isOnline (manager st)
      /\ bodyClasses (world (perform_all acts st)) = bodyClasses (world st)
  end.
Proof.
  unfold last_event, perform_all.
  induction acts as [|a acts IH] using rev_ind; [now split|].
  rewrite !fold_left_app. cbn [fold_left].
  pose proof (perform_connectivity a (fold_left (fun s a => perform a s) acts st)) as Ha.
  destruct a as [e res|r|ev]; try exact Ha.
  - destruct Ha as [-> ->]. exact IH.
  - destruct Ha as [-> ->]. exact IH.
Qed.

(** *** Page load *)

Lemma strict_eq_references a b :
  is_reference (payload a) = true -> is_reference (payload b) = true ->
  strict_eq a b = (ref a =? ref b).
Proof.
  unfold strict_eq.
  destruct (payload a); try discriminate; destruct (payload b); try discriminate;
    reflexivity.
Qed.

Lemma numbered_entries_distinct xs : forall f : nat -> nat,
  (forall i j, i <> j -> f i <> f j) ->
  forallb is_reference xs = true ->
  distinct (imap (fun i v => {| ref := N.of_nat (f i); payload := v |}) xs) = true.
Proof.
  induction xs as [|x xs IH]; intros f Hf Hr; [reflexivity|].
  cbn [forallb] in Hr. apply andb_true_iff in Hr as [Hx Hr].
  cbn [imap distinct]. apply andb_true_iff. split.
  - apply Forall_forallb. apply Forall_forall. intros y Hy.
    apply elem_of_lookup_imap in Hy as (i & v & -> & Hv).
    assert (Hv' : is_reference v = true).
    { apply forallb_Forall in Hr. rewrite Forall_forall in Hr.
      apply Hr. eapply list_elem_of_lookup_2, Hv. }
    rewrite !strict_eq_references by assumption. cbn [ref].
    assert (Hne : N.of_nat (f (S i)) <> N.of_nat (f 0%nat)).
    { intros E. apply Nat2N.inj in E. now apply Hf in E. }
    unfold compose. cbn [ref].
    apply andb_true_iff. split; apply negb_true_iff, N.eqb_neq; congruence.
  - apply (IH (fun i => f (S i))); [|exact Hr].
    intros i j Hij. apply Hf. congruence.
Qed.

Lemma fresh_entries_distinct xs :
  forallb is_reference xs = true -> distinct (fresh_entries xs) = true.
Proof. intros H. now apply (numbered_entries_distinct xs (fun i => i)). Qed.

Lemma fresh_entries_self xs :
  forallb is_reference xs = true ->
  Forall (fun e => strict_eq e e = true) (fresh_entries xs).
Proof.
  intros H. apply Forall_forall. intros y Hy.
  apply elem_of_lookup_imap in Hy as (i & v & -> & Hv).
  assert (Hv' : is_reference v = true).
  { apply forallb_Forall in H. rewrite Forall_forall in H.
    apply H. eapply list_elem_of_lookup_2, Hv. }
  rewrite strict_eq_references by exact Hv'. apply N.eqb_refl.
Qed.

Lemma fresh_entries_plain xs :
  plain (JArr xs) = true -> plain_queue (fresh_entries xs) = true.
Proof.
  cbn [plain]. intros H. unfold plain_queue.
  apply Forall_forallb. apply Forall_forall. intros y Hy.
  apply elem_of_lookup_imap in Hy as (i & v & -> & Hv). cbn [payload].
  apply forallb_Forall in H. rewrite Forall_forall in H.
  apply H. eapply list_elem_of_lookup_2, Hv.
Qed.

(** X8.  The drain of a page load.  When the stored text is an array of
    objects that is not empty and the browser is online, [new
    OfflineManager()] starts a drain pass; with the pass run to its end, one
    request was made for each stored receipt and the queue holds exactly
    the receipts whose request did not succeed, in their order: the objects
    that [JSON.parse] builds are all different, so nothing more is asked of
    the queue.  If what was stored is plain data, that queue is also what
    the storage holds; a stored number that is too large for binary64 loads
    as [Infinity] and is written back as [null]. *)
Theorem startup_drain_keeps_the_failed (net : nat -> fetch_result) (w : World)
    (xs : list json) :
  load w = Some (JArr xs) ->
  forallb is_reference xs = true ->
  xs <> [] ->
  exists st,
    constructor true net w = Some (Returns st)
    /\ pendingReceipts (manager st) = unsynced (fresh_entries xs) 0 net
    /\ requests (world st) = (requests w + length xs)%nat
    /\ isOnline (manager st) = true
    /\ (plain (JArr xs) = true -> persisted (world st) (pendingReceipts (manager st))).
Proof.
  intros Hl Hr Hne.
  set (st0 := {| manager := {| isOnline := true; pendingReceipts := fresh_entries xs |};
                 world := w |}).
  assert (Hlen : length (fresh_entries xs) = length xs) by apply length_imap.
  assert (Hc : constructor true net w = Some (Returns (syncPendingReceipts net st0))).
  { unfold constructor. rewrite Hl. unfold init.
    cbn [manager pendingReceipts isOnline]. rewrite Hlen.
    destruct xs; [congruence|reflexivity]. }
  exists (syncPendingReceipts net st0). split; [exact Hc|].
  assert (Hq : pendingReceipts (manager (syncPendingReceipts net st0))
               = unsynced (fresh_entries xs) 0 net).
  { unfold syncPendingReceipts. rewrite <- (app_nil_r (unsynced _ _ _)).
    apply (sync_loop_queue_self net _ 0%nat [] []); rewrite ?app_nil_r;
      [now apply fresh_entries_distinct|now apply fresh_entries_self|reflexivity]. }
  split; [exact Hq|]. split; [|split].
  - unfold requests, syncPendingReceipts. rewrite sync_loop_trace.
    cbn [with_world world emit trace]. rewrite <- app_assoc.
    rewrite List.filter_app, length_app. cbn [app List.filter is_fetch].
    rewrite drain_effects_requests, length_map.
    cbn [manager pendingReceipts st0]. now rewrite Hlen.
  - unfold syncPendingReceipts. now rewrite sync_loop_isOnline.
  - intros Hp. unfold syncPendingReceipts. apply sync_loop_in_sync.
    split; [now apply fresh_entries_plain|].
    unfold persisted. cbn [st0 with_world world manager pendingReceipts].
    rewrite payloads_fresh_entries. exact Hl.
Qed.

Lemma startup_drain_keeps_the_failed_witness :
  exists st,
    constructor true second_fails (world three_queued) = Some (Returns st)
    /\ pendingReceipts (manager st)
       = unsynced (fresh_entries (payloads [A; B; C])) 0 second_fails
    /\ requests (world st) = (requests (world three_queued) + 3)%nat
    /\ isOnline (manager st) = true
    /\ persisted (world st) (pendingReceipts (manager st)).
Proof.
  destruct (startup_drain_keeps_the_failed second_fails (world three_queued)
              (payloads [A; B; C]))
    as (st & H1 & H2 & H3 & H4 & H5);
    [vm_compute; reflexivity|reflexivity|discriminate|].
  exists st. repeat split; try assumption. apply H5. vm_compute. reflexivity.
Defined.

(** A stored number beyond binary64: the first of two stored objects holds
    [1e400] and only the request for the second succeeds.  The queue keeps
    the first object, with [Infinity] in it, and the storage ends with
    [null] in its place. *)
Example startup_drain_overflow :
  exists st,
    constructor true (fun i => match i with 1%nat => Response true | _ => Response false end)
      (setItem KEY (js "[{" ++ 34 :: js "n" ++ 34 :: js ":1e400},{}]") empty_world)
    = Some (Returns st)
    /\ payloads (pendingReceipts (manager st)) = [JObj [(js "n", JNum (Infinity false))]]
    /\ getItem KEY (world st) = Some (js "[{" ++ 34 :: js "n" ++ 34 :: js ":null}]").
Proof. eexists. vm_compute. repeat split. Qed.

(** X9.  What is in memory survives a reload.  Start from a manager whose
    queue of plain receipts is the stored one, let requests end, receipts be
    enqueued and events fire in any order, and then load the page again
    while offline: [new OfflineManager()] returns with a queue that has the
    same receipts in the same order as the queue that was in memory, makes
    no request, and leaves the page as it found it. *)
Theorem reload_restores_the_queue (acts : list action) (st : State)
    (net : nat -> fetch_result) :
  forallb enqueues_plain acts = true ->
  in_sync st ->
  exists st',
    constructor false net (world (perform_all acts st)) = Some (Returns st')
    /\ payloads (pendingReceipts (manager st'))
       = payloads (pendingReceipts (manager (perform_all acts st)))
    /\ world st' = world (perform_all acts st).
Proof.
  intros Ha Hs.
  destruct (in_sync_interleaved acts st Ha Hs) as [_ Hp].
  unfold persisted in Hp. fold (perform_all acts st) in Hp.
  eexists. unfold constructor. rewrite Hp. unfold init.
  cbn [manager isOnline]. rewrite andb_false_r.
  split; [reflexivity|]. split; [|reflexivity].
  cbn [manager pendingReceipts]. apply payloads_fresh_entries.
Qed.

Lemma reload_restores_the_queue_witness :
  exists st',
    constructor false all_succeed
      (world (perform_all [Enqueue A; Fire Offline; Enqueue B; Attempt A (Response true)]
                fresh))
    = Some (Returns st')
    /\ payloads (pendingReceipts (manager st'))
       = payloads (pendingReceipts
                     (manager (perform_all
                                 [Enqueue A; Fire Offline; Enqueue B;
                                  Attempt A (Response true)] fresh)))
    /\ world st'
       = world (perform_all [Enqueue A; Fire Offline; Enqueue B; Attempt A (Response true)]
                  fresh).
Proof.
  apply (reload_restores_the_queue
           [Enqueue A; Fire Offline; Enqueue B; Attempt A (Response true)] fresh all_succeed).
  - reflexivity.
  - split; vm_compute; reflexivity.
Defined.

End OfflineCoverage.

(** * More of the receipt form: validation, the response, the buttons *)

Module FormCoverage.
Import ParseSpec.
Import CreateReceipt FormSpec PageSpec Editing Samples MoreSamples.
Import ParseFacts ValueRoundTrip FormFacts FormClaims.

(** *** validateForm *)

Lemma row_invalid_highlight r : row_invalid (highlight r) = row_invalid r.
Proof. unfold highlight. now destruct (row_invalid r) eqn:E. Qed.

Lemma highlight_idempotent r : highlight (highlight r) = highlight r.
Proof.
  unfold highlight at 1. rewrite row_invalid_highlight.
  assert (Hn : name_value (highlight r) = name_value r)
    by (unfold highlight; now destruct (row_invalid r)).
  assert (Hq : bad_quantity (highlight r) = bad_quantity r)
    by (unfold highlight, bad_quantity; now destruct (row_invalid r)).
  assert (Hp : bad_price (highlight r) = bad_price r)
    by (unfold highlight, bad_price; now destruct (row_invalid r)).
  assert (Hqv : quantity_value (highlight r) = quantity_value r)
    by (unfold highlight; now destruct (row_invalid r)).
  assert (Hpv : price_value (highlight r) = price_value r)
    by (unfold highlight; now destruct (row_invalid r)).
  rewrite Hn, Hq, Hp, Hqv, Hpv.
  unfold highlight. destruct (row_invalid r); [|reflexivity].
  cbn [name_border quantity_border price_border].
  destruct (is_empty (trim (name_value r))), (bad_quantity r), (bad_price r);
    reflexivity.
Qed.

Lemma has_red_highlight r : has_red (highlight r) = row_invalid r.
Proof.
  unfold highlight. destruct (row_invalid r) eqn:E; [|reflexivity].
  unfold has_red. cbn [name_border quantity_border price_border].
  unfold row_invalid in E.
  destruct (is_empty (trim (name_value r))); [reflexivity|].
  destruct (bad_quantity r); [now rewrite orb_true_r|].
  destruct (bad_price r); [now rewrite orb_true_r|discriminate].
Qed.

Lemma collect_items_highlight rs : collect_items (map highlight rs) = collect_items rs.
Proof.
  unfold collect_items. induction rs as [|r rs IH]; [reflexivity|].
  cbn [map]. rewrite !filter_cons, row_invalid_highlight.
  destruct (decide (negb (row_invalid r))) as [H|H]; [|exact IH].
  cbn [map]. rewrite IH. f_equal.
  unfold item_of_row, highlight. now destruct (row_invalid r).
Qed.

Lemma all_valid_highlight rs :
  forallb (fun r => negb (row_invalid r)) (map highlight rs)
  = forallb (fun r => negb (row_invalid r)) rs.
Proof.
  induction rs as [|r rs IH]; [reflexivity|].
  cbn [map forallb]. now rewrite row_invalid_highlight, IH.
Qed.

(** The test of a row is made on the numbers as binary64 has them: a
    quantity of [1e-400] reads as zero and is refused; a price of
    [-1e-400] reads as zero, which is not below zero, and is accepted; and
    the items carry the rounded numbers. *)
Example validation_reads_binary64 :
  row_invalid (row "Tea" "1e-400" "10") = true
  /\ row_invalid (row "Tea" "1" "-1e-400") = false
  /\ item_of_row (row "Tea" "9007199254740993" "0.1234567890123456789")
     = {| name := js "Tea";
          quantity := Finite false [9; 0; 0; 7; 1; 9; 9; 2; 5; 4; 7; 4; 0; 9; 9; 2] 16;
          price := Finite false [1; 2; 3; 4; 5; 6; 7; 8; 9; 0; 1; 2; 3; 4; 5; 6; 8] 0 |}.
Proof. vm_compute. repeat split. Qed.

(** X10.  After [validateForm] a row has a red border exactly when it is
    invalid, whatever colours its borders had before, and the verdict is
    valid exactly when no row is red afterwards. *)
Theorem validateForm_marks_the_invalid_rows (rs : list ItemRow) :
  map has_red (snd (validateForm rs)) = map row_invalid rs
  /\ valid (fst (validateForm rs))
     = forallb (fun r => negb (has_red r)) (snd (validateForm rs)).
Proof.
  cbn [validateForm fst snd valid]. split.
  - rewrite map_map. apply map_ext. apply has_red_highlight.
  - induction rs as [|r rs IH]; [reflexivity|].
    cbn [map forallb]. now rewrite has_red_highlight, IH.
Qed.

(** X11.  Validating again changes nothing: on the rows that [validateForm]
    left, a second [validateForm] gives the same verdict and the same items
    and leaves every border as it is. *)
Theorem validateForm_again (rs : list ItemRow) :
  validateForm (snd (validateForm rs)) = validateForm rs.
Proof.
  unfold validateForm. cbn [snd].
  rewrite all_valid_highlight, collect_items_highlight.
  f_equal. rewrite map_map. apply map_ext, highlight_idempotent.
Qed.

(** *** generateReceipt *)

(** X12.  However its request ends, and in both versions of the script,
    [generateReceipt] leaves the offline manager and the page of offline.js
    alone: the queue and the [isOnline] flag, the storage, the elements of
    the body and its classes are as before.  No outcome enqueues the
    receipt. *)
Theorem generateReceipt_leaves_the_manager_alone (res : submit_result) (p : Page) :
  (Offline.manager (offline (generateReceipt res p)) = Offline.manager (offline p)
   /\ localStorage (Offline.world (offline (generateReceipt res p)))
      = localStorage (Offline.world (offline p))
   /\ bodyChildren (Offline.world (offline (generateReceipt res p)))
      = bodyChildren (Offline.world (offline p))
   /\ bodyClasses (Offline.world (offline (generateReceipt res p)))
      = bodyClasses (Offline.world (offline p)))
  /\ (Offline.manager (offline (Part000.generateReceipt res p)) = Offline.manager (offline p)
      /\ localStorage (Offline.world (offline (Part000.generateReceipt res p)))
         = localStorage (Offline.world (offline p))
      /\ bodyChildren (Offline.world (offline (Part000.generateReceipt res p)))
         = bodyChildren (Offline.world (offline p))
      /\ bodyClasses (Offline.world (offline (Part000.generateReceipt res p)))
         = bodyClasses (Offline.world (offline p))).
Proof.
  destruct (form_ok_dec (form p)) as [H|H].
  - rewrite (generateReceipt_valid _ p H), (part000_generateReceipt_valid _ p H).
    destruct res; repeat split.
  - rewrite (generateReceipt_invalid _ p H), (part000_generateReceipt_invalid _ p H).
    repeat split.
Qed.

(** X14.  [generateReceipt] never leaves its button disabled: when it has
    made a request the button ends with the label [Generate ETR Receipt]
    and enabled, however the request ended; when validation stops it the
    button is not touched. *)
Theorem button_is_put_back (res : submit_result) (p : Page) :
  (form_ok (form p) -> generateReceiptBtn (generateReceipt res p) = idle_button)
  /\ (~ form_ok (form p) ->
      generateReceiptBtn (generateReceipt res p) = generateReceiptBtn p)
  /\ (disabled (generateReceiptBtn p) = false ->
      disabled (generateReceiptBtn (generateReceipt res p)) = false).
Proof.
  destruct (form_ok_dec (form p)) as [H|H].
  - rewrite (generateReceipt_valid _ p H). repeat split. contradiction.
  - rewrite (generateReceipt_invalid _ p H). repeat split; [contradiction|].
    intros E. exact E.
Qed.

Lemma button_is_put_back_witness :
  generateReceiptBtn (generateReceipt (Failed (js "Failed to fetch")) one_tea) = idle_button.
Proof.
  exact (proj1 (button_is_put_back (Failed (js "Failed to fetch")) one_tea) one_tea_ok).
Defined.

(** *** The modal and its buttons *)

(** X15.  The modal follows the last submission that succeeded.  After a
    valid form was accepted, the modal is shown with that receipt and the
    save button opens [/receipt/] followed by its id.  A submission that
    fails, is refused, or is stopped by validation leaves the modal, the
    receipt in it and the target of the save button as they were, so after
    a failure the save button still opens the receipt before it, and as
    long as no submission has succeeded it opens nothing.  Closing the
    modal hides it and keeps the target. *)
Theorem save_opens_the_last_receipt (res : submit_result) (r : Result) (p : Page) :
  (form_ok (form p) -> receipt_id r <> [] ->
     saveReceipt (generateReceipt (Succeeded r) p) = Some (js "/receipt/" ++ receipt_id r)
     /\ receiptModal_display (generateReceipt (Succeeded r) p) = js "flex"
     /\ receiptContent (generateReceipt (Succeeded r) p) = Some r)
  /\ (shows_receipt res = None \/ ~ form_ok (form p) ->
        saveReceipt (generateReceipt res p) = saveReceipt p
        /\ receiptModal_display (generateReceipt res p) = receiptModal_display p
        /\ receiptContent (generateReceipt res p) = receiptContent p)
  /\ (saveReceiptBtn_receiptId p = None -> saveReceipt p = None)
  /\ saveReceipt (closeReceipt p) = saveReceipt p
  /\ receiptModal_display (closeReceipt p) = js "none".
Proof.
  split; [|split; [|split; [|split; reflexivity]]].
  - intros H Hid. rewrite (generateReceipt_valid _ p H).
    unfold saveReceipt. cbn. destruct (receipt_id r); [congruence|now repeat split].
  - intros Hres. destruct (form_ok_dec (form p)) as [H|H].
    + destruct Hres as [Hres|Hres]; [|contradiction].
      rewrite (generateReceipt_valid _ p H).
      destruct res; [now repeat split|discriminate|now repeat split].
    + rewrite (generateReceipt_invalid _ p H). now repeat split.
  - intros E. unfold saveReceipt. now rewrite E.
Qed.

Lemma save_opens_the_last_receipt_witness :
  saveReceipt (generateReceipt (Succeeded receipt_17) one_tea) = Some (js "/receipt/17")
  /\ receiptModal_display (generateReceipt (Succeeded receipt_17) one_tea) = js "flex"
  /\ receiptContent (generateReceipt (Succeeded receipt_17) one_tea) = Some receipt_17.
Proof.
  apply (save_opens_the_last_receipt (Succeeded receipt_17) receipt_17 one_tea);
    [exact one_tea_ok|discriminate].
Defined.

(** *** The body of the request *)

Lemma nullify_item r :
  nullify (item_json (item_of_row r)) = item_json (item_of_row r) <-> finite_row r.
Proof.
  unfold item_json, finite_row. cbn [nullify map fst snd item_of_row name quantity price].
  destruct (isFinite (parseFloat (quantity_value r)));
    destruct (isFinite (parseFloat (price_value r)));
    split; try (intros [= ]); try (intros [? ?]; discriminate); auto.
Qed.

Lemma nullify_items rs :
  map nullify (map item_json (map item_of_row rs)) = map item_json (map item_of_row rs)
  <-> Forall finite_row rs.
Proof.
  induction rs as [|r rs IH]; [split; [constructor|reflexivity]|].
  cbn [map]. split.
  - intros E. pose proof (f_equal (hd JNull) E) as Hr.
    pose proof (f_equal (@tl json) E) as Hrs. cbn [hd tl] in Hr, Hrs.
    constructor; [now apply nullify_item|now apply IH].
  - inversion 1 as [|? ? Hr Hrs]; subst. f_equal; [now apply nullify_item|now apply IH].
Qed.

Lemma nullify_payload f :
  nullify (receipt_json (payload_of f)) = receipt_json (payload_of f)
  <-> Forall finite_row (rows f).
Proof.
  unfold receipt_json, payload_of.
  cbn [nullify map fst snd customer_name customer_pin payment_method items].
  rewrite <- nullify_items. split; [|now intros ->].
  intros E. apply (f_equal (fun v => match v with
                                     | JObj [_; _; _; (_, JArr l)] => l
                                     | _ => []
                                     end)) in E.
  exact E.
Qed.

Lemma nullify_item_plain r : plain (nullify (item_json (item_of_row r))) = true.
Proof.
  unfold item_json. cbn [nullify map fst snd item_of_row name quantity price].
  cbn [plain forallb snd]. apply andb_true_iff. split; [reflexivity|].
  cbn [andb].
  assert (Hn : forall s, plain (if isFinite (parseFloat s)
                                then JNum (parseFloat s) else JNull) = true).
  { intros s. destruct (isFinite (parseFloat s)) eqn:E; [|reflexivity].
    cbn [plain]. now rewrite E, parseFloat_canonical, parseFloat_is_double. }
  now rewrite !Hn.
Qed.

(** With [null] for the numbers that are not finite, every payload of the
    form is plain data. *)
Lemma nullify_payload_plain f : plain (nullify (receipt_json (payload_of f))) = true.
Proof.
  unfold receipt_json, payload_of.
  cbn [nullify map fst snd customer_name customer_pin payment_method items].
  cbn [plain forallb snd]. apply andb_true_iff. split; [reflexivity|].
  cbn [andb]. rewrite andb_true_r. apply Forall_forallb, Forall_forall. intros j Hj.
  apply list_elem_of_In, in_map_iff in Hj as (i & <- & Hi).
  apply in_map_iff in Hi as (i' & <- & Hi'). apply in_map_iff in Hi' as (r & <- & _).
  apply nullify_item_plain.
Qed.

(** X16.  The body that [generateReceipt] sends for a valid form is JSON
    text; read back, it is the payload with [null] for every number that is
    not finite, so it reads back as the payload exactly when every quantity
    and every price is finite.  A quantity or a price of [Infinity], also
    one that only overflows binary64, passes validation and is written as
    [null], and the receiver does not get the number. *)
Theorem request_body_reads_back (res : submit_result) (p : Page) :
  form_ok (form p) ->
  exists body,
    page_trace (generateReceipt res p)
    = page_trace p ++ Fetch (js "/create-receipt") body :: response_effects res
    /\ JSON.parse body = Some (nullify (receipt_json (payload_of (form p))))
    /\ (JSON.parse body = Some (receipt_json (payload_of (form p)))
        <-> Forall finite_row (rows (form p))).
Proof.
  intros H. exists (stringify (receipt_json (payload_of (form p)))).
  assert (Hb : JSON.parse (stringify (receipt_json (payload_of (form p))))
               = Some (nullify (receipt_json (payload_of (form p)))))
    by apply parse_stringify_nullify, nullify_payload_plain.
  split; [|split; [exact Hb|]].
  - rewrite (generateReceipt_valid res p H).
    change (page_trace (set_button idle_button ?q)) with (page_trace q).
    now rewrite submit_trace.
  - rewrite Hb. split.
    + intros E. apply nullify_payload. congruence.
    + intros Hf. f_equal. now apply nullify_payload.
Qed.

Lemma request_body_reads_back_witness :
  exists body,
    page_trace (generateReceipt (Succeeded receipt_17) one_tea)
    = page_trace one_tea
      ++ Fetch (js "/create-receipt") body :: response_effects (Succeeded receipt_17)
    /\ JSON.parse body = Some (nullify (receipt_json (payload_of (form one_tea))))
    /\ (JSON.parse body = Some (receipt_json (payload_of (form one_tea)))
        <-> Forall finite_row (rows (form one_tea))).
Proof.
  apply (request_body_reads_back (Succeeded receipt_17) one_tea). exact one_tea_ok.
Defined.

(** A quantity that overflows: the form is valid, and the body does not
    read back as the payload. *)
Example overflowing_quantity_is_sent_as_null :
  form_ok (form overflow_page)
  /\ parseFloat (js "1e400") = Infinity false
  /\ JSON.parse (stringify (receipt_json (payload_of (form overflow_page))))
     <> Some (receipt_json (payload_of (form overflow_page))).
Proof.
  split; [|split; [reflexivity|vm_compute; discriminate]].
  split; [|discriminate]. constructor; [|constructor].
  repeat split; vm_compute; discriminate.
Qed.

End FormCoverage.

(** * The rows of the form: adding, removing, clearing *)

Module EditingCoverage.
Import ParseSpec.
Import CreateReceipt FormSpec Editing Samples MoreSamples FormFacts FormClaims.

Lemma row_elements_app l1 l2 :
  row_elements (l1 ++ l2) = row_elements l1 ++ row_elements l2.
Proof. apply omap_app. Qed.

Lemma row_elements_alter f i : forall ns,
  length (row_elements (alter (on_row f) i ns)) = length (row_elements ns).
Proof.
  induction i as [|i IH]; intros [|n ns]; try reflexivity.
  - now destruct n.
  - cbn [alter list_alter]. destruct n; cbn; [f_equal|]; apply IH.
Qed.

Lemma lookup_row_elements i r : forall ns,
  ns !! i = Some (RowNode r) -> row_elements ns <> [].
Proof.
  induction i as [|i IH]; intros [|n ns] H; try discriminate.
  - cbn in H. injection H as ->. discriminate.
  - cbn in H. destruct n; [discriminate|]. apply (IH ns H).
Qed.

Lemma row_elements_delete i r : forall ns,
  ns !! i = Some (RowNode r) ->
  length (row_elements (delete i ns)) = pred (length (row_elements ns)).
Proof.
  induction i as [|i IH]; intros [|n ns] H; try discriminate.
  - cbn in H. injection H as ->. reflexivity.
  - cbn in H. cbn [delete list_delete]. destruct n as [r'|d].
    + change (S (length (row_elements (delete i ns))) = length (row_elements ns)).
      rewrite (IH ns H). apply lookup_row_elements in H.
      destruct (row_elements ns); [congruence|reflexivity].
    + apply (IH ns H).
Qed.

Lemma removelast_snoc (l : list item_node) x : removelast (l ++ [x]) = l.
Proof. apply removelast_last. Qed.

(** The loop of [clearForm] ends with the first row alone. *)
Lemma keep_one_first n : forall ns r rest,
  row_elements ns = r :: rest -> (length ns <= n)%nat ->
  row_elements (keep_one n ns) = [r].
Proof.
  induction n as [|n IH]; intros ns r rest Hr Hn.
  - destruct ns; [discriminate|simpl in Hn; lia].
  - cbn [keep_one]. destruct (1 <? length (row_elements ns))%nat eqn:E.
    + apply Nat.ltb_lt in E.
      destruct (exists_last (l := ns)) as (l & x & ->); [now intros ->|].
      rewrite removelast_snoc. rewrite row_elements_app in Hr, E.
      rewrite length_app in Hn. cbn in Hn.
      destruct x as [r'|d]; cbn in Hr, E.
      * destruct (row_elements l) as [|a l'] eqn:El; [cbn in E; lia|].
        injection Hr as -> _. apply (IH l r l' El). lia.
      * rewrite app_nil_r in Hr. apply (IH l r rest Hr). lia.
    + apply Nat.ltb_ge in E. rewrite Hr in *. destruct rest; [reflexivity|].
      cbn in E. lia.
Qed.

Lemma keep_one_none n : forall ns, row_elements ns = [] -> keep_one n ns = ns.
Proof. destruct n; intros ns H; [reflexivity|]. cbn [keep_one]. now rewrite H. Qed.

Lemma on_first_row_some f : forall ns r rest,
  row_elements ns = r :: rest ->
  exists ns', on_first_row f ns = Some ns' /\ row_elements ns' = f r :: rest.
Proof.
  induction ns as [|n ns IH]; intros r rest H; [discriminate|].
  destruct n as [r'|d].
  - cbn in H. injection H as -> <-. eexists. split; reflexivity.
  - cbn in H. destruct (IH r rest H) as (ns' & E & Hr').
    exists (TextNode d :: ns'). cbn [on_first_row]. rewrite E. split; [reflexivity|].
    exact Hr'.
Qed.

Lemma on_first_row_none f : forall ns,
  row_elements ns = [] -> on_first_row f ns = None.
Proof.
  induction ns as [|n ns IH]; intros H; [reflexivity|].
  destruct n as [r'|d]; [discriminate|]. cbn [on_first_row]. now rewrite IH.
Qed.

(** An invalid form, in either version, makes no request. *)
Lemma invalid_form_no_request res p :
  ~ form_ok (form p) ->
  page_requests (generateReceipt res p) = page_requests p
  /\ page_requests (Part000.generateReceipt res p) = page_requests p.
Proof.
  intros H.
  rewrite (generateReceipt_invalid _ p H), (part000_generateReceipt_invalid _ p H).
  unfold page_requests, QueueSpec.requests. cbn.
  rewrite !List.filter_app, !length_app. cbn. lia.
Qed.

Lemma blank_row_not_ok (rs1 rs2 : list ItemRow) r :
  name_value r = [] -> ~ Forall row_ok (rs1 ++ r :: rs2).
Proof.
  intros Hn H. apply Forall_app in H as [_ H]. inversion H as [|? ? [Hr _] _]; subst.
  apply Hr. now rewrite Hn.
Qed.

Section Rows.
Variables mul add : number -> number -> number.
Variable fmt : number -> jstring.

Lemma clear_rows e r rest :
  row_elements (itemNodes e) = r :: rest ->
  exists e',
    clear mul add fmt e = (e', None)
    /\ row_elements (itemNodes e') = [clear_row r]
    /\ customerName_value e' = [] /\ customerPIN_value e' = []
    /\ paymentMethod_value e' = js "Cash".
Proof.
  intros H. unfold Editing.clear. cbn [itemNodes].
  pose proof (keep_one_first (length (itemNodes e)) (itemNodes e) r rest H (le_n _)) as Hk.
  destruct (on_first_row_some clear_row _ r [] Hk) as (ns' & -> & Hr').
  eexists. split; [reflexivity|]. now repeat split.
Qed.

Lemma ui_step_rows a e :
  row_elements (itemNodes e) <> [] ->
  row_elements (itemNodes (fst (ui_step mul add fmt a e))) <> []
  /\ snd (ui_step mul add fmt a e) = None.
Proof.
  intros H. destruct a as [|i|c|i f v]; cbn [Editing.ui_step fst snd].
  - split; [|reflexivity]. cbn. rewrite row_elements_app.
    intros E. now apply app_eq_nil in E as [_ E].
  - split; [|reflexivity]. unfold Editing.removeItem.
    destruct (itemNodes e !! i) as [[r|d]|] eqn:Hi; try exact H.
    destruct (1 <? length (row_elements (itemNodes e)))%nat eqn:E; [|exact H].
    apply Nat.ltb_lt in E.
    change (row_elements (delete i (itemNodes e)) <> []). intros E0.
    pose proof (row_elements_delete i r _ Hi) as Hd. rewrite E0 in Hd. cbn in Hd. lia.
  - destruct c; cbn [Editing.clearForm]; [|now split].
    destruct (row_elements (itemNodes e)) as [|r rest] eqn:Hr; [congruence|].
    destruct (clear_rows e r rest Hr) as (e' & -> & Hr' & _). cbn [fst snd].
    rewrite Hr'. now split.
  - split; [|reflexivity].
    change (row_elements
              (alter (on_row (fun r => {| inputs := inputs r;
                                          item_total := ksh fmt (line_total mul (inputs r)) |}))
                 i (alter (on_row (set_value f v)) i (itemNodes e))) <> []).
    intros E.
    apply (f_equal (@length _)) in E. rewrite !row_elements_alter in E.
    destruct (row_elements (itemNodes e)); [congruence|discriminate].
Qed.

(** X17.  The form never runs out of rows.  From one row or more, whatever
    the user does in whatever order (add a row, press a remove button, clear
    the form and confirm or decline, edit a field), at least one row is left
    and no listener throws; the remove button of the only row does nothing;
    and [clearForm] is the one place that would throw, on a container
    without a row, after it has already reset the customer fields. *)
Theorem rows_never_run_out (acts : list ui_action) (e : Editor) :
  (row_elements (itemNodes e) <> [] ->
     row_elements (itemNodes (ui_run mul add fmt acts e)) <> []
     /\ forall a, snd (ui_step mul add fmt a (ui_run mul add fmt acts e)) = None)
  /\ (forall i, length (row_elements (itemNodes e)) = 1%nat -> removeItem mul add fmt i e = e)
  /\ (row_elements (itemNodes e) = [] ->
        snd (clear mul add fmt e) = Some TypeError
        /\ customerName_value (fst (clear mul add fmt e)) = []
        /\ itemNodes (fst (clear mul add fmt e)) = itemNodes e).
Proof.
  split; [|split].
  - intros H.
    assert (Hr : row_elements (itemNodes (ui_run mul add fmt acts e)) <> []).
    { revert e H. unfold Editing.ui_run.
      induction acts as [|a acts IH]; intros e H; [exact H|].
      cbn [fold_left]. apply IH. now apply ui_step_rows. }
    split; [exact Hr|]. intros a. now apply ui_step_rows.
  - intros i H. unfold Editing.removeItem. rewrite H.
    now destruct (itemNodes e !! i) as [[r|d]|].
  - intros H. unfold Editing.clear. cbn [itemNodes].
    rewrite (keep_one_none _ _ H), (on_first_row_none _ _ H). now repeat split.
Qed.

(** X18.  [clearForm], once confirmed, leaves exactly one row: the first
    one, with an empty name, quantity 1, an empty price and the total
    [KSh 0.00]; it empties the customer fields and selects [Cash].  It works
    whatever nodes lie between the rows, and it does not reset the border
    colours, so a field that validation marked red stays red.  Declined, it
    changes nothing. *)
Theorem clearForm_leaves_one_blank_row (e : Editor) (r : RowElement)
    (rest : list RowElement) :
  row_elements (itemNodes e) = r :: rest ->
  snd (clearForm mul add fmt true e) = None
  /\ form_of (fst (clearForm mul add fmt true e))
     = {| customerName := []; customerPIN := []; paymentMethod := js "Cash";
          rows := [{| name_value := []; quantity_value := js "1"; price_value := [];
                      name_border := name_border (inputs r);
                      quantity_border := quantity_border (inputs r);
                      price_border := price_border (inputs r) |}] |}
  /\ map item_total (row_elements (itemNodes (fst (clearForm mul add fmt true e))))
     = [js "KSh 0.00"]
  /\ clearForm mul add fmt false e = (e, None).
Proof.
  intros H. cbn [Editing.clearForm].
  destruct (clear_rows e r rest H) as (e' & -> & Hr & Hn & Hp & Hm). cbn [fst snd].
  split; [reflexivity|]. split; [|split; [|reflexivity]].
  - unfold form_of. now rewrite Hr, Hn, Hp, Hm.
  - now rewrite Hr.
Qed.

(** X19.  A blank row blocks the receipt.  Right after [addItemRow], and
    right after a confirmed [clearForm], the form is invalid, since the new
    or the cleared row has no name: [generateReceipt], in either version,
    makes no request until the row is filled in or removed. *)
Theorem blank_row_blocks_the_receipt (res : submit_result) (p : Page) (e : Editor) :
  form p = form_of (addItemRow e)
  \/ (row_elements (itemNodes e) <> [] /\ form p = form_of (fst (clearForm mul add fmt true e))) ->
  ~ form_ok (form p)
  /\ page_requests (generateReceipt res p) = page_requests p
  /\ page_requests (Part000.generateReceipt res p) = page_requests p.
Proof.
  intros H.
  assert (Hbad : ~ form_ok (form p)).
  { intros [Hall _]. destruct H as [E|[Hne E]]; rewrite E in Hall.
    - cbn in Hall. rewrite row_elements_app, map_app in Hall.
      now apply blank_row_not_ok in Hall.
    - destruct (row_elements (itemNodes e)) as [|r rest] eqn:Hr; [congruence|].
      cbn [Editing.clearForm] in Hall.
      destruct (clear_rows e r rest Hr) as (e' & E' & Hr' & _).
      rewrite E' in Hall. cbn [fst form_of rows] in Hall. rewrite Hr' in Hall.
      now apply (blank_row_not_ok [] []) in Hall. }
  split; [exact Hbad|]. now apply invalid_form_no_request.
Qed.

End Rows.

Section Current.
Variables mul add : number -> number -> number.
Variable fmt : number -> jstring.
(** Two facts of binary64 arithmetic: [x + 0] is [x], and [1 * 0] is [0]. *)
Hypothesis add_zero : forall x, add x zero = x.
Hypothesis mul_one_zero : mul (Finite false [1] 1) zero = zero.

Lemma updateTotals_nodes e ns :
  updateTotals mul add fmt (set_nodes ns (updateTotals mul add fmt e))
  = updateTotals mul add fmt (set_nodes ns e).
Proof. reflexivity. Qed.

Lemma updateTotals_again e :
  updateTotals mul add fmt (updateTotals mul add fmt e) = updateTotals mul add fmt e.
Proof. reflexivity. Qed.

Lemma subtotal_new_row (rs : list RowElement) :
  fold_left (fun acc r => add acc (line_total mul (inputs r))) (rs ++ [new_row]) zero
  = fold_left (fun acc r => add acc (line_total mul (inputs r))) rs zero.
Proof.
  rewrite fold_left_app. cbn [fold_left].
  change (line_total mul (inputs new_row)) with (mul (Finite false [1] 1) zero).
  now rewrite mul_one_zero, add_zero.
Qed.

Lemma ui_step_current a e :
  updateTotals mul add fmt e = e ->
  updateTotals mul add fmt (fst (ui_step mul add fmt a e)) = fst (ui_step mul add fmt a e).
Proof.
  intros H. destruct a as [|i|c|i f v]; cbn [ui_step fst].
  - rewrite <- H at 2. unfold updateTotals, addItemRow.
    cbn [set_nodes itemNodes customerName_value customerPIN_value paymentMethod_value].
    now rewrite row_elements_app, subtotal_new_row.
  - unfold removeItem. destruct (itemNodes e !! i) as [[r|d]|]; try exact H.
    destruct (1 <? length (row_elements (itemNodes e)))%nat; [reflexivity|exact H].
  - destruct c; cbn [clearForm fst]; [|exact H]. unfold clear. cbn [itemNodes].
    destruct (row_elements (itemNodes e)) as [|r rest] eqn:Hr.
    + rewrite (keep_one_none _ _ Hr), (on_first_row_none _ _ Hr). cbn [fst].
      unfold updateTotals.
      cbn [itemNodes customerName_value customerPIN_value paymentMethod_value].
      f_equal; [exact (f_equal subtotal H)|exact (f_equal vatAmount H)
               |exact (f_equal totalAmount H)].
    + pose proof (keep_one_first (length (itemNodes e)) (itemNodes e) r rest Hr (le_n _))
        as Hk.
      destruct (on_first_row_some clear_row _ r [] Hk) as (ns' & -> & _). reflexivity.
  - reflexivity.
Qed.

(** X20.  The totals under the form are never stale.  Once [updateTotals]
    has run, as it does when the page loads, then after whatever the user
    does to the rows (add one, remove one, clear the form, edit a field)
    [#subtotal], [#vatAmount] and [#totalAmount] show what [updateTotals]
    would write for the rows as they are now.  [addItemRow] does not call
    [updateTotals], and it need not: the row it adds has no price and counts
    for zero.  This takes from binary64 arithmetic only that [x + 0] is [x]
    and that [1 * 0] is [0]. *)
Theorem totals_stay_current (acts : list ui_action) (e : Editor) :
  updateTotals mul add fmt e = e ->
  updateTotals mul add fmt (ui_run mul add fmt acts e) = ui_run mul add fmt acts e.
Proof.
  revert e. unfold ui_run.
  induction acts as [|a acts IH]; intros e H; [exact H|].
  cbn [fold_left]. apply IH. now apply ui_step_current.
Qed.

End Current.

Lemma rows_never_run_out_witness :
  row_elements
    (itemNodes (ui_run no_arith no_arith no_format
                  [ClickAdd; Edit 1 NameField (js "Tea"); ClickRemove 1; ClickRemove 3;
                   ClickClear true]
                  template)) <> []
  /\ forall a,
       snd (ui_step no_arith no_arith no_format a
              (ui_run no_arith no_arith no_format
                 [ClickAdd; Edit 1 NameField (js "Tea"); ClickRemove 1; ClickRemove 3;
                  ClickClear true]
                 template)) = None.
Proof.
  apply (rows_never_run_out no_arith no_arith no_format
           [ClickAdd; Edit 1 NameField (js "Tea"); ClickRemove 1; ClickRemove 3;
            ClickClear true] template).
  discriminate.
Defined.

Lemma clearForm_leaves_one_blank_row_witness :
  snd (clearForm no_arith no_arith no_format true (addItemRow template)) = None
  /\ form_of (fst (clearForm no_arith no_arith no_format true (addItemRow template)))
     = {| customerName := []; customerPIN := []; paymentMethod := js "Cash";
          rows := [{| name_value := []; quantity_value := js "1"; price_value := [];
                      name_border := name_border (inputs new_row);
                      quantity_border := quantity_border (inputs new_row);
                      price_border := price_border (inputs new_row) |}] |}
  /\ map item_total
       (row_elements
          (itemNodes (fst (clearForm no_arith no_arith no_format true (addItemRow template)))))
     = [js "KSh 0.00"]
  /\ clearForm no_arith no_arith no_format false (addItemRow template)
     = (addItemRow template, None).
Proof.
  apply (clearForm_leaves_one_blank_row no_arith no_arith no_format (addItemRow template)
           new_row [new_row]).
  reflexivity.
Defined.

Lemma blank_row_blocks_the_receipt_witness :
  ~ form_ok (form (page_of (addItemRow template)))
  /\ page_requests (generateReceipt (Succeeded receipt_17) (page_of (addItemRow template)))
     = page_requests (page_of (addItemRow template))
  /\ page_requests (Part000.generateReceipt (Succeeded receipt_17)
                      (page_of (addItemRow template)))
     = page_requests (page_of (addItemRow template)).
Proof.
  apply (blank_row_blocks_the_receipt no_arith no_arith no_format (Succeeded receipt_17)
           (page_of (addItemRow template)) template).
  left. reflexivity.
Defined.

Lemma totals_stay_current_witness :
  updateTotals zero_mul zero_add no_format
    (ui_run zero_mul zero_add no_format [ClickAdd; ClickAdd; ClickRemove 1; ClickClear true]
       (updateTotals zero_mul zero_add no_format template))
  = ui_run zero_mul zero_add no_format [ClickAdd; ClickAdd; ClickRemove 1; ClickClear true]
      (updateTotals zero_mul zero_add no_format template).
Proof.
  apply (totals_stay_current zero_mul zero_add no_format);
    [intros x; reflexivity|reflexivity|reflexivity].
Defined.

End EditingCoverage.

(** * The live feed on a container that holds elements only *)

Module DashboardCoverage.
Import ParseSpec.
Import Part000 FeedSpec MoreSamples DashboardClaims.

Lemma take_app_take {A} (m : nat) (l k : list A) :
  take m (l ++ take m k) = take m (l ++ k).
Proof.
  rewrite !take_app, take_take. do 2 f_equal. lia.
Qed.

Section Newest.
Variable toLocaleString : number -> jstring.

Lemma addLiveActivity_take (ev : jstring * Receipt) (nodes : list node) :
  Forall (fun n => is_element n = true) nodes ->
  addLiveActivity toLocaleString (fst ev) (snd ev) nodes
  = take (Nat.max 10 (length nodes)) (shown toLocaleString ev :: nodes).
Proof.
  intros Hel. unfold addLiveActivity. fold (shown toLocaleString ev).
  assert (Hins : Forall (fun n => is_element n = true) (shown toLocaleString ev :: nodes))
    by now constructor.
  rewrite (children_elements _ Hins).
  destruct (Nat.ltb_spec 10 (length (shown toLocaleString ev :: nodes))) as [H|H];
    cbn [length] in H.
  - rewrite removelast_firstn_len. cbn [length pred]. f_equal. lia.
  - symmetry. apply take_ge. cbn [length]. lia.
Qed.

Lemma addLiveActivity_elements (ev : jstring * Receipt) (nodes : list node) :
  Forall (fun n => is_element n = true) nodes ->
  Forall (fun n => is_element n = true)
    (addLiveActivity toLocaleString (fst ev) (snd ev) nodes).
Proof.
  intros Hel. rewrite (addLiveActivity_take ev nodes Hel).
  apply Forall_take. now constructor.
Qed.

(** X21.  On a container that holds elements only, the feed is a window on
    the newest receipts: after any sequence of [new_receipt] events it shows
    the items of the events, newest first, followed by the items that were
    there, cut to ten, or to the number of items it started with if that was
    more than ten, because one insertion removes one item at most.  Started
    with ten items or fewer it never shows more than ten. *)
Theorem feed_shows_the_newest (evs : list (jstring * Receipt)) (nodes : list node) :
  Forall (fun n => is_element n = true) nodes ->
  feed toLocaleString evs nodes
  = take (Nat.max 10 (length nodes)) (rev (map (shown toLocaleString) evs) ++ nodes)
  /\ ((length nodes <= 10)%nat -> (length (feed toLocaleString evs nodes) <= 10)%nat).
Proof.
  intros Hel.
  assert (E : feed toLocaleString evs nodes
              = take (Nat.max 10 (length nodes))
                  (rev (map (shown toLocaleString) evs) ++ nodes)).
  { revert nodes Hel. induction evs as [|ev evs IH]; intros nodes Hel.
    - cbn [feed fold_left map rev app]. symmetry. apply take_ge. lia.
    - cbn [feed fold_left]. fold (feed toLocaleString evs).
      change (fold_left _ evs ?n) with (feed toLocaleString evs n).
      rewrite IH by now apply addLiveActivity_elements.
      rewrite (addLiveActivity_take ev nodes Hel).
      replace (Nat.max 10 (length (take (Nat.max 10 (length nodes))
                                     (shown toLocaleString ev :: nodes))))
        with (Nat.max 10 (length nodes))
        by (rewrite length_take; cbn [length]; lia).
      rewrite take_app_take. cbn [map rev]. now rewrite <- app_assoc. }
  split; [exact E|].
  intros Hlen. rewrite E, length_take. lia.
Qed.

End Newest.

Lemma feed_shows_the_newest_witness :
  feed no_format arrivals []
  = take (Nat.max 10 (length (@nil node))) (rev (map (shown no_format) arrivals) ++ [])
  /\ ((length (@nil node) <= 10)%nat -> (length (feed no_format arrivals []) <= 10)%nat).
Proof.
  apply (feed_shows_the_newest no_format arrivals []). constructor.
Defined.

End DashboardCoverage.
